(** * Multiplatform C utilities: threads, mutexes, read/write locks, clocks

    A shallow embedding of [src/thread.c], [src/mpthread.h], [src/time.c] and
    [src/mptime.h], and the properties of their natural-language
    specification.

    Conventions of the embedding:
    - a C integer of width [w] is a [Z]; every conversion and every
      arithmetic operation writes its wrap-around out with [wrapu] (unsigned)
      or [wraps] (signed, two's complement: what the supported compilers do
      on signed overflow, which ISO C leaves undefined);
    - signed division is [Z.quot] (C truncates towards zero);
    - operating-system services (pthreads, the Windows API, the clocks,
      [nanosleep]) are oracles: fields of a class or of a record that the
      embedded functions call;
    - concurrent executions are interleavings of atomic steps, one shared
      memory access per step, chosen by a schedule (a list of thread
      numbers). *)

From stdpp Require Import base list.
From Stdlib Require Import ZArith Lia.

Local Open Scope Z_scope.

(** ** C integer arithmetic *)

Module CInt.

(** Conversion to an unsigned type of [w] bits. *)
Definition wrapu (w x : Z) : Z := x mod 2 ^ w.

(** Conversion to a signed type of [w] bits (two's complement). *)
Definition wraps (w x : Z) : Z := (x + 2 ^ (w - 1)) mod 2 ^ w - 2 ^ (w - 1).

(** Largest value of a signed type of [w] bits ([LONG_MAX] for [long]). *)
Definition smax (w : Z) : Z := 2 ^ (w - 1) - 1.

End CInt.

(** ** Clocks and sleep: what the operating system provides *)

Module Clock.

(** [struct timespec]. *)
Record timespec : Type := Timespec { tv_sec : Z; tv_nsec : Z }.

(** The two clocks [ts_gettime] reads.  [clock_monotonic = None] stands for
    both ways the source can miss the monotonic clock: [CLOCK_MONOTONIC] not
    defined when compiling, or [clock_gettime(CLOCK_MONOTONIC, ..)] returning
    non-zero. *)
Record clocks : Type := Clocks {
  clock_monotonic : option timespec;
  clock_realtime : timespec
}.

(** How one [nanosleep] call ends: the whole request elapsed ([late] further
    nanoseconds after it), or a signal arrived [after] nanoseconds. *)
Inductive sleep_outcome : Type :=
| Completed (late : Z)
| Interrupted (after : Z).

(** The part of the world [millisleep] acts on: the time in nanoseconds and
    the requests [nanosleep] has received, oldest first. *)
Record sleeper : Type := Sleeper {
  now_ns : Z;
  nanosleep_calls : list timespec
}.

Definition ns_of (ts : timespec) : Z := tv_sec ts * 1000000000 + tv_nsec ts.

(** [nanosleep(req, rem)]: 0 when the request elapsed, -1 when interrupted. *)
Definition nanosleep (o : sleep_outcome) (req : timespec) (w : sleeper)
  : Z * sleeper :=
  match o with
  | Completed late =>
      (0, {| now_ns := now_ns w + ns_of req + Z.max 0 late;
             nanosleep_calls := nanosleep_calls w ++ [req] |})
  | Interrupted after =>
      (-1, {| now_ns := now_ns w + Z.max 0 (Z.min after (ns_of req));
              nanosleep_calls := nanosleep_calls w ++ [req] |})
  end.

(** [ts_gettime], the same in [time.c] and [mptime.h]: the monotonic clock
    when it answers, the realtime clock otherwise. *)
Definition ts_gettime (c : clocks) : timespec :=
  match clock_monotonic c with
  | Some ts => ts
  | None => clock_realtime c
  end.

(** A monotonic clock that reads [sec] seconds and [nsec] nanoseconds. *)
Definition clock_at (sec nsec : Z) : clocks :=
  {| clock_monotonic := Some (Timespec sec nsec);
     clock_realtime := Timespec 0 0 |}.

(** The clock of the examples: 5.25 s on the monotonic clock. *)
Definition clock_5250ms : clocks := clock_at 5 250000000.

End Clock.

(** ** [time.c]: the 64-bit build, UNIX side *)

Module TimeC.
Import CInt Clock.

Definition MILLISECONDS : Z := 1000.
Definition MICROSECONDS : Z := 1000000.

(** [return ((uint64_t) ts.tv_sec * MILLISECONDS) + (ts.tv_nsec / 1000000);] *)
Definition milliseconds (c : clocks) : Z :=
  let ts := ts_gettime c in
  wrapu 64 (wrapu 64 (wrapu 64 (tv_sec ts) * MILLISECONDS)
            + Z.quot (tv_nsec ts) 1000000).

(** [return ((uint64_t) ts.tv_sec * MICROSECONDS) + (ts.tv_nsec / 1000);] *)
Definition microseconds (c : clocks) : Z :=
  let ts := ts_gettime c in
  wrapu 64 (wrapu 64 (wrapu 64 (tv_sec ts) * MICROSECONDS)
            + Z.quot (tv_nsec ts) 1000).

(** [#define millielapsed(ms)  ( milliseconds() - ms )], [ms] a [uint64_t]. *)
Definition millielapsed (c : clocks) (ms : Z) : Z :=
  wrapu 64 (milliseconds c - ms).

(** [#define microelapsed(us)  ( microseconds() - us )], [us] a [uint64_t]. *)
Definition microelapsed (c : clocks) (us : Z) : Z :=
  wrapu 64 (microseconds c - us).

(** The [timespec] that [millisleep(uint32_t ms)] builds:
<<
   sec = ms / MILLISECONDS;                                (uint32_t)
   ts.tv_sec = sec;
   ts.tv_nsec = (ms - (sec * MILLISECONDS)) * 1000000;     (uint32_t)
>> *)
Definition millisleep_request (ms : Z) : timespec :=
  let sec := wrapu 32 (ms / MILLISECONDS) in
  {| tv_sec := sec;
     tv_nsec := wrapu 32 (wrapu 32 (ms - wrapu 32 (sec * MILLISECONDS)) * 1000000) |}.

(** [millisleep]: one [nanosleep(&ts, &ts)], its result dropped; the loop
    [while(nanosleep(&ts, &ts) != 0);] is in a comment of the source. *)
Definition millisleep (o : sleep_outcome) (ms : Z) (w : sleeper) : sleeper :=
  snd (nanosleep o (millisleep_request ms) w).

End TimeC.

(** ** [mptime.h]: the build on [long], POSIX side

    [W] is the width of [long] (and of [time_t] and [unsigned long]) in
    bits: 32 for the 4-byte [long] of the source's notes, 64 on LP64. *)

Module MpTimeH.
Import CInt Clock.

Definition MILLISECONDS : Z := 1000.
Definition MICROSECONDS : Z := 1000000.

(** [return ((long) ts.tv_sec * MILLISECONDS) + (ts.tv_nsec / 1000000L);] *)
Definition milliseconds (W : Z) (c : clocks) : Z :=
  let ts := ts_gettime c in
  wraps W (wraps W (wraps W (tv_sec ts) * MILLISECONDS)
           + Z.quot (tv_nsec ts) 1000000).

(** [return ((long) ts.tv_sec * MICROSECONDS) + (ts.tv_nsec / 1000L);] *)
Definition microseconds (W : Z) (c : clocks) : Z :=
  let ts := ts_gettime c in
  wraps W (wraps W (wraps W (tv_sec ts) * MICROSECONDS)
           + Z.quot (tv_nsec ts) 1000).

(** [#define millielapsed(ms)  ( milliseconds() - ms )], [ms] a [long]. *)
Definition millielapsed (W : Z) (c : clocks) (ms : Z) : Z :=
  wraps W (milliseconds W c - ms).

(** [#define microelapsed(us)  ( microseconds() - us )], [us] a [long]. *)
Definition microelapsed (W : Z) (c : clocks) (us : Z) : Z :=
  wraps W (microseconds W c - us).

(** The [timespec] that [millisleep(unsigned long ms)] builds:
<<
   ts.tv_sec = (time_t) (ms / MILLISECONDS);
   ts.tv_nsec = (long) ((ms - (ts.tv_sec * MILLISECONDS)) * 1000000L);
>>
    [ts.tv_sec * MILLISECONDS] is a signed product; the subtraction and the
    second product are unsigned. *)
Definition millisleep_request (W : Z) (ms : Z) : timespec :=
  let sec := wraps W (wrapu W (ms / MILLISECONDS)) in
  {| tv_sec := sec;
     tv_nsec :=
       wraps W (wrapu W (wrapu W (ms - wraps W (sec * MILLISECONDS)) * 1000000)) |}.

(** Whether the signed product [ts.tv_sec * MILLISECONDS] leaves [long]. *)
Definition millisleep_overflows (W : Z) (ms : Z) : bool :=
  negb (wraps W (wrapu W (ms / MILLISECONDS)) * MILLISECONDS <=? smax W).

Definition millisleep (W : Z) (o : sleep_outcome) (ms : Z) (w : sleeper) : sleeper :=
  snd (nanosleep o (millisleep_request W ms) w).

(** The Windows side of [mptime.h], where [long] has 4 bytes.  [perf] holds
    [Freq_mptime], the [static LARGE_INTEGER] that caches the frequency (0
    until the first call), what [QueryPerformanceFrequency] stores and what
    [QueryPerformanceCounter] reads. *)
Record perf : Type := Perf {
  Freq_mptime : Z;
  qp_frequency : Z;
  qp_counter : Z
}.

(** [if(Freq_mptime.QuadPart == 0) QueryPerformanceFrequency(&Freq_mptime);] *)
Definition acquire_frequency (p : perf) : perf :=
  if Freq_mptime p =? 0
  then {| Freq_mptime := qp_frequency p; qp_frequency := qp_frequency p;
          qp_counter := qp_counter p |}
  else p.

(** [return (long) ((count.QuadPart * MILLISECONDS) / Freq_mptime.QuadPart);] *)
Definition milliseconds_windows (p : perf) : Z * perf :=
  let p1 := acquire_frequency p in
  (wraps 32 (Z.quot (wraps 64 (qp_counter p1 * MILLISECONDS)) (Freq_mptime p1)), p1).

(** [return (long) ((count.QuadPart * MICROSECONDS) / Freq_mptime.QuadPart);] *)
Definition microseconds_windows (p : perf) : Z * perf :=
  let p1 := acquire_frequency p in
  (wraps 32 (Z.quot (wraps 64 (qp_counter p1 * MICROSECONDS)) (Freq_mptime p1)), p1).

(** A 10 MHz performance counter that reads [count], before the first
    call. *)
Definition perf_10mhz (count : Z) : perf :=
  {| Freq_mptime := 0; qp_frequency := 10000000; qp_counter := count |}.

End MpTimeH.

(** ** Threads and read/write locks: what the operating system provides *)

Module ThreadOS.

(** [ThreadID]: [pthread_t] on POSIX, [DWORD] on Windows. *)
Definition ThreadID : Type := Z.

(** A pointer to an [RWLock]. *)
Definition RWLockPtr : Type := nat.

(** A thread [HANDLE] that is not [NULL]. *)
Definition HANDLE : Type := Z.

(** The pthreads calls used by the functions embedded here; each returns
    its [int] result and the next state of the operating system. *)
Class PosixThreads (OS : Type) : Type := {
  pthread_join : ThreadID -> OS -> Z * OS;
  pthread_rwlock_unlock : RWLockPtr -> OS -> Z * OS
}.

(** The Windows API calls of [thread_wait].  [OpenThread] returns [None] for
    a [NULL] handle; [WaitForSingleObject] returns its [DWORD] status. *)
Class WinThreads (OS : Type) : Type := {
  OpenThread : ThreadID -> OS -> option HANDLE * OS;
  WaitForSingleObject : HANDLE -> OS -> Z * OS;
  GetLastError : OS -> Z;
  CloseHandle : HANDLE -> OS -> OS
}.

(** The operating system next to the memory that holds the caller's
    [ThreadID] array; a [ThreadID *] is an index into [tids]. *)
Record world (OS : Type) : Type := World {
  os : OS;
  tids : list ThreadID
}.
Arguments World {OS} _ _.
Arguments os {OS} _.
Arguments tids {OS} _.

(** An operating system for examples: it answers the k-th join with the
    k-th code of [script] (0 when the script is used up), opens every thread
    but those in [unopenable], and remembers the calls it received. *)
Inductive oscall : Type :=
| Join (tid : ThreadID)
| Open (tid : ThreadID)
| Wait (h : HANDLE)
| Close (h : HANDLE)
| RWUnlock (rw : RWLockPtr).

Record scripted : Type := Scripted {
  script : list Z;
  unopenable : list ThreadID;
  last_error : Z;
  received : list oscall
}.

Definition scripted_next (c : oscall) (s : scripted) : Z * scripted :=
  (hd 0 (script s),
   {| script := tl (script s); unopenable := unopenable s;
      last_error := hd 0 (script s); received := received s ++ [c] |}).

#[export] Instance scripted_posix : PosixThreads scripted := {
  pthread_join tid s := scripted_next (Join tid) s;
  pthread_rwlock_unlock rw s := scripted_next (RWUnlock rw) s
}.

#[export] Instance scripted_win : WinThreads scripted := {
  OpenThread tid s :=
    if bool_decide (tid ∈ unopenable s)
    then (None, {| script := script s; unopenable := unopenable s;
                   last_error := 87; received := received s ++ [Open tid] |})
    else (Some tid, {| script := script s; unopenable := unopenable s;
                       last_error := last_error s;
                       received := received s ++ [Open tid] |});
  WaitForSingleObject h s := scripted_next (Wait h) s;
  GetLastError s := last_error s;
  CloseHandle h s :=
    {| script := script s; unopenable := unopenable s;
       last_error := last_error s; received := received s ++ [Close h] |}
}.

End ThreadOS.

(** ** [thread.c] and [mpthread.h]: threads and read/write locks *)

Module Thread.
Import CInt ThreadOS.

(** The four [thread_wait] of the repository. *)
Inductive build : Type :=
| ThreadC_Unix
| ThreadC_Windows
| MpThreadH_Posix
| MpThreadH_Windows.

Section Backends.
Context {OS : Type} `{!PosixThreads OS} `{!WinThreads OS}.

(** [thread.c], UNIX:
<<
   ecode = pthread_join( *threadid, NULL);
   *threadid = 0;
   return ecode;
>>
    [None]: the pointer is outside the array. *)
Definition thread_wait_unix (threadid : nat) (w : world OS) : option (Z * world OS) :=
  match tids w !! threadid with
  | None => None
  | Some tid =>
      let '(ecode, os1) := pthread_join tid (os w) in
      Some (ecode, World os1 (<[threadid := 0]> (tids w)))
  end.

(** [mpthread.h], POSIX:
    [#define thread_wait(tid)  pthread_join( *(tid),NULL)]. *)
Definition thread_wait_posix_macro (threadid : nat) (w : world OS)
  : option (Z * world OS) :=
  match tids w !! threadid with
  | None => None
  | Some tid =>
      let '(ecode, os1) := pthread_join tid (os w) in
      Some (ecode, World os1 (tids w))
  end.

(** [thread.c] and [mpthread.h], Windows:
<<
   int ecode = 0;
   hThread = OpenThread(SYNCHRONIZE, FALSE, *threadid);
   if(hThread == NULL)
      return GetLastError();
   if(WaitForSingleObject(hThread, INFINITE))
      ecode = GetLastError();
   CloseHandle(hThread);
   *threadid = 0;            (thread.c only: [clean = true])
   return ecode;
>> *)
Definition thread_wait_windows (clean : bool) (threadid : nat) (w : world OS)
  : option (Z * world OS) :=
  match tids w !! threadid with
  | None => None
  | Some tid =>
      match OpenThread tid (os w) with
      | (None, os1) => Some (wraps 32 (GetLastError os1), World os1 (tids w))
      | (Some hThread, os1) =>
          let '(status, os2) := WaitForSingleObject hThread os1 in
          let ecode := if status =? 0 then 0 else wraps 32 (GetLastError os2) in
          let os3 := CloseHandle hThread os2 in
          Some (ecode,
                World os3 (if clean then <[threadid := 0]> (tids w) else tids w))
      end
  end.

Definition thread_wait (b : build) : nat -> world OS -> option (Z * world OS) :=
  match b with
  | ThreadC_Unix => thread_wait_unix
  | ThreadC_Windows => thread_wait_windows true
  | MpThreadH_Posix => thread_wait_posix_macro
  | MpThreadH_Windows => thread_wait_windows false
  end.

(** [thread.c], UNIX: [return pthread_rwlock_unlock(rwlock);]
    [mpthread.h], POSIX: [#define rwlock_rdunlock(rwl)  pthread_rwlock_unlock(rwl)]. *)
Definition rwlock_rdunlock (rwlock : RWLockPtr) (o : OS) : Z * OS :=
  pthread_rwlock_unlock rwlock o.

(** [thread.c], UNIX: [return pthread_rwlock_unlock(rwlock);]
    [mpthread.h], POSIX: [#define rwlock_wrunlock(rwl)  pthread_rwlock_unlock(rwl)]. *)
Definition rwlock_wrunlock (rwlock : RWLockPtr) (o : OS) : Z * OS :=
  pthread_rwlock_unlock rwlock o.

End Backends.

Section Multiwait.
Context {St : Type}.
(** The [thread_wait] the translation unit is compiled against. *)
Variable thread_wait : nat -> St -> option (Z * St).

(** The loop of [thread_multiwait], from the test [i < len] on:
<<
   for(i = 0; i < len; i++) {
      temp = thread_wait(&tidlist[i]);
      if(temp && !ecode)
         ecode = temp;
   }
   return ecode;
>> *)
Fixpoint multiwait_loop (fuel : nat) (tidlist : nat) (len i ecode : Z) (w : St)
  : option (Z * St) :=
  match fuel with
  | O => None
  | S fuel' =>
      if i <? len then
        match thread_wait (tidlist + Z.to_nat i)%nat w with
        | None => None
        | Some (temp, w1) =>
            let ecode1 :=
              if negb (temp =? 0) && (ecode =? 0) then temp else ecode in
            multiwait_loop fuel' tidlist len (wraps 32 (i + 1)) ecode1 w1
        end
      else Some (ecode, w)
  end.

(** [int thread_multiwait(ThreadID *tidlist, int len)], [i] and [len] being
    [int] of 32 bits; the loop runs [len] times and tests once more. *)
Definition thread_multiwait (tidlist : nat) (len : Z) (w : St) : option (Z * St) :=
  multiwait_loop (S (Z.to_nat len)) tidlist len 0 0 w.

(** Joining the handles at the pointers [ps] one after the other and keeping
    every result: what [thread_multiwait] is compared with. *)
Fixpoint wait_each (ps : list nat) (w : St) : option (list Z * St) :=
  match ps with
  | [] => Some ([], w)
  | p :: ps' =>
      match thread_wait p w with
      | None => None
      | Some (e, w1) =>
          match wait_each ps' w1 with
          | None => None
          | Some (es, w2) => Some (e :: es, w2)
          end
      end
  end.

End Multiwait.

(** What the loop leaves in [ecode] after the results [codes], starting
    from [ecode]: [if(temp && !ecode) ecode = temp;] for each of them. *)
Definition first_error (ecode : Z) (codes : list Z) : Z :=
  fold_left
    (fun acc temp => if negb (temp =? 0) && (acc =? 0) then temp else acc)
    codes ecode.

(** [thread_wait] with a record of the pointers it was called with. *)
Definition counted {St : Type} (thread_wait : nat -> St -> option (Z * St))
  (p : nat) (wl : St * list nat) : option (Z * (St * list nat)) :=
  match thread_wait p (fst wl) with
  | None => None
  | Some (e, w1) => Some (e, (w1, snd wl ++ [p]))
  end.

(** Four thread ids whose joins answer 0, 5, 0 and 7. *)
Definition four_threads : world scripted :=
  World (Scripted [0; 5; 0; 7] [] 0 []) [11; 12; 13; 14].

(** A thread id that [OpenThread] does not open: no thread 1234 exists. *)
Definition no_such_thread : world scripted :=
  World (Scripted [] [1234] 0 []) [1234].

End Thread.

(** ** The Windows [Mutex] of [thread.c] and [mpthread.h]

    Threads run the mutex functions one atomic step at a time; a step is one
    access to shared memory or one Windows API call. *)

Module WinMutex.

(** A [CRITICAL_SECTION], as far as the mutex functions can tell: whether
    it is initialized, its owner and recursion depth, and how many times
    [InitializeCriticalSection] ran on it. *)
Record CRITICAL_SECTION : Type := CS {
  cs_valid : bool;
  cs_owner : option nat;
  cs_depth : nat;
  cs_inits : nat
}.

Definition InitializeCriticalSection (cs : CRITICAL_SECTION) : CRITICAL_SECTION :=
  {| cs_valid := true; cs_owner := None; cs_depth := 0%nat;
     cs_inits := S (cs_inits cs) |}.

(** [None]: another thread owns the section and the caller keeps waiting. *)
Definition EnterCriticalSection (t : nat) (cs : CRITICAL_SECTION)
  : option CRITICAL_SECTION :=
  match cs_owner cs with
  | None =>
      Some {| cs_valid := cs_valid cs; cs_owner := Some t; cs_depth := 1%nat;
              cs_inits := cs_inits cs |}
  | Some o =>
      if (o =? t)%nat
      then Some {| cs_valid := cs_valid cs; cs_owner := Some t;
                   cs_depth := S (cs_depth cs); cs_inits := cs_inits cs |}
      else None
  end.

Definition LeaveCriticalSection (cs : CRITICAL_SECTION) : CRITICAL_SECTION :=
  match cs_depth cs with
  | S (S d) =>
      {| cs_valid := cs_valid cs; cs_owner := cs_owner cs; cs_depth := S d;
         cs_inits := cs_inits cs |}
  | _ =>
      {| cs_valid := cs_valid cs; cs_owner := None; cs_depth := 0%nat;
         cs_inits := cs_inits cs |}
  end.

Definition DeleteCriticalSection (cs : CRITICAL_SECTION) : CRITICAL_SECTION :=
  {| cs_valid := false; cs_owner := None; cs_depth := 0%nat;
     cs_inits := cs_inits cs |}.

(** [typedef struct { CRITICAL_SECTION lock; volatile unsigned char init; } Mutex;] *)
Record Mutex : Type := MkMutex {
  lock : CRITICAL_SECTION;
  init : Z
}.

(** [#define MUTEX_INITIALIZER  {0}] *)
Definition MUTEX_INITIALIZER : Mutex :=
  {| lock := {| cs_valid := false; cs_owner := None; cs_depth := 0%nat;
                cs_inits := 0%nat |};
     init := 0 |}.

(** A call of one of the four mutex functions on the [Mutex] at pointer [m];
    [Mutex_end] is [mutex_end] of [thread.c] and [mutex_free] of
    [mpthread.h]. *)
Inductive call : Type :=
| Mutex_init (m : nat)
| Mutex_lock (m : nat)
| Mutex_unlock (m : nat)
| Mutex_end (m : nat).

Definition mutex_of (c : call) : nat :=
  match c with
  | Mutex_init m | Mutex_lock m | Mutex_unlock m | Mutex_end m => m
  end.

(** Where a thread stands: the next statement it will run. *)
Inductive pc : Type :=
| Idle          (* between calls *)
| InitCS        (* mutex_init:   InitializeCriticalSection(&mutex->lock); *)
| InitSet       (* mutex_init:   mutex->init = 1; return 0; *)
| LockTest      (* mutex_lock:   if(!mutex->init) { *)
| LockSpin      (* mutex_lock:   while(InterlockedCompareExchange(&initlock, 1, 0)); *)
| LockRetest    (* mutex_lock:   if(!mutex->init) { *)
| LockInitCS    (* mutex_lock:   InitializeCriticalSection(&mutex->lock); *)
| LockSetInit   (* mutex_lock:   mutex->init = 1; } *)
| LockRelease   (* mutex_lock:   initlock = 0; } *)
| LockEnter     (* mutex_lock:   EnterCriticalSection(&mutex->lock); return 0; *)
| UnlockLeave   (* mutex_unlock: LeaveCriticalSection(&mutex->lock); return 0; *)
| EndDelete     (* mutex_end:    DeleteCriticalSection(&mutex->lock); *)
| EndClear.     (* mutex_end:    mutex->init = 0; return 0; *)

(** A thread: its place, the [Mutex *] argument of the call in progress, the
    calls still to make, and the calls that returned with their results. *)
Record thread : Type := Thread {
  at_pc : pc;
  arg : nat;
  todo : list call;
  returned : list (call * Z)
}.

(** Shared memory: [initlock], the [static volatile LONG] of [mutex_lock]
    (one for all mutexes), the mutexes, and the threads. *)
Record state : Type := State {
  initlock : Z;
  mutexes : list Mutex;
  threads : list thread
}.

Definition goto (p : pc) (th : thread) : thread :=
  {| at_pc := p; arg := arg th; todo := todo th; returned := returned th |}.

(** [return r;] from the call [c]. *)
Definition ret (c : call) (r : Z) (th : thread) : thread :=
  {| at_pc := Idle; arg := arg th; todo := todo th;
     returned := returned th ++ [(c, r)] |}.

Definition entry (c : call) : pc :=
  match c with
  | Mutex_init _ => InitCS
  | Mutex_lock _ => LockTest
  | Mutex_unlock _ => UnlockLeave
  | Mutex_end _ => EndDelete
  end.

Definition with_lock (cs : CRITICAL_SECTION) (mx : Mutex) : Mutex :=
  {| lock := cs; init := init mx |}.

Definition with_init (v : Z) (mx : Mutex) : Mutex :=
  {| lock := lock mx; init := v |}.

(** One statement of thread [t], standing at [at_pc th] inside a call on the
    mutex [mx], with [il] the value of [initlock]. *)
Definition exec (t : nat) (th : thread) (il : Z) (mx : Mutex)
  : thread * Z * Mutex :=
  match at_pc th with
  | Idle => (th, il, mx)
  | InitCS => (goto InitSet th, il, with_lock (InitializeCriticalSection (lock mx)) mx)
  | InitSet => (ret (Mutex_init (arg th)) 0 th, il, with_init 1 mx)
  | LockTest =>
      if init mx =? 0 then (goto LockSpin th, il, mx)
      else (goto LockEnter th, il, mx)
  | LockSpin =>
      (* InterlockedCompareExchange returns the old value and stores 1
         when the old value is 0 *)
      if il =? 0 then (goto LockRetest th, 1, mx)
      else (th, il, mx)
  | LockRetest =>
      if init mx =? 0 then (goto LockInitCS th, il, mx)
      else (goto LockRelease th, il, mx)
  | LockInitCS =>
      (goto LockSetInit th, il, with_lock (InitializeCriticalSection (lock mx)) mx)
  | LockSetInit => (goto LockRelease th, il, with_init 1 mx)
  | LockRelease => (goto LockEnter th, 0, mx)
  | LockEnter =>
      match EnterCriticalSection t (lock mx) with
      | Some cs => (ret (Mutex_lock (arg th)) 0 th, il, with_lock cs mx)
      | None => (th, il, mx)
      end
  | UnlockLeave =>
      (ret (Mutex_unlock (arg th)) 0 th, il,
       with_lock (LeaveCriticalSection (lock mx)) mx)
  | EndDelete => (goto EndClear th, il, with_lock (DeleteCriticalSection (lock mx)) mx)
  | EndClear => (ret (Mutex_end (arg th)) 0 th, il, with_init 0 mx)
  end.

(** Thread [t] takes its next call from [todo]. *)
Definition start (th : thread) : thread :=
  match todo th with
  | [] => th
  | c :: rest =>
      {| at_pc := entry c; arg := mutex_of c; todo := rest;
         returned := returned th |}
  end.

(** One step of thread [t].  A thread number or a [Mutex *] that points
    nowhere changes nothing. *)
Definition step (t : nat) (s : state) : state :=
  match threads s !! t with
  | None => s
  | Some th =>
      match at_pc th with
      | Idle =>
          {| initlock := initlock s; mutexes := mutexes s;
             threads := <[t := start th]> (threads s) |}
      | _ =>
          match mutexes s !! arg th with
          | None => s
          | Some mx =>
              let '(th1, il1, mx1) := exec t th (initlock s) mx in
              {| initlock := il1;
                 mutexes := <[arg th := mx1]> (mutexes s);
                 threads := <[t := th1]> (threads s) |}
          end
      end
  end.

(** The execution that the schedule [sched] picks. *)
Definition run (sched : list nat) (s : state) : state :=
  fold_left (fun s t => step t s) sched s.

Definition new_thread (calls : list call) : thread :=
  {| at_pc := Idle; arg := 0%nat; todo := calls; returned := [] |}.

(** [n] mutexes declared with [MUTEX_INITIALIZER], [initlock] at its static
    0, and one thread for each list of calls. *)
Definition boot (n : nat) (scripts : list (list call)) : state :=
  {| initlock := 0;
     mutexes := replicate n MUTEX_INITIALIZER;
     threads := map new_thread scripts |}.

(** The statements between winning [initlock] and releasing it. *)
Definition gated (p : pc) : bool :=
  match p with
  | LockRetest | LockInitCS | LockSetInit | LockRelease => true
  | _ => false
  end.

Definition locks_only (c : call) : bool :=
  match c with
  | Mutex_lock _ | Mutex_unlock _ => true
  | _ => false
  end.

(** The statements of [mutex_lock] and [mutex_unlock]. *)
Definition lock_pc (p : pc) : bool :=
  match p with
  | InitCS | InitSet | EndDelete | EndClear => false
  | _ => true
  end.

(** What holds in every state that threads calling only [mutex_lock] and
    [mutex_unlock] reach from [boot]. *)
Record Inv (s : state) : Prop := {
  (* initlock is 0 or 1 *)
  inv_gate_val : initlock s = 0 \/ initlock s = 1;
  (* nobody is past the gate while it is free *)
  inv_gate_free : forall i th,
    initlock s = 0 -> threads s !! i = Some th -> gated (at_pc th) = false;
  (* at most one thread is past the gate *)
  inv_gate_one : forall i j thi thj,
    threads s !! i = Some thi -> threads s !! j = Some thj ->
    gated (at_pc thi) = true -> gated (at_pc thj) = true -> i = j;
  (* threads only lock and unlock *)
  inv_scripts : forall i th,
    threads s !! i = Some th ->
    lock_pc (at_pc th) = true /\ Forall (fun c => locks_only c = true) (todo th);
  (* a set flag: initialized, once *)
  inv_init_set : forall m mx,
    mutexes s !! m = Some mx -> init mx <> 0 ->
    cs_inits (lock mx) = 1%nat /\ cs_valid (lock mx) = true;
  (* an unset flag: not initialized, or the initializer is about to set it *)
  inv_init_unset : forall m mx,
    mutexes s !! m = Some mx -> init mx = 0 ->
    cs_inits (lock mx) = 0%nat
    \/ exists i th, threads s !! i = Some th /\ at_pc th = LockSetInit /\ arg th = m;
  (* an owned section belongs to a mutex whose flag is set *)
  inv_owner : forall m mx,
    mutexes s !! m = Some mx -> cs_owner (lock mx) <> None -> init mx <> 0;
  inv_at_initcs : forall i th mx,
    threads s !! i = Some th -> mutexes s !! arg th = Some mx ->
    at_pc th = LockInitCS -> init mx = 0 /\ cs_inits (lock mx) = 0%nat;
  inv_at_setinit : forall i th mx,
    threads s !! i = Some th -> mutexes s !! arg th = Some mx ->
    at_pc th = LockSetInit ->
    init mx = 0 /\ cs_inits (lock mx) = 1%nat /\ cs_valid (lock mx) = true;
  inv_at_enter : forall i th mx,
    threads s !! i = Some th -> mutexes s !! arg th = Some mx ->
    at_pc th = LockRelease \/ at_pc th = LockEnter -> init mx <> 0;
  (* a mutex_lock that returned left the flag set *)
  inv_returned : forall i th m r mx,
    threads s !! i = Some th -> (Mutex_lock m, r) ∈ returned th ->
    mutexes s !! m = Some mx -> init mx <> 0
}.

#[export] Instance pc_eq_dec : EqDecision pc.
Proof. solve_decision. Defined.

(** One step of thread [t] seen from the thread alone: its own record, the
    value of [initlock] and the one mutex it works on. *)
Definition local (t : nat) (x : thread * Z * Mutex) : thread * Z * Mutex :=
  match at_pc (fst (fst x)) with
  | Idle => (start (fst (fst x)), snd (fst x), snd x)
  | _ => exec t (fst (fst x)) (snd (fst x)) (snd x)
  end.

(** Every call thread [th] makes or has in progress is on the mutex [m]. *)
Definition on_mutex (m : nat) (th : thread) : Prop :=
  Forall (fun c => mutex_of c = m) (todo th) /\ (at_pc th = Idle \/ arg th = m).

(** Every call that returned so far returned 0. *)
Definition all_zero (s : state) : Prop :=
  forall i th, threads s !! i = Some th ->
               Forall (fun cr : call * Z => cr.2 = 0) (returned th).

(** Two threads that lock and unlock the same static mutex, and a schedule
    in which both find the flag unset before either initializes. *)
Definition two_lockers : list (list call) :=
  [[Mutex_lock 0%nat; Mutex_unlock 0%nat]; [Mutex_lock 0%nat; Mutex_unlock 0%nat]].

Definition racing_schedule : list nat :=
  [0; 1; 0; 1; 0; 1; 0; 1; 0; 1; 0; 0; 0; 1; 1; 1; 0; 0; 1; 1; 1; 1; 1; 1]%nat.

(** A mutex after [mutex_init], and a thread about to destroy it and lock it
    again. *)
Definition initialized_mutex : Mutex :=
  {| lock := {| cs_valid := true; cs_owner := None; cs_depth := 0%nat;
                cs_inits := 1%nat |};
     init := 1 |}.

Definition end_then_lock : state :=
  {| initlock := 0;
     mutexes := [initialized_mutex];
     threads := [new_thread [Mutex_end 0%nat; Mutex_lock 0%nat]] |}.

End WinMutex.

(** ** The Windows time stamps of [time.c] *)

Module TimeCWin.
Import CInt.

Definition MILLISECONDS : Z := 1000.
Definition MICROSECONDS : Z := 1000000.

(** [static LARGE_INTEGER Freq_timec;] and the two queries of the
    performance counter: its frequency and its current count. *)
Record perf : Type := Perf {
  Freq_timec : Z;
  qp_frequency : Z;
  qp_counter : Z
}.

(** [if(Freq_timec.QuadPart == 0) QueryPerformanceFrequency(&Freq_timec);] *)
Definition acquire_frequency (p : perf) : perf :=
  if Freq_timec p =? 0
  then {| Freq_timec := qp_frequency p; qp_frequency := qp_frequency p;
          qp_counter := qp_counter p |}
  else p.

(** [return (uint64_t) ((count.QuadPart * MILLISECONDS) / Freq_timec.QuadPart);]
    with [QuadPart] a signed 64-bit integer. *)
Definition milliseconds (p : perf) : Z * perf :=
  let p1 := acquire_frequency p in
  (wrapu 64 (Z.quot (wraps 64 (qp_counter p1 * MILLISECONDS)) (Freq_timec p1)), p1).

Definition microseconds (p : perf) : Z * perf :=
  let p1 := acquire_frequency p in
  (wrapu 64 (Z.quot (wraps 64 (qp_counter p1 * MICROSECONDS)) (Freq_timec p1)), p1).

(** A 10 MHz performance counter, its frequency not yet acquired. *)
Definition perf_10mhz (count : Z) : perf :=
  {| Freq_timec := 0; qp_frequency := 10000000; qp_counter := count |}.

End TimeCWin.

(** ** The test program [mptest.c] *)

Module Mptest.
Import CInt.

(** [#define WITHIN_TOLERANCE(v,e,t)  ( v > (e - t) && v < (e + t) )] on the
    [uint64_t] results and expectations of the timing tests. *)
Definition WITHIN_TOLERANCE (v e t : Z) : bool :=
  (wrapu 64 (e - t) <? v) && (v <? wrapu 64 (e + t)).

End Mptest.

(** ** Threads that pair [mutex_lock] with [mutex_unlock] *)

Module MutexUse.
Import WinMutex.

(** Calls that come in pairs: [mutex_lock(m); mutex_unlock(m);] repeated. *)
Fixpoint paired (cs : list call) : bool :=
  match cs with
  | [] => true
  | Mutex_lock m :: Mutex_unlock m' :: rest => (m =? m')%nat && paired rest
  | _ => false
  end.

(** The mutex a thread is inside of: its [mutex_lock] has returned and its
    [mutex_unlock] has not yet left the section. *)
Definition holding (th : thread) : option nat :=
  match at_pc th with
  | Idle =>
      match todo th with
      | Mutex_unlock m :: _ => Some m
      | _ => None
      end
  | UnlockLeave => Some (arg th)
  | _ => None
  end.

(** Where a thread of paired calls can stand. *)
Definition shape (th : thread) : Prop :=
  match at_pc th with
  | Idle =>
      paired (todo th) = true
      \/ exists m rest, todo th = Mutex_unlock m :: rest /\ paired rest = true
  | UnlockLeave => paired (todo th) = true
  | LockTest | LockSpin | LockRetest | LockInitCS | LockSetInit | LockRelease
  | LockEnter =>
      exists rest, todo th = Mutex_unlock (arg th) :: rest /\ paired rest = true
  | _ => False
  end.

Record Excl (s : state) : Prop := {
  excl_shape : forall t th, threads s !! t = Some th -> shape th;
  excl_holder : forall t th m,
    threads s !! t = Some th -> holding th = Some m ->
    exists mx, mutexes s !! m = Some mx
               /\ cs_owner (lock mx) = Some t /\ cs_depth (lock mx) = 1%nat;
  excl_owner : forall m mx o,
    mutexes s !! m = Some mx -> cs_owner (lock mx) = Some o ->
    exists th, threads s !! o = Some th /\ holding th = Some m
}.

(** A thread with no call in progress and none left. *)
Definition finished (th : thread) : Prop := at_pc th = Idle /\ todo th = [].

(** What keeps the threads from all waiting: a taken [initlock] has a
    thread behind it, and every [Mutex *] points to a mutex. *)
Record Live (s : state) : Prop := {
  live_gate : initlock s = 1 ->
    exists i th, threads s !! i = Some th /\ gated (at_pc th) = true;
  live_ptr : forall t th,
    threads s !! t = Some th ->
    (at_pc th <> Idle -> (arg th < length (mutexes s))%nat)
    /\ Forall (fun c => (mutex_of c < length (mutexes s))%nat) (todo th)
}.

(** Statements left in a call standing at [p], the [return] included. *)
Definition rank (p : pc) : nat :=
  match p with
  | Idle => 0
  | InitCS => 2 | InitSet => 1
  | LockTest => 8 | LockSpin => 7 | LockRetest => 6 | LockInitCS => 5
  | LockSetInit => 4 | LockRelease => 3 | LockEnter => 2
  | UnlockLeave => 1
  | EndDelete => 2 | EndClear => 1
  end.

(** A bound on the steps thread [th] still takes when it never waits: 9 for
    each call to come, and the statements of the call in progress. *)
Definition thread_work (th : thread) : nat := rank (at_pc th) + 9 * length (todo th).

Definition work (s : state) : nat := sum_list_with thread_work (threads s).

End MutexUse.

(** ** The calls of a thread, in order *)

Module MutexCalls.
Import WinMutex.

(** The call a thread is in. *)
Definition in_progress (th : thread) : list call :=
  match at_pc th with
  | Idle => []
  | InitCS | InitSet => [Mutex_init (arg th)]
  | LockTest | LockSpin | LockRetest | LockInitCS | LockSetInit | LockRelease
  | LockEnter => [Mutex_lock (arg th)]
  | UnlockLeave => [Mutex_unlock (arg th)]
  | EndDelete | EndClear => [Mutex_end (arg th)]
  end.

(** The calls of a thread: those that returned, the one in progress, those
    to come. *)
Definition calls_of (th : thread) : list call :=
  (fst <$> returned th) ++ in_progress th ++ todo th.

(** A mutex right after its first [mutex_lock] by thread [t]. *)
Definition locked_once (t : nat) : Mutex :=
  {| lock := {| cs_valid := true; cs_owner := Some t; cs_depth := 1%nat;
                cs_inits := 1%nat |};
     init := 1 |}.

End MutexCalls.

(** ** Mutexes set up by [mutex_init] *)

Module MutexManual.
Import WinMutex.

(** The statements of [mutex_lock] and [mutex_unlock] outside the deferred
    initialization. *)
Definition plain (p : pc) : bool :=
  match p with
  | Idle | LockTest | LockEnter | UnlockLeave => true
  | _ => false
  end.

Definition inits_of (mxs : list Mutex) : list nat :=
  (fun mx => cs_inits (lock mx)) <$> mxs.

(** What holds while threads lock and unlock mutexes whose flag is set:
    [initlock] and the number of initializations stay as they were, and no
    thread enters the deferred initialization. *)
Record Direct (il : Z) (inits : list nat) (s : state) : Prop := {
  dir_gate : initlock s = il;
  dir_inits : inits_of (mutexes s) = inits;
  dir_flag : forall m mx, mutexes s !! m = Some mx -> init mx <> 0;
  dir_pc : forall t th,
    threads s !! t = Some th ->
    plain (at_pc th) = true /\ Forall (fun c => locks_only c = true) (todo th)
}.

(** One thread that initializes, locks, unlocks and destroys the mutex [m]. *)
Definition lifecycle (m : nat) : list call :=
  [Mutex_init m; Mutex_lock m; Mutex_unlock m; Mutex_end m].

(** Two threads on a mutex set up by [mutex_init], with [initlock] taken. *)
Definition gate_taken : state :=
  {| initlock := 1;
     mutexes := [initialized_mutex];
     threads := map new_thread two_lockers |}.

(** The same thread alone, on a mutex declared with [MUTEX_INITIALIZER],
    with [initlock] taken. *)
Definition alone_with_gate_taken : state :=
  {| initlock := 1;
     mutexes := [MUTEX_INITIALIZER];
     threads := [new_thread (lifecycle 0)] |}.

End MutexManual.

(** ** The thread function [mts_inc] of [mptest.c] *)

Module MtsInc.
Import CInt WinMutex MutexUse.

Definition ROUNDS : Z := 100000.
Definition THREADS : Z := 1000.
Definition COUNT : Z := 100000000.

(** What a thread running [mts_inc] keeps besides its mutex calls: the
    additions to [mts->count] it still has to make, and the value of
    [mts->count] it has read and not yet written back. *)
Record worker : Type := Worker {
  remaining : nat;
  loaded : option Z
}.

(** [mts_inc] with [lockmethod] 2, 3 or 4 adds to [mts->count] between
    [mutex_lock] and [mutex_unlock]: [ROUNDS] times 1 ([mts->count++] in the
    loop) for 2 and 3, once [i = ROUNDS] ([mts->count += i]) for 4. *)
Definition additions (lockmethod : Z) : nat * Z :=
  if lockmethod =? 4 then (1%nat, ROUNDS) else (Z.to_nat ROUNDS, 1).

(** The threads with their mutexes, and [mts->count], a [volatile int]. *)
Record shared : Type := Shared {
  mstate : state;
  count : Z;
  workers : list worker
}.

(** One step of thread [t]: inside the section with additions left it
    reads [mts->count] or writes the sum back; otherwise it takes a step of
    [mutex_lock] or [mutex_unlock]. *)
Definition mts_step (d : Z) (t : nat) (c : shared) : shared :=
  match threads (mstate c) !! t, workers c !! t with
  | Some th, Some wk =>
      match holding th, at_pc th, remaining wk with
      | Some _, Idle, S k =>
          match loaded wk with
          | None =>
              {| mstate := mstate c; count := count c;
                 workers := <[t := {| remaining := S k; loaded := Some (count c) |}]>
                              (workers c) |}
          | Some r =>
              {| mstate := mstate c; count := wraps 32 (r + d);
                 workers := <[t := {| remaining := k; loaded := None |}]>
                              (workers c) |}
          end
      | _, _, _ =>
          {| mstate := step t (mstate c); count := count c; workers := workers c |}
      end
  | _, _ => c
  end.

Definition mts_run (d : Z) (sched : list nat) (c : shared) : shared :=
  fold_left (fun c t => mts_step d t c) sched c.

(** A mutex nobody holds: declared with [MUTEX_INITIALIZER] and not locked
    yet (the [mutex_static] of the test), or initialized, by [mutex_init]
    or by an earlier [mutex_lock]. *)
Definition idle_mutex (mx : Mutex) : Prop :=
  mx = MUTEX_INITIALIZER \/ mx = initialized_mutex.

(** [N] threads created on [mts_inc] with [mts->mutexlock] the mutex [m] of
    [mxs] and [mts->count = 0]. *)
Definition mts_boot (mxs : list Mutex) (N : nat) (m : nat) (K : nat) : shared :=
  {| mstate := {| initlock := 0; mutexes := mxs;
                  threads := replicate N (new_thread [Mutex_lock m; Mutex_unlock m]) |};
     count := 0;
     workers := replicate N {| remaining := K; loaded := None |} |}.

(** The additions made so far. *)
Definition made (K : nat) (ws : list worker) : nat :=
  sum_list_with (fun wk => K - remaining wk)%nat ws.

Record Counted (d : Z) (K m : nat) (c : shared) : Prop := {
  cnt_inv : Inv (mstate c);
  cnt_excl : Excl (mstate c);
  cnt_len : length (workers c) = length (threads (mstate c));
  cnt_le : forall t wk, workers c !! t = Some wk -> (remaining wk <= K)%nat;
  cnt_sum : count c = d * Z.of_nat (made K (workers c));
  cnt_loaded : forall t wk th r,
    workers c !! t = Some wk -> threads (mstate c) !! t = Some th ->
    loaded wk = Some r ->
    r = count c /\ is_Some (holding th) /\ at_pc th = Idle /\ (0 < remaining wk)%nat;
  cnt_done : forall t wk th,
    workers c !! t = Some wk -> threads (mstate c) !! t = Some th ->
    at_pc th = UnlockLeave \/ todo th = [] -> remaining wk = 0%nat;
  cnt_mutex : forall t th,
    threads (mstate c) !! t = Some th -> on_mutex m th
}.

(** A bound on the steps a thread still takes between [mutex_lock] and
    [mutex_unlock] in [mts_inc]: a read and a write for each addition. *)
Definition worker_work (wk : worker) : nat :=
  (2 * remaining wk - match loaded wk with Some _ => 1 | None => 0 end)%nat.

Definition mts_work (c : shared) : nat :=
  (work (mstate c) + sum_list_with worker_work (workers c))%nat.

(** Two threads, one after the other: [mutex_lock] with the deferred
    initialization, the addition, [mutex_unlock]; then the same without the
    initialization. *)
Definition one_by_one : list nat := (replicate 12 0 ++ replicate 7 1)%nat.

End MtsInc.

(** ** The read/write lock test of [mptest.c]

    [rws_wrload] in a thread of its own and the read loop of [main], one
    statement at a time.  The lock is the one of the operating system: a
    writer excludes everybody else, readers exclude a writer. *)

Module RwsTest.
Import CInt.

Definition COUNT : Z := 100000000.

(** A read/write lock ([SRWLOCK], [pthread_rwlock_t]) as far as its callers
    can tell: held by a writer, or by a number of readers. *)
Record RWLock : Type := RW {
  writer : bool;
  readers : nat
}.

Definition RWLOCK_INITIALIZER : RWLock := {| writer := false; readers := 0 |}.

(** [rwlock_wrlock]: exclusive mode; [None]: the caller keeps waiting. *)
Definition rwlock_wrlock (l : RWLock) : option RWLock :=
  if writer l || negb (readers l =? 0)%nat then None
  else Some {| writer := true; readers := 0 |}.

(** [rwlock_rdlock]: shared mode. *)
Definition rwlock_rdlock (l : RWLock) : option RWLock :=
  if writer l then None
  else Some {| writer := false; readers := S (readers l) |}.

Definition rwlock_wrunlock (l : RWLock) : RWLock :=
  {| writer := false; readers := readers l |}.

Definition rwlock_rdunlock (l : RWLock) : RWLock :=
  {| writer := writer l; readers := Nat.pred (readers l) |}.

(** Where the thread of [rws_wrload] stands. *)
Inductive wr_pc : Type :=
| WrLock            (* rwlock_wrlock((RWLock * ) rws->lock); *)
| WrTest            (* while(rws->count < COUNT) *)
| WrLoad            (* rws->count++: the read *)
| WrStore (r : Z)   (* rws->count++: the write *)
| WrUnlock          (* rwlock_wrunlock((RWLock * ) rws->lock); *)
| WrReturn.         (* return Treturn; *)

(** Where [main] stands in its read loop. *)
Inductive rd_pc : Type :=
| RdTest            (* for(res = 0; res == 0; ) *)
| RdLock            (* rwlock_rdlock((RWLock * ) rws.lock); *)
| RdRead            (* res = rws.count; *)
| RdUnlock          (* rwlock_rdunlock((RWLock * ) rws.lock); *)
| RdWait            (* thread_wait(threadlist); *)
| RdCheck.          (* if(res == COUNT) *)

Inductive who : Type := Writer | Main.

#[export] Instance rd_pc_eq_dec : EqDecision rd_pc.
Proof. solve_decision. Defined.

Record state : Type := State {
  rwl : RWLock;
  count : Z;       (* rws.count, a volatile int *)
  wr : wr_pc;
  rd : rd_pc;
  res : Z          (* the int res of main *)
}.

Definition step (w : who) (s : state) : state :=
  match w with
  | Writer =>
      match wr s with
      | WrLock =>
          match rwlock_wrlock (rwl s) with
          | Some l => {| rwl := l; count := count s; wr := WrTest; rd := rd s;
                         res := res s |}
          | None => s
          end
      | WrTest =>
          {| rwl := rwl s; count := count s;
             wr := if count s <? COUNT then WrLoad else WrUnlock;
             rd := rd s; res := res s |}
      | WrLoad =>
          {| rwl := rwl s; count := count s; wr := WrStore (count s); rd := rd s;
             res := res s |}
      | WrStore r =>
          {| rwl := rwl s; count := wraps 32 (r + 1); wr := WrTest; rd := rd s;
             res := res s |}
      | WrUnlock =>
          {| rwl := rwlock_wrunlock (rwl s); count := count s; wr := WrReturn;
             rd := rd s; res := res s |}
      | WrReturn => s
      end
  | Main =>
      match rd s with
      | RdTest =>
          {| rwl := rwl s; count := count s; wr := wr s;
             rd := if res s =? 0 then RdLock else RdWait; res := res s |}
      | RdLock =>
          match rwlock_rdlock (rwl s) with
          | Some l => {| rwl := l; count := count s; wr := wr s; rd := RdRead;
                         res := res s |}
          | None => s
          end
      | RdRead =>
          {| rwl := rwl s; count := count s; wr := wr s; rd := RdUnlock;
             res := count s |}
      | RdUnlock =>
          {| rwl := rwlock_rdunlock (rwl s); count := count s; wr := wr s;
             rd := RdTest; res := res s |}
      | RdWait =>
          (* the join returns once the thread has returned *)
          match wr s with
          | WrReturn => {| rwl := rwl s; count := count s; wr := wr s; rd := RdCheck;
                           res := res s |}
          | _ => s
          end
      | RdCheck => s
      end
  end.

Definition run (sched : list who) (s : state) : state :=
  fold_left (fun s w => step w s) sched s.

(** [rws.count = 0;], the lock free, the thread created, [res = 0]. *)
Definition boot : state :=
  {| rwl := RWLOCK_INITIALIZER; count := 0; wr := WrLock; rd := RdTest; res := 0 |}.

Definition wr_holds (p : wr_pc) : bool :=
  match p with
  | WrTest | WrLoad | WrStore _ | WrUnlock => true
  | _ => false
  end.

Definition rd_holds (p : rd_pc) : bool :=
  match p with
  | RdRead | RdUnlock => true
  | _ => false
  end.

Definition Inv (s : state) : Prop :=
  writer (rwl s) = wr_holds (wr s)
  /\ readers (rwl s) = (if rd_holds (rd s) then 1 else 0)%nat
  /\ (wr_holds (wr s) = true -> rd_holds (rd s) = false)
  /\ 0 <= count s <= COUNT
  /\ match wr s with
     | WrLock => count s = 0
     | WrTest => True
     | WrLoad => count s < COUNT
     | WrStore r => r = count s /\ count s < COUNT
     | WrUnlock | WrReturn => count s = COUNT
     end
  /\ (res s = 0 \/ res s = COUNT)
  /\ match rd s with
     | RdUnlock => res s = count s
     | RdWait => res s = COUNT
     | RdCheck => res s = COUNT /\ wr s = WrReturn
     | _ => True
     end.

(** The steps one thread still takes when it never waits. *)
Definition writer_work (s : state) : Z :=
  match wr s with
  | WrLock => 3 * COUNT + 3
  | WrTest => 3 * (COUNT - count s) + 2
  | WrLoad => 3 * (COUNT - count s) + 1
  | WrStore _ => 3 * (COUNT - count s)
  | WrUnlock => 1
  | WrReturn => 0
  end.

Definition main_work (s : state) : Z :=
  match rd s with
  | RdTest => if res s =? 0 then 6 else 2
  | RdLock => 5
  | RdRead => 4
  | RdUnlock => 3
  | RdWait => 1
  | RdCheck => 0
  end
  + (* a round of the loop that ends before the thread has returned is
       followed by another one *)
    match wr s with
    | WrReturn => 0
    | _ => if rd_holds (rd s) then 7 else 0
    end.

Definition work (s : state) : Z := writer_work s + main_work s.

(** Who steps next so that the test ends: [main] leaves the lock when it
    holds it, then [rws_wrload] runs to its end, then [main]. *)
Definition next (s : state) : who :=
  if rd_holds (rd s) then Main
  else match wr s with
       | WrReturn => Main
       | _ => Writer
       end.

End RwsTest.

(** ** The timing test of [mptest.c] *)

Module TimingTest.
Import CInt Clock Mptest.

Definition MILLITEST_PRECISION : Z := 1.
Definition MICROTEST_PRECISION : Z := 10.

(** [mstart] and [mexpected], or [ustart] and [uexpected]: two [uint64_t]. *)
Record timing : Type := Timing {
  tstart : Z;
  texpected : Z
}.

(** The head of round [i] of the timing loop for the stamps of unit [U]
    ([MILLISECONDS] or [MICROSECONDS]):
<<
   if(i == 5) {
      mstart += 10 * MILLISECONDS;
      mexpected -= 9 * MILLISECONDS;
   } else {
      mexpected += MILLISECONDS;
   }
>> *)
Definition adjust (U i : Z) (x : timing) : timing :=
  if i =? 5
  then {| tstart := wrapu 64 (tstart x + 10 * U);
          texpected := wrapu 64 (texpected x - 9 * U) |}
  else {| tstart := tstart x; texpected := wrapu 64 (texpected x + U) |}.

(** The two variables when round [i] makes its check: the heads of the
    rounds 1 to [i] have run (round 3 has a head and no check). *)
Definition at_round (U : Z) (i : nat) (x : timing) : timing :=
  fold_left (fun x j => adjust U (Z.of_nat j) x) (seq 1 i) x.

(** [mresult = millielapsed(mstart);
    if(WITHIN_TOLERANCE(mresult, mexpected, MILLITEST_PRECISION))] *)
Definition milli_passes (c : clocks) (x : timing) : bool :=
  WITHIN_TOLERANCE (TimeC.millielapsed c (tstart x)) (texpected x) MILLITEST_PRECISION.

(** [uresult = microelapsed(ustart);
    if(WITHIN_TOLERANCE(uresult, uexpected, MICROTEST_PRECISION))] *)
Definition micro_passes (c : clocks) (x : timing) : bool :=
  WITHIN_TOLERANCE (TimeC.microelapsed c (tstart x)) (texpected x) MICROTEST_PRECISION.

End TimingTest.

(** * Properties *)

(** ** C integer arithmetic *)

(** Linear arithmetic with the divisions by constants spelled out. *)
Ltac lia_div := Z.div_mod_to_equations; lia.

Section CIntFacts.
Import CInt.

Lemma pow2_half (w : Z) : 0 < w -> 2 ^ w = 2 * 2 ^ (w - 1).
Proof.
  intros Hw. replace w with (Z.succ (w - 1)) at 1 by lia.
  apply Z.pow_succ_r. lia.
Qed.

Lemma pow2_pos (w : Z) : 0 <= w -> 0 < 2 ^ w.
Proof. intros Hw. apply Z.pow_pos_nonneg; lia. Qed.

Lemma pow2_ge_32 (w : Z) : 32 <= w -> 4294967296 <= 2 ^ w /\ 2147483648 <= 2 ^ (w - 1).
Proof.
  intros Hw. split.
  - change 4294967296 with (2 ^ 32). apply Z.pow_le_mono_r; lia.
  - change 2147483648 with (2 ^ 31). apply Z.pow_le_mono_r; lia.
Qed.

Lemma wrapu_small (w x : Z) : 0 <= x < 2 ^ w -> wrapu w x = x.
Proof. intros Hx. unfold wrapu. apply Z.mod_small. exact Hx. Qed.

Lemma wrapu_range (w x : Z) : 0 <= w -> 0 <= wrapu w x < 2 ^ w.
Proof. intros Hw. unfold wrapu. apply Z.mod_pos_bound. apply pow2_pos. exact Hw. Qed.

Lemma wraps_small (w x : Z) :
  0 < w -> - 2 ^ (w - 1) <= x < 2 ^ (w - 1) -> wraps w x = x.
Proof.
  intros Hw Hx. unfold wraps. rewrite (pow2_half w Hw).
  rewrite Z.mod_small; lia.
Qed.

Lemma wraps_range (w x : Z) : 0 < w -> - 2 ^ (w - 1) <= wraps w x < 2 ^ (w - 1).
Proof.
  intros Hw. unfold wraps.
  assert (Hp : 0 < 2 ^ w) by (apply pow2_pos; lia).
  pose proof (Z.mod_pos_bound (x + 2 ^ (w - 1)) (2 ^ w) Hp) as Hb.
  pose proof (pow2_half w Hw) as Hh. lia.
Qed.

(** Converting a signed value back to unsigned forgets the signed wrap. *)
Lemma wrapu_sub_wraps (w a b : Z) : wrapu w (a - wraps w b) = wrapu w (a - b).
Proof.
  unfold wrapu, wraps.
  replace (a - ((b + 2 ^ (w - 1)) mod 2 ^ w - 2 ^ (w - 1)))
    with (a + 2 ^ (w - 1) - (b + 2 ^ (w - 1)) mod 2 ^ w) by lia.
  rewrite Zminus_mod_idemp_r. f_equal. lia.
Qed.

Lemma wrapu_add_back (w a s : Z) :
  0 <= w -> 0 <= a < 2 ^ w -> wrapu w (s + wrapu w (a - s)) = a.
Proof.
  intros Hw Ha. unfold wrapu. rewrite Zplus_mod_idemp_r.
  replace (s + (a - s)) with a by lia. apply Z.mod_small. exact Ha.
Qed.

Lemma wraps_add_back (w a s : Z) :
  0 < w -> - 2 ^ (w - 1) <= a < 2 ^ (w - 1) -> wraps w (s + wraps w (a - s)) = a.
Proof.
  intros Hw Ha. unfold wraps.
  replace (s + ((a - s + 2 ^ (w - 1)) mod 2 ^ w - 2 ^ (w - 1)) + 2 ^ (w - 1))
    with (s + (a - s + 2 ^ (w - 1)) mod 2 ^ w) by lia.
  rewrite Zplus_mod_idemp_r.
  replace (s + (a - s + 2 ^ (w - 1))) with (a + 2 ^ (w - 1)) by lia.
  rewrite (pow2_half w Hw). rewrite Z.mod_small; lia.
Qed.

Lemma wrapu_below (w x : Z) : 0 <= w -> - 2 ^ w <= x < 0 -> wrapu w x = x + 2 ^ w.
Proof.
  intros Hw Hx. unfold wrapu.
  replace x with (x + 2 ^ w + (-1) * 2 ^ w) at 1 by lia.
  rewrite Z.mod_add by (pose proof (pow2_pos w Hw); lia).
  apply Z.mod_small. lia.
Qed.

End CIntFacts.

(** ** Clocks *)

Section ClockFacts.
Import CInt Clock.

(** A valid [timespec] splits into whole milliseconds and microseconds the
    same way with either division. *)
Lemma quot_is_div (a b : Z) : 0 <= a -> 0 < b -> Z.quot a b = a / b.
Proof. intros Ha Hb. apply Z.quot_div_nonneg; lia. Qed.

Lemma timec_milliseconds_exact (c : clocks) :
  0 <= tv_sec (ts_gettime c) -> 0 <= tv_nsec (ts_gettime c) < 1000000000 ->
  tv_sec (ts_gettime c) * 1000 + tv_nsec (ts_gettime c) / 1000000 < 2 ^ 64 ->
  TimeC.milliseconds c
  = tv_sec (ts_gettime c) * 1000 + tv_nsec (ts_gettime c) / 1000000.
Proof.
  intros Hs Hn Hlt. unfold TimeC.milliseconds, TimeC.MILLISECONDS. cbv zeta.
  rewrite quot_is_div by lia.
  assert (0 <= tv_nsec (ts_gettime c) / 1000000) by (apply Z.div_pos; lia).
  rewrite (wrapu_small 64 (tv_sec _)) by lia.
  rewrite (wrapu_small 64 (tv_sec _ * 1000)) by lia.
  apply wrapu_small. lia.
Qed.

Lemma timec_microseconds_exact (c : clocks) :
  0 <= tv_sec (ts_gettime c) -> 0 <= tv_nsec (ts_gettime c) < 1000000000 ->
  tv_sec (ts_gettime c) * 1000000 + tv_nsec (ts_gettime c) / 1000 < 2 ^ 64 ->
  TimeC.microseconds c
  = tv_sec (ts_gettime c) * 1000000 + tv_nsec (ts_gettime c) / 1000.
Proof.
  intros Hs Hn Hlt. unfold TimeC.microseconds, TimeC.MICROSECONDS. cbv zeta.
  rewrite quot_is_div by lia.
  assert (0 <= tv_nsec (ts_gettime c) / 1000) by (apply Z.div_pos; lia).
  rewrite (wrapu_small 64 (tv_sec _)) by lia.
  rewrite (wrapu_small 64 (tv_sec _ * 1000000)) by lia.
  apply wrapu_small. lia.
Qed.

Lemma mptime_milliseconds_exact (W : Z) (c : clocks) :
  0 < W ->
  0 <= tv_sec (ts_gettime c) -> 0 <= tv_nsec (ts_gettime c) < 1000000000 ->
  tv_sec (ts_gettime c) * 1000 + tv_nsec (ts_gettime c) / 1000000 < 2 ^ (W - 1) ->
  MpTimeH.milliseconds W c
  = tv_sec (ts_gettime c) * 1000 + tv_nsec (ts_gettime c) / 1000000.
Proof.
  intros HW Hs Hn Hlt. unfold MpTimeH.milliseconds, MpTimeH.MILLISECONDS. cbv zeta.
  rewrite quot_is_div by lia.
  assert (0 <= tv_nsec (ts_gettime c) / 1000000) by (apply Z.div_pos; lia).
  rewrite (wraps_small W (tv_sec _)) by lia.
  rewrite (wraps_small W (tv_sec _ * 1000)) by lia.
  apply wraps_small; lia.
Qed.

Lemma mptime_microseconds_exact (W : Z) (c : clocks) :
  0 < W ->
  0 <= tv_sec (ts_gettime c) -> 0 <= tv_nsec (ts_gettime c) < 1000000000 ->
  tv_sec (ts_gettime c) * 1000000 + tv_nsec (ts_gettime c) / 1000 < 2 ^ (W - 1) ->
  MpTimeH.microseconds W c
  = tv_sec (ts_gettime c) * 1000000 + tv_nsec (ts_gettime c) / 1000.
Proof.
  intros HW Hs Hn Hlt. unfold MpTimeH.microseconds, MpTimeH.MICROSECONDS. cbv zeta.
  rewrite quot_is_div by lia.
  assert (0 <= tv_nsec (ts_gettime c) / 1000) by (apply Z.div_pos; lia).
  rewrite (wraps_small W (tv_sec _)) by lia.
  rewrite (wraps_small W (tv_sec _ * 1000000)) by lia.
  apply wraps_small; lia.
Qed.

Lemma timec_milliseconds_range (c : clocks) : 0 <= TimeC.milliseconds c < 2 ^ 64.
Proof. unfold TimeC.milliseconds. cbv zeta. apply wrapu_range. lia. Qed.

Lemma timec_microseconds_range (c : clocks) : 0 <= TimeC.microseconds c < 2 ^ 64.
Proof. unfold TimeC.microseconds. cbv zeta. apply wrapu_range. lia. Qed.

Lemma mptime_milliseconds_range (W : Z) (c : clocks) :
  0 < W -> - 2 ^ (W - 1) <= MpTimeH.milliseconds W c < 2 ^ (W - 1).
Proof. intros HW. unfold MpTimeH.milliseconds. cbv zeta. apply wraps_range. exact HW. Qed.

Lemma mptime_microseconds_range (W : Z) (c : clocks) :
  0 < W -> - 2 ^ (W - 1) <= MpTimeH.microseconds W c < 2 ^ (W - 1).
Proof. intros HW. unfold MpTimeH.microseconds. cbv zeta. apply wraps_range. exact HW. Qed.

Lemma acquire_frequency_counter (p : MpTimeH.perf) :
  MpTimeH.qp_counter (MpTimeH.acquire_frequency p) = MpTimeH.qp_counter p.
Proof.
  unfold MpTimeH.acquire_frequency.
  destruct (MpTimeH.Freq_mptime p =? 0); reflexivity.
Qed.

(** The Windows stamp of [mptime.h] is the scaled counter converted to the
    4-byte [long]. *)
Lemma mptime_windows_stamp (scale : Z) (p : MpTimeH.perf) :
  0 < scale ->
  0 <= MpTimeH.qp_counter p ->
  MpTimeH.qp_counter p * scale < 2 ^ 63 ->
  0 < MpTimeH.Freq_mptime (MpTimeH.acquire_frequency p) ->
  wraps 32 (Z.quot (wraps 64 (MpTimeH.qp_counter (MpTimeH.acquire_frequency p) * scale))
              (MpTimeH.Freq_mptime (MpTimeH.acquire_frequency p)))
  = wraps 32 (MpTimeH.qp_counter p * scale
              / MpTimeH.Freq_mptime (MpTimeH.acquire_frequency p)).
Proof.
  intros Hscale Hc Hlt Hf. rewrite acquire_frequency_counter.
  assert (0 <= MpTimeH.qp_counter p * scale < 2 ^ 63) by nia.
  rewrite (wraps_small 64) by (change (2 ^ (64 - 1)) with (2 ^ 63); lia).
  rewrite quot_is_div by lia. reflexivity.
Qed.

End ClockFacts.

Section ClockClaims.
Import CInt Clock.

(** C6: for every start time stamp, [millielapsed] and [microelapsed] return
    the difference [milliseconds() - start], resp. [microseconds() - start],
    in the arithmetic of the build ([uint64_t] in [time.c], [long] of [W]
    bits in [mptime.h]) and nothing else: it is the difference of the two
    numbers whenever the start is not after the current stamp (whenever the
    difference fits [long]), and adding the start back always gives the
    current stamp, so nothing is clamped or adjusted. *)
Theorem elapsed_is_now_minus_start (W : Z) (c : clocks) (su sl : Z) :
  0 < W -> 0 <= su < 2 ^ 64 -> - 2 ^ (W - 1) <= sl < 2 ^ (W - 1) ->
  (TimeC.millielapsed c su = wrapu 64 (TimeC.milliseconds c - su)
   /\ TimeC.microelapsed c su = wrapu 64 (TimeC.microseconds c - su)
   /\ MpTimeH.millielapsed W c sl = wraps W (MpTimeH.milliseconds W c - sl)
   /\ MpTimeH.microelapsed W c sl = wraps W (MpTimeH.microseconds W c - sl))
  /\ ((su <= TimeC.milliseconds c ->
       TimeC.millielapsed c su = TimeC.milliseconds c - su)
      /\ (su <= TimeC.microseconds c ->
          TimeC.microelapsed c su = TimeC.microseconds c - su)
      /\ (- 2 ^ (W - 1) <= MpTimeH.milliseconds W c - sl < 2 ^ (W - 1) ->
          MpTimeH.millielapsed W c sl = MpTimeH.milliseconds W c - sl)
      /\ (- 2 ^ (W - 1) <= MpTimeH.microseconds W c - sl < 2 ^ (W - 1) ->
          MpTimeH.microelapsed W c sl = MpTimeH.microseconds W c - sl))
  /\ (wrapu 64 (su + TimeC.millielapsed c su) = TimeC.milliseconds c
      /\ wrapu 64 (su + TimeC.microelapsed c su) = TimeC.microseconds c
      /\ wraps W (sl + MpTimeH.millielapsed W c sl) = MpTimeH.milliseconds W c
      /\ wraps W (sl + MpTimeH.microelapsed W c sl) = MpTimeH.microseconds W c).
Proof.
  intros HW Hsu Hsl.
  pose proof (timec_milliseconds_range c) as Hm.
  pose proof (timec_microseconds_range c) as Hu.
  pose proof (mptime_milliseconds_range W c HW) as Hlm.
  pose proof (mptime_microseconds_range W c HW) as Hlu.
  unfold TimeC.millielapsed, TimeC.microelapsed,
    MpTimeH.millielapsed, MpTimeH.microelapsed.
  split; [repeat split; reflexivity |].
  split.
  - repeat split; intros Hle.
    + apply wrapu_small. lia.
    + apply wrapu_small. lia.
    + apply wraps_small; [exact HW | exact Hle].
    + apply wraps_small; [exact HW | exact Hle].
  - repeat split.
    + apply wrapu_add_back; [lia | exact Hm].
    + apply wrapu_add_back; [lia | exact Hu].
    + apply wraps_add_back; [exact HW | exact Hlm].
    + apply wraps_add_back; [exact HW | exact Hlu].
Qed.

(** A start stamp after the current one is not clamped in the 64-bit build:
    the difference comes back reduced modulo 2^64. *)
Lemma timec_elapsed_future_start (c : clocks) (su : Z) :
  0 <= su < 2 ^ 64 -> TimeC.milliseconds c < su ->
  TimeC.millielapsed c su = TimeC.milliseconds c - su + 2 ^ 64.
Proof.
  intros Hsu Hlt. pose proof (timec_milliseconds_range c) as Hm.
  unfold TimeC.millielapsed. apply wrapu_below; lia.
Qed.

Lemma elapsed_is_now_minus_start_witness :
  (0 < 32 /\ 0 <= 1000 < 2 ^ 64 /\ - 2 ^ (32 - 1) <= 1000 < 2 ^ (32 - 1))
  /\ TimeC.millielapsed clock_5250ms 1000 = 4250
  /\ MpTimeH.microelapsed 32 clock_5250ms 1000 = 5249000.
Proof.
  assert (H0 : 0 < 32) by lia.
  assert (H1 : 0 <= 1000 < 2 ^ 64) by lia.
  assert (H2 : - 2 ^ (32 - 1) <= 1000 < 2 ^ (32 - 1)) by lia.
  split; [exact (conj H0 (conj H1 H2)) |].
  destruct (elapsed_is_now_minus_start 32 clock_5250ms 1000 1000 H0 H1 H2)
    as [_ [[Hm [_ [_ Hu]]] _]].
  split.
  - rewrite Hm; [reflexivity | vm_compute; congruence].
  - rewrite Hu; [reflexivity | vm_compute; split; congruence].
Defined.

(** C7: for every duration, POSIX [millisleep] asks for exactly that many
    milliseconds: [tv_sec] is the duration divided by 1000, [tv_nsec] the
    rest times 1000000, so [tv_sec*1000 + tv_nsec/1000000] is the duration
    and [0 <= tv_nsec < 10^9]; it calls [nanosleep] once with that request
    and does not call again when interrupted; an uninterrupted call lasts
    at least the duration.  [d32] is the [uint32_t] argument of [time.c],
    [dl] the [unsigned long] argument of [mptime.h] ([long] of [W] bits,
    its signed product taken modulo 2^W). *)
Theorem millisleep_requests_duration
  (W d32 dl : Z) (o : sleep_outcome) (w : sleeper) :
  32 <= W -> 0 <= d32 < 2 ^ 32 -> 0 <= dl < 2 ^ W ->
  (let ts := TimeC.millisleep_request d32 in
   tv_sec ts = d32 / 1000
   /\ tv_nsec ts = (d32 - tv_sec ts * 1000) * 1000000
   /\ tv_sec ts * 1000 + tv_nsec ts / 1000000 = d32
   /\ 0 <= tv_nsec ts < 1000000000
   /\ nanosleep_calls (TimeC.millisleep o d32 w) = nanosleep_calls w ++ [ts]
   /\ (forall late, o = Completed late ->
       now_ns w + d32 * 1000000 <= now_ns (TimeC.millisleep o d32 w)))
  /\ (let ts := MpTimeH.millisleep_request W dl in
      tv_sec ts = dl / 1000
      /\ tv_nsec ts = (dl - tv_sec ts * 1000) * 1000000
      /\ tv_sec ts * 1000 + tv_nsec ts / 1000000 = dl
      /\ 0 <= tv_nsec ts < 1000000000
      /\ nanosleep_calls (MpTimeH.millisleep W o dl w) = nanosleep_calls w ++ [ts]
      /\ (forall late, o = Completed late ->
          now_ns w + dl * 1000000 <= now_ns (MpTimeH.millisleep W o dl w))).
Proof.
  intros HW Hd32 Hdl.
  destruct (pow2_ge_32 W HW) as [HpW HpW1].
  pose proof (pow2_half W ltac:(lia)) as Hhalf.
  split.
  - assert (Hsec : wrapu 32 (d32 / 1000) = d32 / 1000).
    { apply wrapu_small. change (2 ^ 32) with 4294967296 in *. lia_div. }
    assert (Hnsec : tv_nsec (TimeC.millisleep_request d32)
                    = (d32 - d32 / 1000 * 1000) * 1000000).
    { unfold TimeC.millisleep_request, TimeC.MILLISECONDS. cbv zeta. simpl tv_nsec.
      rewrite Hsec.
      change (2 ^ 32) with 4294967296 in *.
      rewrite (wrapu_small 32 (d32 / 1000 * 1000))
        by (change (2 ^ 32) with 4294967296; lia_div).
      rewrite (wrapu_small 32 (d32 - d32 / 1000 * 1000))
        by (change (2 ^ 32) with 4294967296; lia_div).
      apply wrapu_small. change (2 ^ 32) with 4294967296. lia_div. }
    assert (Hts : tv_sec (TimeC.millisleep_request d32) = d32 / 1000) by exact Hsec.
    cbv zeta. rewrite Hnsec, Hts.
    split; [reflexivity |]. split; [reflexivity |].
    split; [lia_div |]. split; [lia_div |].
    unfold TimeC.millisleep, nanosleep.
    split.
    + destruct o; reflexivity.
    + intros late ->. simpl. unfold ns_of. rewrite Hnsec, Hts. lia_div.
  - assert (Hsec : wraps W (wrapu W (dl / 1000)) = dl / 1000).
    { rewrite (wrapu_small W (dl / 1000)) by lia_div. apply wraps_small; lia_div. }
    assert (Hnsec : tv_nsec (MpTimeH.millisleep_request W dl)
                    = (dl - dl / 1000 * 1000) * 1000000).
    { unfold MpTimeH.millisleep_request, MpTimeH.MILLISECONDS. cbv zeta. simpl tv_nsec.
      rewrite Hsec. rewrite wrapu_sub_wraps.
      rewrite (wrapu_small W (dl - dl / 1000 * 1000)) by lia_div.
      rewrite (wrapu_small W ((dl - dl / 1000 * 1000) * 1000000)) by lia_div.
      apply wraps_small; lia_div. }
    assert (Hts : tv_sec (MpTimeH.millisleep_request W dl) = dl / 1000) by exact Hsec.
    cbv zeta. rewrite Hnsec, Hts.
    split; [reflexivity |]. split; [reflexivity |].
    split; [lia_div |]. split; [lia_div |].
    unfold MpTimeH.millisleep, nanosleep.
    split.
    + destruct o; reflexivity.
    + intros late ->. simpl. unfold ns_of. rewrite Hnsec, Hts. lia_div.
Qed.

(** In [mptime.h] the signed product [ts.tv_sec * MILLISECONDS] stays inside
    [long] for every duration up to [LONG_MAX]. *)
Lemma mptime_millisleep_no_overflow (W dl : Z) :
  32 <= W -> 0 <= dl <= smax W -> MpTimeH.millisleep_overflows W dl = false.
Proof.
  intros HW Hdl. unfold smax in Hdl.
  destruct (pow2_ge_32 W HW) as [HpW HpW1].
  pose proof (pow2_half W ltac:(lia)) as Hhalf.
  unfold MpTimeH.millisleep_overflows, MpTimeH.MILLISECONDS, smax.
  rewrite (wrapu_small W (dl / 1000)) by lia_div.
  rewrite (wraps_small W (dl / 1000)) by lia_div.
  apply negb_false_iff. apply Z.leb_le. lia_div.
Qed.

Lemma millisleep_requests_duration_witness :
  (32 <= 32 /\ 0 <= 1500 < 2 ^ 32 /\ 0 <= 3000000000 < 2 ^ 32)
  /\ TimeC.millisleep_request 1500 = Timespec 1 500000000
  /\ nanosleep_calls (MpTimeH.millisleep 32 (Interrupted 7) 3000000000
                        (Sleeper 0 []))
     = [Timespec 3000000 0].
Proof.
  assert (H0 : 32 <= 32) by lia.
  assert (H1 : 0 <= 1500 < 2 ^ 32) by lia.
  assert (H2 : 0 <= 3000000000 < 2 ^ 32) by lia.
  split; [exact (conj H0 (conj H1 H2)) |].
  destruct (millisleep_requests_duration 32 1500 3000000000 (Interrupted 7)
              (Sleeper 0 []) H0 H1 H2) as [_ [_ [_ [_ [_ [Hcalls _]]]]]].
  split; [reflexivity |].
  rewrite Hcalls. reflexivity.
Defined.

End ClockClaims.

Section ClockRanges.
Import CInt Clock.

(** C8: in the build on [long] ([mptime.h]) with a 4-byte [long], the
    millisecond stamp is exact below 2^31 ms and wraps (to [LONG_MIN]) at
    2^31 ms, which lies between 24.855 and 24.856 days; the microsecond
    stamp is exact below 2^31 us and wraps at 2^31 us, between 35.791 and
    35.792 minutes; this for the POSIX stamps of the clock [c] and for the
    Windows stamps of the performance counter [p].  The stamps of the
    64-bit build ([time.c]) are exact below 2^64 us, more than 584000 years
    of 31557600 seconds. *)
Theorem narrow_build_wrap_points (c : clocks) (p : MpTimeH.perf) :
  0 <= tv_sec (ts_gettime c) -> 0 <= tv_nsec (ts_gettime c) < 1000000000 ->
  0 <= MpTimeH.qp_counter p ->
  0 < MpTimeH.Freq_mptime (MpTimeH.acquire_frequency p) ->
  let ms := tv_sec (ts_gettime c) * 1000 + tv_nsec (ts_gettime c) / 1000000 in
  let us := tv_sec (ts_gettime c) * 1000000 + tv_nsec (ts_gettime c) / 1000 in
  let wms := MpTimeH.qp_counter p * 1000
             / MpTimeH.Freq_mptime (MpTimeH.acquire_frequency p) in
  let wus := MpTimeH.qp_counter p * 1000000
             / MpTimeH.Freq_mptime (MpTimeH.acquire_frequency p) in
  ((ms < 2 ^ 31 -> MpTimeH.milliseconds 32 c = ms)
   /\ (ms = 2 ^ 31 -> MpTimeH.milliseconds 32 c = - 2 ^ 31)
   /\ (us < 2 ^ 31 -> MpTimeH.microseconds 32 c = us)
   /\ (us = 2 ^ 31 -> MpTimeH.microseconds 32 c = - 2 ^ 31))
  /\ ((MpTimeH.qp_counter p * 1000 < 2 ^ 63 ->
       (wms < 2 ^ 31 -> fst (MpTimeH.milliseconds_windows p) = wms)
       /\ (wms = 2 ^ 31 -> fst (MpTimeH.milliseconds_windows p) = - 2 ^ 31))
      /\ (MpTimeH.qp_counter p * 1000000 < 2 ^ 63 ->
          (wus < 2 ^ 31 -> fst (MpTimeH.microseconds_windows p) = wus)
          /\ (wus = 2 ^ 31 -> fst (MpTimeH.microseconds_windows p) = - 2 ^ 31)))
  /\ (24855 * (86400 * MpTimeH.MILLISECONDS) <= 1000 * 2 ^ 31
      < 24856 * (86400 * MpTimeH.MILLISECONDS)
      /\ 35791 * (60 * MpTimeH.MICROSECONDS) <= 1000 * 2 ^ 31
         < 35792 * (60 * MpTimeH.MICROSECONDS))
  /\ ((us < 2 ^ 64 -> TimeC.milliseconds c = ms /\ TimeC.microseconds c = us)
      /\ 584000 * (31557600 * TimeC.MICROSECONDS) < 2 ^ 64).
Proof.
  intros Hs Hn Hc Hf ms us wms wus.
  assert (Hq1 : Z.quot (tv_nsec (ts_gettime c)) 1000000
                = tv_nsec (ts_gettime c) / 1000000) by (apply quot_is_div; lia).
  assert (Hq2 : Z.quot (tv_nsec (ts_gettime c)) 1000
                = tv_nsec (ts_gettime c) / 1000) by (apply quot_is_div; lia).
  assert (Hwms : 0 <= wms) by (apply Z.div_pos; lia).
  assert (Hwus : 0 <= wus) by (apply Z.div_pos; lia).
  split; [| split; [| split]].
  - split; [| split; [| split]].
    + intros Hlt. apply mptime_milliseconds_exact; [lia | exact Hs | exact Hn |].
      exact Hlt.
    + intros Heq. unfold MpTimeH.milliseconds, MpTimeH.MILLISECONDS. cbv zeta.
      rewrite Hq1.
      assert (Hsec : tv_sec (ts_gettime c) * 1000 < 2 ^ 31) by (subst ms; lia_div).
      rewrite (wraps_small 32 (tv_sec _))
        by (change (2 ^ (32 - 1)) with (2 ^ 31); lia).
      rewrite (wraps_small 32 (tv_sec _ * 1000))
        by (change (2 ^ (32 - 1)) with (2 ^ 31); lia).
      fold ms. rewrite Heq. reflexivity.
    + intros Hlt. apply mptime_microseconds_exact; [lia | exact Hs | exact Hn |].
      exact Hlt.
    + intros Heq. unfold MpTimeH.microseconds, MpTimeH.MICROSECONDS. cbv zeta.
      rewrite Hq2.
      assert (Hsec : tv_sec (ts_gettime c) * 1000000 < 2 ^ 31) by (subst us; lia_div).
      rewrite (wraps_small 32 (tv_sec _))
        by (change (2 ^ (32 - 1)) with (2 ^ 31); lia).
      rewrite (wraps_small 32 (tv_sec _ * 1000000))
        by (change (2 ^ (32 - 1)) with (2 ^ 31); lia).
      fold us. rewrite Heq. reflexivity.
  - unfold MpTimeH.milliseconds_windows, MpTimeH.microseconds_windows,
      MpTimeH.MILLISECONDS, MpTimeH.MICROSECONDS. cbv zeta. simpl fst.
    split; intros H63; rewrite mptime_windows_stamp by (assumption || lia).
    + fold wms. split.
      * intros Hlt. apply wraps_small; [lia |].
        change (2 ^ (32 - 1)) with (2 ^ 31). lia.
      * intros ->. reflexivity.
    + fold wus. split.
      * intros Hlt. apply wraps_small; [lia |].
        change (2 ^ (32 - 1)) with (2 ^ 31). lia.
      * intros ->. reflexivity.
  - split; vm_compute; split; congruence.
  - split; [| vm_compute; reflexivity].
    intros Hlt. split.
    + apply timec_milliseconds_exact; [exact Hs | exact Hn |].
      subst ms us. lia_div.
    + apply timec_microseconds_exact; [exact Hs | exact Hn | exact Hlt].
Qed.

Lemma narrow_build_wrap_points_witness :
  (0 <= 2147483 /\ 0 <= 647000000 < 1000000000
   /\ 0 <= 21474836480000 /\ 0 < 10000000)
  /\ MpTimeH.milliseconds 32 (clock_at 2147483 647000000) = 2147483647
  /\ MpTimeH.milliseconds 32 (clock_at 2147483 648000000) = - 2147483648
  /\ MpTimeH.microseconds 32 (clock_at 2147 483647000) = 2147483647
  /\ MpTimeH.microseconds 32 (clock_at 2147 483648000) = - 2147483648
  /\ fst (MpTimeH.milliseconds_windows (MpTimeH.perf_10mhz 21474836470000))
     = 2147483647
  /\ fst (MpTimeH.milliseconds_windows (MpTimeH.perf_10mhz 21474836480000))
     = - 2147483648.
Proof.
  assert (Hs : forall s n, 0 <= s -> 0 <= tv_sec (ts_gettime (clock_at s n)))
    by (intros s n H; exact H).
  assert (Hn : forall s n, 0 <= n < 1000000000 ->
               0 <= tv_nsec (ts_gettime (clock_at s n)) < 1000000000)
    by (intros s n H; exact H).
  assert (Hc : forall k, 0 <= k -> 0 <= MpTimeH.qp_counter (MpTimeH.perf_10mhz k))
    by (intros k H; exact H).
  assert (Hf : forall k,
               0 < MpTimeH.Freq_mptime
                     (MpTimeH.acquire_frequency (MpTimeH.perf_10mhz k)))
    by (intros k; reflexivity).
  split; [lia |].
  split; [| split; [| split; [| split; [| split]]]].
  - destruct (narrow_build_wrap_points (clock_at 2147483 647000000)
                (MpTimeH.perf_10mhz 0)
                (Hs 2147483 647000000 ltac:(lia)) (Hn 2147483 647000000 ltac:(lia))
                (Hc 0 ltac:(lia)) (Hf 0)) as [[H _] _].
    apply H. vm_compute. reflexivity.
  - destruct (narrow_build_wrap_points (clock_at 2147483 648000000)
                (MpTimeH.perf_10mhz 0)
                (Hs 2147483 648000000 ltac:(lia)) (Hn 2147483 648000000 ltac:(lia))
                (Hc 0 ltac:(lia)) (Hf 0)) as [[_ [H _]] _].
    apply H. vm_compute. reflexivity.
  - destruct (narrow_build_wrap_points (clock_at 2147 483647000)
                (MpTimeH.perf_10mhz 0)
                (Hs 2147 483647000 ltac:(lia)) (Hn 2147 483647000 ltac:(lia))
                (Hc 0 ltac:(lia)) (Hf 0)) as [[_ [_ [H _]]] _].
    apply H. vm_compute. reflexivity.
  - destruct (narrow_build_wrap_points (clock_at 2147 483648000)
                (MpTimeH.perf_10mhz 0)
                (Hs 2147 483648000 ltac:(lia)) (Hn 2147 483648000 ltac:(lia))
                (Hc 0 ltac:(lia)) (Hf 0)) as [[_ [_ [_ H]]] _].
    apply H. vm_compute. reflexivity.
  - destruct (narrow_build_wrap_points (clock_at 0 0)
                (MpTimeH.perf_10mhz 21474836470000)
                (Hs 0 0 ltac:(lia)) (Hn 0 0 ltac:(lia))
                (Hc 21474836470000 ltac:(lia))
                (Hf 21474836470000)) as [_ [[H _] _]].
    apply H; vm_compute; reflexivity.
  - destruct (narrow_build_wrap_points (clock_at 0 0)
                (MpTimeH.perf_10mhz 21474836480000)
                (Hs 0 0 ltac:(lia)) (Hn 0 0 ltac:(lia))
                (Hc 21474836480000 ltac:(lia))
                (Hf 21474836480000)) as [_ [[H _] _]].
    apply H; vm_compute; reflexivity.
Defined.

(** C9, as the specification states it, fails once the microsecond stamp
    has wrapped: 50 minutes after the clock's origin with a 4-byte [long]
    ([mptime.h]), and at [tv_sec = 2^58] in the 64-bit build ([time.c]). *)
Lemma stamps_disagree_after_wrap :
  ~ (forall c : clocks,
       0 <= tv_sec (ts_gettime c) -> 0 <= tv_nsec (ts_gettime c) < 1000000000 ->
       MpTimeH.milliseconds 32 c = Z.quot (MpTimeH.microseconds 32 c) 1000)
  /\ ~ (forall c : clocks,
       0 <= tv_sec (ts_gettime c) -> 0 <= tv_nsec (ts_gettime c) < 1000000000 ->
       TimeC.milliseconds c = TimeC.microseconds c / 1000).
Proof.
  split.
  - intros H. specialize (H (clock_at 3000 0)).
    simpl in H. specialize (H ltac:(lia) ltac:(lia)).
    vm_compute in H. discriminate H.
  - intros H. specialize (H (clock_at (2 ^ 58) 0)).
    simpl in H. specialize (H ltac:(lia) ltac:(lia)).
    vm_compute in H. discriminate H.
Qed.

(** C9, amended: for every [timespec] with [tv_sec >= 0] and
    [0 <= tv_nsec < 10^9] whose microsecond stamp has not wrapped (it is
    below 2^64 in [time.c], below 2^(W-1) for the [long] of [W] bits of
    [mptime.h]), the millisecond stamp is the microsecond stamp divided by
    1000. *)
Theorem stamps_agree_before_wrap (W : Z) (c : clocks) :
  0 < W ->
  0 <= tv_sec (ts_gettime c) -> 0 <= tv_nsec (ts_gettime c) < 1000000000 ->
  (tv_sec (ts_gettime c) * 1000000 + tv_nsec (ts_gettime c) / 1000 < 2 ^ 64 ->
   TimeC.milliseconds c = TimeC.microseconds c / 1000)
  /\ (tv_sec (ts_gettime c) * 1000000 + tv_nsec (ts_gettime c) / 1000 < 2 ^ (W - 1) ->
      MpTimeH.milliseconds W c = Z.quot (MpTimeH.microseconds W c) 1000).
Proof.
  intros HW Hs Hn. split; intros Hlt.
  - rewrite timec_microseconds_exact by assumption.
    rewrite timec_milliseconds_exact; [lia_div | exact Hs | exact Hn | lia_div].
  - rewrite mptime_microseconds_exact by assumption.
    rewrite quot_is_div by lia_div.
    rewrite mptime_milliseconds_exact;
      [lia_div | exact HW | exact Hs | exact Hn | lia_div].
Qed.

Lemma stamps_agree_before_wrap_witness :
  (0 < 32 /\ 0 <= 5 /\ 0 <= 250000000 < 1000000000)
  /\ TimeC.milliseconds clock_5250ms = TimeC.microseconds clock_5250ms / 1000
  /\ MpTimeH.milliseconds 32 clock_5250ms
     = Z.quot (MpTimeH.microseconds 32 clock_5250ms) 1000.
Proof.
  assert (H0 : 0 < 32) by lia.
  assert (H1 : 0 <= tv_sec (ts_gettime clock_5250ms)) by (simpl; lia).
  assert (H2 : 0 <= tv_nsec (ts_gettime clock_5250ms) < 1000000000) by (simpl; lia).
  split; [lia |].
  destruct (stamps_agree_before_wrap 32 clock_5250ms H0 H1 H2) as [Hu Hl].
  split.
  - apply Hu. vm_compute. reflexivity.
  - apply Hl. vm_compute. reflexivity.
Defined.

End ClockRanges.

(** ** Threads and read/write locks *)

Section ThreadFacts.
Import CInt ThreadOS Thread.
Context {OS : Type} `{!PosixThreads OS} `{!WinThreads OS}.

(** [thread.c], UNIX: the id is 0 after every [thread_wait] that returns,
    whatever [pthread_join] answered. *)
Lemma thread_wait_unix_cleans (p : nat) (w w1 : world OS) (e : Z) :
  thread_wait_unix p w = Some (e, w1) -> tids w1 !! p = Some 0.
Proof.
  unfold thread_wait_unix. intros H.
  destruct (tids w !! p) as [tid |] eqn:Hp; [| discriminate].
  destruct (pthread_join tid (os w)) as [ecode os1].
  injection H as _ <-. simpl.
  apply list_lookup_insert_eq. eapply lookup_lt_Some. exact Hp.
Qed.

(** [thread.c], Windows: the id is 0 once [OpenThread] gave a handle,
    whether the wait succeeded or not. *)
Lemma thread_wait_windows_cleans_when_opened
  (p : nat) (w : world OS) (tid : ThreadID) (h : HANDLE) (os1 : OS) :
  tids w !! p = Some tid -> OpenThread tid (os w) = (Some h, os1) ->
  exists e w1, thread_wait_windows true p w = Some (e, w1) /\ tids w1 !! p = Some 0.
Proof.
  intros Hp Hopen. unfold thread_wait_windows. rewrite Hp, Hopen.
  destruct (WaitForSingleObject h os1) as [status os2].
  eexists _, _. split; [reflexivity |]. simpl.
  apply list_lookup_insert_eq. eapply lookup_lt_Some. exact Hp.
Qed.

(** [thread.c], Windows: when [OpenThread] returns [NULL] the function
    returns [GetLastError()] before the statement that clears the id. *)
Lemma thread_wait_windows_keeps_id_when_not_opened
  (p : nat) (w : world OS) (tid : ThreadID) (os1 : OS) :
  tids w !! p = Some tid -> OpenThread tid (os w) = (None, os1) ->
  thread_wait_windows true p w
  = Some (wraps 32 (GetLastError os1), World os1 (tids w)).
Proof.
  intros Hp Hopen. unfold thread_wait_windows. rewrite Hp, Hopen. reflexivity.
Qed.

(** [mpthread.h]: neither [thread_wait] writes to the id. *)
Lemma thread_wait_header_keeps_ids (b : build) (p : nat) (w w1 : world OS) (e : Z) :
  b = MpThreadH_Posix \/ b = MpThreadH_Windows ->
  thread_wait b p w = Some (e, w1) -> tids w1 = tids w.
Proof.
  intros [-> | ->]; simpl.
  - unfold thread_wait_posix_macro.
    destruct (tids w !! p) as [tid |]; [| discriminate].
    destruct (pthread_join tid (os w)) as [ecode os1].
    intros H. injection H as _ <-. reflexivity.
  - unfold thread_wait_windows.
    destruct (tids w !! p) as [tid |]; [| discriminate].
    destruct (OpenThread tid (os w)) as [[h |] os1].
    + destruct (WaitForSingleObject h os1) as [status os2].
      intros H. injection H as _ <-. reflexivity.
    + intros H. injection H as _ <-. reflexivity.
Qed.

(** Every [thread_wait] returns when its pointer is inside the array, and
    leaves the array at its length. *)
Lemma thread_wait_defined (b : build) (p : nat) (w : world OS) :
  (p < length (tids w))%nat ->
  exists e w1, thread_wait b p w = Some (e, w1)
               /\ length (tids w1) = length (tids w).
Proof.
  intros Hp. destruct (lookup_lt_is_Some_2 _ _ Hp) as [tid Htid].
  destruct b; simpl.
  - unfold thread_wait_unix. rewrite Htid.
    destruct (pthread_join tid (os w)) as [ecode os1].
    eexists _, _. split; [reflexivity |]. simpl. apply length_insert.
  - unfold thread_wait_windows. rewrite Htid.
    destruct (OpenThread tid (os w)) as [[h |] os1].
    + destruct (WaitForSingleObject h os1) as [status os2].
      eexists _, _. split; [reflexivity |]. simpl. apply length_insert.
    + eexists _, _. split; reflexivity.
  - unfold thread_wait_posix_macro. rewrite Htid.
    destruct (pthread_join tid (os w)) as [ecode os1].
    eexists _, _. split; reflexivity.
  - unfold thread_wait_windows. rewrite Htid.
    destruct (OpenThread tid (os w)) as [[h |] os1].
    + destruct (WaitForSingleObject h os1) as [status os2].
      eexists _, _. split; reflexivity.
    + eexists _, _. split; reflexivity.
Qed.

Lemma wait_each_defined (b : build) (ps : list nat) :
  forall w : world OS,
  Forall (fun p => (p < length (tids w))%nat) ps ->
  exists codes w1, wait_each (thread_wait b) ps w = Some (codes, w1)
                   /\ length codes = length ps.
Proof.
  induction ps as [| p ps IH]; intros w Hps.
  - exists [], w. split; reflexivity.
  - apply Forall_cons in Hps as [Hp Hps].
    destruct (thread_wait_defined b p w Hp) as (e & w1 & Hw & Hlen).
    destruct (IH w1) as (codes & w2 & Hrest & Hl).
    { rewrite Hlen. exact Hps. }
    exists (e :: codes), w2. simpl. rewrite Hw, Hrest.
    split; [reflexivity |]. simpl. rewrite Hl. reflexivity.
Qed.

End ThreadFacts.

Section MultiwaitFacts.
Import Thread.
Context {St : Type}.
Variable tw : nat -> St -> option (Z * St).

(** The loop of [thread_multiwait] does what joining each handle in turn
    does, and keeps the first result that is not 0. *)
Lemma multiwait_loop_wait_each (tidlist : nat) (n : nat) :
  forall (i : nat) (ecode : Z) (w w1 : St) (codes : list Z),
  Z.of_nat (i + n) <= 2147483647 ->
  wait_each tw (seq (tidlist + i) n) w = Some (codes, w1) ->
  multiwait_loop tw (S n) tidlist (Z.of_nat (i + n)) (Z.of_nat i) ecode w
  = Some (first_error ecode codes, w1).
Proof.
  induction n as [| n IH]; intros i ecode w w1 codes Hmax Hw.
  - simpl in Hw. injection Hw as <- <-. simpl.
    replace (i + 0)%nat with i by lia. rewrite Z.ltb_irrefl. reflexivity.
  - simpl in Hw.
    destruct (tw (tidlist + i)%nat w) as [[e w2] |] eqn:He; [| discriminate].
    destruct (wait_each tw (seq (S (tidlist + i)) n) w2) as [[es w3] |] eqn:Hes;
      [| discriminate].
    injection Hw as <- <-.
    change (multiwait_loop tw (S (S n)) tidlist (Z.of_nat (i + S n)) (Z.of_nat i) ecode w)
      with (if Z.of_nat i <? Z.of_nat (i + S n)
            then match tw (tidlist + Z.to_nat (Z.of_nat i))%nat w with
                 | None => None
                 | Some (temp, w1) =>
                     multiwait_loop tw (S n) tidlist (Z.of_nat (i + S n))
                       (CInt.wraps 32 (Z.of_nat i + 1))
                       (if negb (temp =? 0) && (ecode =? 0) then temp else ecode) w1
                 end
            else Some (ecode, w)).
    replace (Z.of_nat i <? Z.of_nat (i + S n)) with true
      by (symmetry; apply Z.ltb_lt; lia).
    rewrite Nat2Z.id, He.
    rewrite wraps_small
      by (change (2 ^ (32 - 1)) with 2147483648; lia).
    replace (Z.of_nat i + 1) with (Z.of_nat (S i)) by lia.
    replace (i + S n)%nat with (S i + n)%nat in * by lia.
    rewrite (IH (S i) _ w2 w3 es).
    + reflexivity.
    + exact Hmax.
    + replace (tidlist + S i)%nat with (S (tidlist + i)) by lia. exact Hes.
Qed.

Lemma wait_each_counted (ps : list nat) :
  forall (w w1 : St) (codes : list Z) (log : list nat),
  wait_each tw ps w = Some (codes, w1) ->
  wait_each (counted tw) ps (w, log) = Some (codes, (w1, log ++ ps)).
Proof.
  induction ps as [| p ps IH]; intros w w1 codes log Hw.
  - simpl in Hw. injection Hw as <- <-. simpl. rewrite app_nil_r. reflexivity.
  - simpl in Hw.
    destruct (tw p w) as [[e w2] |] eqn:He; [| discriminate].
    destruct (wait_each tw ps w2) as [[es w3] |] eqn:Hes; [| discriminate].
    injection Hw as <- <-.
    simpl. unfold counted at 1. simpl. rewrite He.
    rewrite (IH w2 w3 es (log ++ [p]) Hes).
    rewrite <- app_assoc. reflexivity.
Qed.

End MultiwaitFacts.

Section FirstError.
Import Thread.

Lemma first_error_kept (ecode : Z) (codes : list Z) :
  ecode <> 0 -> first_error ecode codes = ecode.
Proof.
  revert ecode. induction codes as [| e es IH]; intros ecode Hne.
  - reflexivity.
  - unfold first_error. simpl.
    replace (ecode =? 0) with false by (symmetry; apply Z.eqb_neq; exact Hne).
    rewrite andb_false_r. apply IH. exact Hne.
Qed.

Lemma first_error_all_zero (codes : list Z) :
  Forall (fun e => e = 0) codes -> first_error 0 codes = 0.
Proof.
  induction codes as [| e es IH]; intros Hall.
  - reflexivity.
  - apply Forall_cons in Hall as [-> Hall]. unfold first_error. simpl.
    apply IH. exact Hall.
Qed.

Lemma first_error_smallest (codes : list Z) :
  forall (j : nat) (e : Z),
  codes !! j = Some e -> e <> 0 ->
  (forall i e', (i < j)%nat -> codes !! i = Some e' -> e' = 0) ->
  first_error 0 codes = e.
Proof.
  induction codes as [| c cs IH]; intros j e Hj Hne Hbefore.
  - discriminate.
  - destruct j as [| j].
    + injection Hj as ->. unfold first_error. simpl.
      replace (e =? 0) with false by (symmetry; apply Z.eqb_neq; exact Hne).
      simpl. apply first_error_kept. exact Hne.
    + assert (c = 0) as -> by (apply (Hbefore 0%nat); [lia | reflexivity]).
      unfold first_error. simpl. apply (IH j).
      * exact Hj.
      * exact Hne.
      * intros i e' Hi Hl. apply (Hbefore (S i)); [lia | exact Hl].
Qed.

End FirstError.

Section ThreadClaims.
Import CInt ThreadOS Thread.

(** C2: for every array of [K] thread ids ([K] an [int]) and whatever each
    join answers,
    [thread_multiwait] calls [thread_wait] once on each of the [K] ids, in
    index order, without stopping at a failure; it returns 0 when every join
    answered 0, and otherwise the answer of the join at the smallest failing
    index.  [codes] are the answers of the [K] joins in order. *)
Theorem thread_multiwait_joins_all
  (b : build) {OS : Type} `{!PosixThreads OS} `{!WinThreads OS}
  (w : world OS) (len : Z) :
  len = Z.of_nat (length (tids w)) -> len <= 2147483647 ->
  exists (codes : list Z) (w1 : world OS) (ecode : Z),
    wait_each (thread_wait b) (seq 0 (length (tids w))) w = Some (codes, w1)
    /\ length codes = length (tids w)
    /\ thread_multiwait (thread_wait b) 0 len w = Some (ecode, w1)
    /\ thread_multiwait (counted (thread_wait b)) 0 len (w, [])
       = Some (ecode, (w1, seq 0 (length (tids w))))
    /\ (Forall (fun e => e = 0) codes -> ecode = 0)
    /\ (forall (j : nat) (e : Z),
        codes !! j = Some e -> e <> 0 ->
        (forall i e', (i < j)%nat -> codes !! i = Some e' -> e' = 0) ->
        ecode = e).
Proof.
  intros -> Hmax.
  destruct (wait_each_defined b (seq 0 (length (tids w))) w)
    as (codes & w1 & Hw & Hlen).
  { apply Forall_forall. intros p Hp. apply elem_of_seq in Hp. lia. }
  exists codes, w1, (first_error 0 codes).
  split; [exact Hw |].
  split; [rewrite Hlen; apply length_seq |].
  split; [| split; [| split]].
  - unfold thread_multiwait. rewrite Nat2Z.id.
    apply (multiwait_loop_wait_each (thread_wait b) 0 (length (tids w)) 0);
      [exact Hmax | exact Hw].
  - unfold thread_multiwait. rewrite Nat2Z.id.
    apply (multiwait_loop_wait_each (counted (thread_wait b)) 0
             (length (tids w)) 0); [exact Hmax |].
    apply (wait_each_counted (thread_wait b) _ w w1 codes [] Hw).
  - apply first_error_all_zero.
  - apply first_error_smallest.
Qed.

Lemma thread_multiwait_joins_all_witness :
  (4 = Z.of_nat (length (tids four_threads)) /\ 4 <= 2147483647)
  /\ exists (codes : list Z) (w1 : world scripted) (ecode : Z),
    wait_each (thread_wait ThreadC_Unix) (seq 0 (length (tids four_threads)))
      four_threads = Some (codes, w1)
    /\ length codes = length (tids four_threads)
    /\ thread_multiwait (thread_wait ThreadC_Unix) 0 4 four_threads
       = Some (ecode, w1)
    /\ thread_multiwait (counted (thread_wait ThreadC_Unix)) 0 4 (four_threads, [])
       = Some (ecode, (w1, seq 0 (length (tids four_threads))))
    /\ (Forall (fun e => e = 0) codes -> ecode = 0)
    /\ (forall (j : nat) (e : Z),
        codes !! j = Some e -> e <> 0 ->
        (forall i e', (i < j)%nat -> codes !! i = Some e' -> e' = 0) ->
        ecode = e).
Proof.
  assert (Hmax : 4 <= 2147483647) by lia.
  split; [exact (conj eq_refl Hmax) |].
  exact (thread_multiwait_joins_all ThreadC_Unix four_threads 4 eq_refl Hmax).
Defined.

(** The four joins of the example all happen, in order, and the first
    failure (5, at index 1) is the result. *)
Example thread_multiwait_four_threads :
  thread_multiwait (thread_wait ThreadC_Unix) 0 4 four_threads
  = Some (5, World (Scripted [] [] 7 [Join 11; Join 12; Join 13; Join 14])
               [0; 0; 0; 0]).
Proof. vm_compute. reflexivity. Qed.

(** C5, at the input where [thread.c] on Windows departs from it: thread id
    1234 names no thread, [OpenThread] returns [NULL], [thread_wait] returns
    the error code 87 and the id at the pointer is still 1234, not 0. *)
Theorem thread_wait_windows_open_failure_keeps_id :
  thread_wait ThreadC_Windows 0 no_such_thread
  = Some (87, World (Scripted [] [1234] 87 [Open 1234]) [1234]).
Proof. vm_compute. reflexivity. Qed.

(** C10: on POSIX, [rwlock_rdunlock] and [rwlock_wrunlock] are one and the
    same call, [pthread_rwlock_unlock] on the lock they are given: for every
    lock and every state of the system (so whichever mode is held) they
    return the same result and leave the same state. *)
Theorem posix_unlocks_coincide
  {OS : Type} `{!PosixThreads OS} (rwlock : RWLockPtr) (o : OS) :
  rwlock_rdunlock rwlock o = pthread_rwlock_unlock rwlock o
  /\ rwlock_wrunlock rwlock o = pthread_rwlock_unlock rwlock o
  /\ rwlock_rdunlock rwlock o = rwlock_wrunlock rwlock o.
Proof. repeat split; reflexivity. Qed.

(** Both releases reach the system as the same call on the same lock. *)
Example posix_unlocks_same_call (rwlock : RWLockPtr) (s : scripted) :
  received (snd (rwlock_rdunlock rwlock s)) = received s ++ [RWUnlock rwlock]
  /\ received (snd (rwlock_wrunlock rwlock s)) = received s ++ [RWUnlock rwlock].
Proof. split; reflexivity. Qed.

End ThreadClaims.

(** ** The Windows [Mutex] *)

Section MutexFacts.
Import WinMutex.

(** The statements of [mutex_lock] around [initlock]: the thread that finds
    [initlock] at 0 sets it to 1 and tests the flag again; a thread that
    finds it at 1 stays on the compare-and-swap; behind the gate the section
    is initialized only when the flag is still 0, then the flag is set, and
    [initlock] goes back to 0. *)
Lemma initlock_protocol (t : nat) (th : thread) (il : Z) (mx : Mutex) :
  (at_pc th = LockSpin -> il = 0 -> exec t th il mx = (goto LockRetest th, 1, mx))
  /\ (at_pc th = LockSpin -> il <> 0 -> exec t th il mx = (th, il, mx))
  /\ (at_pc th = LockRetest -> init mx = 0 ->
      exec t th il mx = (goto LockInitCS th, il, mx))
  /\ (at_pc th = LockRetest -> init mx <> 0 ->
      exec t th il mx = (goto LockRelease th, il, mx))
  /\ (at_pc th = LockInitCS ->
      exec t th il mx
      = (goto LockSetInit th, il, with_lock (InitializeCriticalSection (lock mx)) mx))
  /\ (at_pc th = LockSetInit ->
      exec t th il mx = (goto LockRelease th, il, with_init 1 mx))
  /\ (at_pc th = LockRelease -> exec t th il mx = (goto LockEnter th, 0, mx)).
Proof.
  unfold exec. repeat split; intros Hp; rewrite Hp; try reflexivity.
  - intros ->. reflexivity.
  - intros Hne. apply Z.eqb_neq in Hne. rewrite Hne. reflexivity.
  - intros ->. reflexivity.
  - intros Hne. apply Z.eqb_neq in Hne. rewrite Hne. reflexivity.
Qed.

(** What a step does: nothing, the start of the next call, or one statement
    of the call in progress. *)
Lemma step_cases (t : nat) (s : state) :
  step t s = s
  \/ (exists th, threads s !! t = Some th /\ at_pc th = Idle
      /\ step t s = {| initlock := initlock s; mutexes := mutexes s;
                       threads := <[t := start th]> (threads s) |})
  \/ (exists th mx, threads s !! t = Some th /\ at_pc th <> Idle
      /\ mutexes s !! arg th = Some mx
      /\ step t s = {| initlock := snd (fst (exec t th (initlock s) mx));
                       mutexes := <[arg th := snd (exec t th (initlock s) mx)]> (mutexes s);
                       threads := <[t := fst (fst (exec t th (initlock s) mx))]> (threads s) |}).
Proof.
  unfold step.
  destruct (threads s !! t) as [th |] eqn:Ht; [| left; reflexivity].
  destruct (at_pc th) eqn:Hpc;
    try (right; left; exists th; repeat split; assumption);
    (destruct (mutexes s !! arg th) as [mx |] eqn:Hm; [| left; reflexivity];
     right; right; exists th, mx;
     split; [reflexivity |]; split; [congruence |]; split; [assumption |];
     destruct (exec t th (initlock s) mx) as [[th1 il1] mx1];
     reflexivity).
Qed.

Ltac split_lookups :=
  repeat match goal with
  | H : <[_ := _]> (threads _) !! _ = Some _ |- _ =>
      apply list_lookup_insert_Some in H;
      destruct H as [(<- & <- & ?) | (? & H)]
  end.

Lemma start_facts (th : thread) :
  at_pc th = Idle ->
  Forall (fun c => locks_only c = true) (todo th) ->
  (at_pc (start th) = Idle \/ at_pc (start th) = LockTest
   \/ at_pc (start th) = UnlockLeave)
  /\ returned (start th) = returned th
  /\ Forall (fun c => locks_only c = true) (todo (start th)).
Proof.
  intros Hpc Hall. unfold start.
  destruct (todo th) as [| c rest] eqn:Htodo.
  - rewrite Htodo. auto.
  - apply Forall_cons in Hall as [Hc Hrest]. simpl.
    split; [| split; [reflexivity | exact Hrest]].
    destruct c; simpl in Hc; try discriminate; auto.
Qed.

Lemma step_inv_start (t : nat) (s : state) (th : thread) :
  Inv s -> threads s !! t = Some th -> at_pc th = Idle ->
  Inv {| initlock := initlock s; mutexes := mutexes s;
         threads := <[t := start th]> (threads s) |}.
Proof.
  intros I Ht Hpc.
  destruct (inv_scripts s I t th Ht) as [_ Hall].
  destruct (start_facts th Hpc Hall) as (Hpc1 & Hret & Hall1).
  assert (Hng : gated (at_pc (start th)) = false)
    by (destruct Hpc1 as [-> | [-> | ->]]; reflexivity).
  constructor; simpl.
  - apply (inv_gate_val s I).
  - intros i thi Hil Hi. split_lookups; subst; [exact Hng |].
    eapply (inv_gate_free s I); eassumption.
  - intros i j thi thj Hi Hj Gi Gj. split_lookups; subst; try congruence.
    eapply (inv_gate_one s I); eassumption.
  - intros i thi Hi. split_lookups; subst.
    + split; [| exact Hall1]. destruct Hpc1 as [-> | [-> | ->]]; reflexivity.
    + eapply (inv_scripts s I); eassumption.
  - apply (inv_init_set s I).
  - intros m mx Hm Hz.
    destruct (inv_init_unset s I m mx Hm Hz) as [H0 | (j & thj & Hj & Hpj & Haj)];
      [left; exact H0 |].
    right. exists j, thj. split; [| split; assumption].
    rewrite list_lookup_insert_ne; [exact Hj |]. intros ->. congruence.
  - apply (inv_owner s I).
  - intros i thi mx Hi Hm Hp. split_lookups; subst;
      [destruct Hpc1 as [E | [E | E]]; congruence |].
    eapply (inv_at_initcs s I); eassumption.
  - intros i thi mx Hi Hm Hp. split_lookups; subst;
      [destruct Hpc1 as [E | [E | E]]; congruence |].
    eapply (inv_at_setinit s I); eassumption.
  - intros i thi mx Hi Hm Hp. split_lookups; subst;
      [destruct Hpc1 as [E | [E | E]]; destruct Hp; congruence |].
    eapply (inv_at_enter s I); eassumption.
  - intros i thi m r mx Hi Hr Hm. split_lookups; subst.
    + rewrite Hret in Hr. eapply (inv_returned s I); eassumption.
    + eapply (inv_returned s I); eassumption.
Qed.

(** A step that only moves thread [t] between two statements on the same
    side of the gate. *)
Lemma step_inv_move (t : nat) (s : state) (th : thread) (p1 : pc) :
  Inv s -> threads s !! t = Some th ->
  gated p1 = gated (at_pc th) -> lock_pc p1 = true ->
  at_pc th <> LockSetInit ->
  p1 <> LockSetInit ->
  (forall mx, mutexes s !! arg th = Some mx ->
     (p1 = LockInitCS -> init mx = 0 /\ cs_inits (lock mx) = 0%nat)
     /\ (p1 = LockRelease \/ p1 = LockEnter -> init mx <> 0)) ->
  Inv {| initlock := initlock s; mutexes := mutexes s;
         threads := <[t := goto p1 th]> (threads s) |}.
Proof.
  intros I Ht Hg Hl Hns Hns1 Hfacts.
  constructor; simpl.
  - apply (inv_gate_val s I).
  - intros i thi Hil Hi. split_lookups; subst; simpl.
    + rewrite Hg. eapply (inv_gate_free s I); eassumption.
    + eapply (inv_gate_free s I); eassumption.
  - intros i j thi thj Hi Hj Gi Gj. split_lookups; subst; simpl in *;
      try rewrite Hg in Gi; try rewrite Hg in Gj; try congruence;
      eapply (inv_gate_one s I); eassumption.
  - intros i thi Hi. split_lookups; subst; simpl.
    + split; [exact Hl |]. apply (inv_scripts s I t th Ht).
    + eapply (inv_scripts s I); eassumption.
  - apply (inv_init_set s I).
  - intros m mx Hm Hz.
    destruct (inv_init_unset s I m mx Hm Hz) as [H0 | (j & thj & Hj & Hpj & Haj)];
      [left; exact H0 |].
    right. exists j, thj. split; [| split; assumption].
    rewrite list_lookup_insert_ne; [exact Hj |]. intros ->. congruence.
  - apply (inv_owner s I).
  - intros i thi mx Hi Hm Hp. split_lookups; subst; simpl in *.
    + apply (Hfacts mx Hm). exact Hp.
    + eapply (inv_at_initcs s I); eassumption.
  - intros i thi mx Hi Hm Hp. split_lookups; subst; simpl in *.
    + congruence.
    + eapply (inv_at_setinit s I); eassumption.
  - intros i thi mx Hi Hm Hp. split_lookups; subst; simpl in *.
    + apply (Hfacts mx Hm). exact Hp.
    + eapply (inv_at_enter s I); eassumption.
  - intros i thi m r mx Hi Hr Hm. split_lookups; subst; simpl in *.
    + eapply (inv_returned s I); eassumption.
    + eapply (inv_returned s I); eassumption.
Qed.

(** Winning the compare-and-swap on [initlock]. *)
Lemma step_inv_cas (t : nat) (s : state) (th : thread) :
  Inv s -> threads s !! t = Some th -> at_pc th = LockSpin -> initlock s = 0 ->
  Inv {| initlock := 1; mutexes := mutexes s;
         threads := <[t := goto LockRetest th]> (threads s) |}.
Proof.
  intros I Ht Hpc Hil.
  constructor; simpl.
  - right. reflexivity.
  - intros i thi Habs. discriminate Habs.
  - intros i j thi thj Hi Hj Gi Gj. split_lookups; subst; simpl in *;
      try congruence;
      try (rewrite (inv_gate_free s I j thj Hil Hj) in Gj; discriminate);
      try (rewrite (inv_gate_free s I i thi Hil Hi) in Gi; discriminate).
  - intros i thi Hi. split_lookups; subst; simpl.
    + split; [reflexivity |]. apply (inv_scripts s I t th Ht).
    + eapply (inv_scripts s I); eassumption.
  - apply (inv_init_set s I).
  - intros m mx Hm Hz.
    destruct (inv_init_unset s I m mx Hm Hz) as [H0 | (j & thj & Hj & Hpj & Haj)];
      [left; exact H0 |].
    right. exists j, thj. split; [| split; assumption].
    rewrite list_lookup_insert_ne; [exact Hj |]. intros ->. congruence.
  - apply (inv_owner s I).
  - intros i thi mx Hi Hm Hp. split_lookups; subst; simpl in *.
    + discriminate.
    + eapply (inv_at_initcs s I); eassumption.
  - intros i thi mx Hi Hm Hp. split_lookups; subst; simpl in *.
    + discriminate.
    + eapply (inv_at_setinit s I); eassumption.
  - intros i thi mx Hi Hm Hp. split_lookups; subst; simpl in *.
    + destruct Hp; discriminate.
    + eapply (inv_at_enter s I); eassumption.
  - intros i thi m r mx Hi Hr Hm. split_lookups; subst; simpl in *.
    + eapply (inv_returned s I); eassumption.
    + eapply (inv_returned s I); eassumption.
Qed.

(** Releasing [initlock]. *)
Lemma step_inv_release (t : nat) (s : state) (th : thread) :
  Inv s -> threads s !! t = Some th -> at_pc th = LockRelease ->
  Inv {| initlock := 0; mutexes := mutexes s;
         threads := <[t := goto LockEnter th]> (threads s) |}.
Proof.
  intros I Ht Hpc.
  assert (Hgt : gated (at_pc th) = true) by (rewrite Hpc; reflexivity).
  constructor; simpl.
  - left. reflexivity.
  - intros i thi _ Hi. split_lookups; subst; simpl; [reflexivity |].
    destruct (gated (at_pc thi)) eqn:Gi; [| reflexivity].
    exfalso. pose proof (inv_gate_one s I _ _ _ _ Ht Hi Hgt Gi). congruence.
  - intros i j thi thj Hi Hj Gi Gj. split_lookups; subst; simpl in *;
      try congruence.
    eapply (inv_gate_one s I); eassumption.
  - intros i thi Hi. split_lookups; subst; simpl.
    + split; [reflexivity |]. apply (inv_scripts s I t th Ht).
    + eapply (inv_scripts s I); eassumption.
  - apply (inv_init_set s I).
  - intros m mx Hm Hz.
    destruct (inv_init_unset s I m mx Hm Hz) as [H0 | (j & thj & Hj & Hpj & Haj)];
      [left; exact H0 |].
    right. exists j, thj. split; [| split; assumption].
    rewrite list_lookup_insert_ne; [exact Hj |]. intros ->. congruence.
  - apply (inv_owner s I).
  - intros i thi mx Hi Hm Hp. split_lookups; subst; simpl in *.
    + discriminate.
    + eapply (inv_at_initcs s I); eassumption.
  - intros i thi mx Hi Hm Hp. split_lookups; subst; simpl in *.
    + discriminate.
    + eapply (inv_at_setinit s I); eassumption.
  - intros i thi mx Hi Hm Hp. split_lookups; subst; simpl in *.
    + apply (inv_at_enter s I t th mx Ht Hm). left. exact Hpc.
    + eapply (inv_at_enter s I); eassumption.
  - intros i thi m r mx Hi Hr Hm. split_lookups; subst; simpl in *.
    + eapply (inv_returned s I); eassumption.
    + eapply (inv_returned s I); eassumption.
Qed.

Ltac split_mutex H :=
  apply list_lookup_insert_Some in H;
  destruct H as [(? & <- & ?) | (? & H)].

(** Thread [t] is past the gate, so no other thread is. *)
Ltac alone_past_gate Hother :=
  match goal with
  | Hne : ?t <> ?k, Hk : threads _ !! ?k = Some ?thk,
    G : gated (at_pc ?thk) = true |- _ =>
      rewrite (Hother k thk Hne Hk) in G; discriminate G
  end.

(** [InitializeCriticalSection] inside [mutex_lock]. *)
Lemma step_inv_initcs (t : nat) (s : state) (th : thread) (mx : Mutex) :
  Inv s -> threads s !! t = Some th -> at_pc th = LockInitCS ->
  mutexes s !! arg th = Some mx ->
  Inv {| initlock := initlock s;
         mutexes := <[arg th := with_lock (InitializeCriticalSection (lock mx)) mx]>
                      (mutexes s);
         threads := <[t := goto LockSetInit th]> (threads s) |}.
Proof.
  intros I Ht Hpc Hm.
  assert (Hgt : gated (at_pc th) = true) by (rewrite Hpc; reflexivity).
  destruct (inv_at_initcs s I t th mx Ht Hm Hpc) as [Hz H0].
  assert (Hother : forall i thi, t <> i -> threads s !! i = Some thi ->
                                 gated (at_pc thi) = false).
  { intros i thi Hne Hi. destruct (gated (at_pc thi)) eqn:Gi; [| reflexivity].
    exfalso. apply Hne. eapply (inv_gate_one s I); eassumption. }
  constructor; simpl.
  - apply (inv_gate_val s I).
  - intros i thi Hil Hi. split_lookups; simpl.
    + rewrite (inv_gate_free s I t th Hil Ht) in Hgt. discriminate.
    + eapply (inv_gate_free s I); eassumption.
  - intros i j thi thj Hi Hj Gi Gj. split_lookups; simpl in *; try congruence;
      try alone_past_gate Hother;
      eapply (inv_gate_one s I); eassumption.
  - intros i thi Hi. split_lookups; simpl.
    + split; [reflexivity |]. apply (inv_scripts s I t th Ht).
    + eapply (inv_scripts s I); eassumption.
  - intros m mx' Hm' Hnz. split_mutex Hm'.
    + simpl in Hnz. congruence.
    + eapply (inv_init_set s I); eassumption.
  - intros m mx' Hm' Hz'. split_mutex Hm'.
    + right. exists t, (goto LockSetInit th).
      split; [| split; [reflexivity | simpl; congruence]].
      apply list_lookup_insert_eq. eapply lookup_lt_Some. exact Ht.
    + destruct (inv_init_unset s I m mx' Hm' Hz') as [Hl | (j & thj & Hj & Hpj & Haj)];
        [left; exact Hl |].
      right. exists j, thj. split; [| split; assumption].
      rewrite list_lookup_insert_ne; [exact Hj |]. intros ->. congruence.
  - intros m mx' Hm' Ho. split_mutex Hm'.
    + simpl in Ho. congruence.
    + eapply (inv_owner s I); eassumption.
  - intros i thi mx' Hi Hm' Hp. split_lookups; simpl in *.
    + discriminate.
    + assert (G : gated (at_pc thi) = true) by (rewrite Hp; reflexivity).
      rewrite (Hother i thi) in G by assumption. discriminate.
  - intros i thi mx' Hi Hm' Hp. split_lookups; simpl in *.
    + split_mutex Hm'; [simpl; auto | congruence].
    + assert (G : gated (at_pc thi) = true) by (rewrite Hp; reflexivity).
      rewrite (Hother i thi) in G by assumption. discriminate.
  - intros i thi mx' Hi Hm' Hp. split_lookups; simpl in *.
    + destruct Hp; discriminate.
    + split_mutex Hm'.
      * exfalso. apply (inv_at_enter s I i thi mx Hi); [congruence | exact Hp | exact Hz].
      * eapply (inv_at_enter s I); eassumption.
  - intros i thi m r mx' Hi Hr Hm'.
    assert (Hold : exists th0, threads s !! i = Some th0
                               /\ (Mutex_lock m, r) ∈ returned th0).
    { split_lookups; eauto. }
    destruct Hold as (th0 & Hi0 & Hr0).
    split_mutex Hm'.
    + exfalso. subst m.
      apply (inv_returned s I i th0 (arg th) r mx Hi0 Hr0 Hm). exact Hz.
    + eapply (inv_returned s I); eassumption.
Qed.

(** [mutex->init = 1] inside [mutex_lock]. *)
Lemma step_inv_setinit (t : nat) (s : state) (th : thread) (mx : Mutex) :
  Inv s -> threads s !! t = Some th -> at_pc th = LockSetInit ->
  mutexes s !! arg th = Some mx ->
  Inv {| initlock := initlock s;
         mutexes := <[arg th := with_init 1 mx]> (mutexes s);
         threads := <[t := goto LockRelease th]> (threads s) |}.
Proof.
  intros I Ht Hpc Hm.
  assert (Hgt : gated (at_pc th) = true) by (rewrite Hpc; reflexivity).
  destruct (inv_at_setinit s I t th mx Ht Hm Hpc) as (Hz & H1 & Hv).
  assert (Hother : forall i thi, t <> i -> threads s !! i = Some thi ->
                                 gated (at_pc thi) = false).
  { intros i thi Hne Hi. destruct (gated (at_pc thi)) eqn:Gi; [| reflexivity].
    exfalso. apply Hne. eapply (inv_gate_one s I); eassumption. }
  constructor; simpl.
  - apply (inv_gate_val s I).
  - intros i thi Hil Hi. split_lookups; simpl.
    + rewrite (inv_gate_free s I t th Hil Ht) in Hgt. discriminate.
    + eapply (inv_gate_free s I); eassumption.
  - intros i j thi thj Hi Hj Gi Gj. split_lookups; simpl in *; try congruence;
      try alone_past_gate Hother;
      eapply (inv_gate_one s I); eassumption.
  - intros i thi Hi. split_lookups; simpl.
    + split; [reflexivity |]. apply (inv_scripts s I t th Ht).
    + eapply (inv_scripts s I); eassumption.
  - intros m mx' Hm' Hnz. split_mutex Hm'.
    + simpl. auto.
    + eapply (inv_init_set s I); eassumption.
  - intros m mx' Hm' Hz'. split_mutex Hm'.
    + simpl in Hz'. discriminate.
    + destruct (inv_init_unset s I m mx' Hm' Hz') as [Hl | (j & thj & Hj & Hpj & Haj)];
        [left; exact Hl |].
      right. exists j, thj. split; [| split; assumption].
      rewrite list_lookup_insert_ne; [exact Hj |]. intros ->. congruence.
  - intros m mx' Hm' Ho. split_mutex Hm'.
    + simpl. discriminate.
    + eapply (inv_owner s I); eassumption.
  - intros i thi mx' Hi Hm' Hp. split_lookups; simpl in *.
    + discriminate.
    + assert (G : gated (at_pc thi) = true) by (rewrite Hp; reflexivity).
      rewrite (Hother i thi) in G by assumption. discriminate.
  - intros i thi mx' Hi Hm' Hp. split_lookups; simpl in *.
    + discriminate.
    + assert (G : gated (at_pc thi) = true) by (rewrite Hp; reflexivity).
      rewrite (Hother i thi) in G by assumption. discriminate.
  - intros i thi mx' Hi Hm' Hp. split_lookups; simpl in *.
    + split_mutex Hm'; [simpl; discriminate | congruence].
    + split_mutex Hm'; [simpl; discriminate |].
      eapply (inv_at_enter s I); eassumption.
  - intros i thi m r mx' Hi Hr Hm'.
    assert (Hold : exists th0, threads s !! i = Some th0
                               /\ (Mutex_lock m, r) ∈ returned th0).
    { split_lookups; eauto. }
    destruct Hold as (th0 & Hi0 & Hr0).
    split_mutex Hm'.
    + simpl. discriminate.
    + eapply (inv_returned s I); eassumption.
Qed.

(** A statement that returns from [mutex_lock] or [mutex_unlock] and leaves
    the section [cs1] in the mutex. *)
Lemma step_inv_ret (t : nat) (s : state) (th : thread) (mx : Mutex)
  (c : call) (r : Z) (cs1 : CRITICAL_SECTION) :
  Inv s -> threads s !! t = Some th -> mutexes s !! arg th = Some mx ->
  at_pc th = LockEnter \/ at_pc th = UnlockLeave ->
  cs_inits cs1 = cs_inits (lock mx) -> cs_valid cs1 = cs_valid (lock mx) ->
  (cs_owner cs1 <> None -> init mx <> 0) ->
  (forall m, c = Mutex_lock m -> m = arg th /\ init mx <> 0) ->
  Inv {| initlock := initlock s;
         mutexes := <[arg th := with_lock cs1 mx]> (mutexes s);
         threads := <[t := ret c r th]> (threads s) |}.
Proof.
  intros I Ht Hm Hpc Hin Hva Hown Hc.
  assert (Hgt : gated (at_pc th) = false) by (destruct Hpc as [-> | ->]; reflexivity).
  assert (Hns : at_pc th <> LockSetInit) by (destruct Hpc as [-> | ->]; discriminate).
  constructor; simpl.
  - apply (inv_gate_val s I).
  - intros i thi Hil Hi. split_lookups; simpl; [reflexivity |].
    eapply (inv_gate_free s I); eassumption.
  - intros i j thi thj Hi Hj Gi Gj. split_lookups; simpl in *; try congruence.
    eapply (inv_gate_one s I); eassumption.
  - intros i thi Hi. split_lookups; simpl.
    + split; [reflexivity |]. apply (inv_scripts s I t th Ht).
    + eapply (inv_scripts s I); eassumption.
  - intros m mx' Hm' Hnz. split_mutex Hm'.
    + simpl in *. rewrite Hin, Hva. subst m.
      eapply (inv_init_set s I); eassumption.
    + eapply (inv_init_set s I); eassumption.
  - intros m mx' Hm' Hz'.
    assert (Hold : exists mx0, mutexes s !! m = Some mx0 /\ init mx0 = 0
                               /\ cs_inits (lock mx') = cs_inits (lock mx0)).
    { split_mutex Hm'.
      - subst m. exists mx. simpl in *. auto.
      - exists mx'. auto. }
    destruct Hold as (mx0 & Hm0 & Hz0 & Hin0).
    destruct (inv_init_unset s I m mx0 Hm0 Hz0) as [Hl | (j & thj & Hj & Hpj & Haj)];
      [left; congruence |].
    right. exists j, thj. split; [| split; assumption].
    rewrite list_lookup_insert_ne; [exact Hj |]. intros ->. congruence.
  - intros m mx' Hm' Ho. split_mutex Hm'.
    + simpl in *. auto.
    + eapply (inv_owner s I); eassumption.
  - intros i thi mx' Hi Hm' Hp. split_lookups; simpl in *; [discriminate |].
    split_mutex Hm'.
    + simpl. rewrite Hin.
      apply (inv_at_initcs s I i thi mx Hi); [congruence | exact Hp].
    + eapply (inv_at_initcs s I); eassumption.
  - intros i thi mx' Hi Hm' Hp. split_lookups; simpl in *; [discriminate |].
    split_mutex Hm'.
    + simpl. rewrite Hin, Hva.
      apply (inv_at_setinit s I i thi mx Hi); [congruence | exact Hp].
    + eapply (inv_at_setinit s I); eassumption.
  - intros i thi mx' Hi Hm' Hp. split_lookups; simpl in *;
      [destruct Hp; discriminate |].
    split_mutex Hm'.
    + simpl. apply (inv_at_enter s I i thi mx Hi); [congruence | exact Hp].
    + eapply (inv_at_enter s I); eassumption.
  - intros i thi m r' mx' Hi Hr Hm'.
    assert (Hmx : exists mx0, mutexes s !! m = Some mx0 /\ init mx' = init mx0).
    { split_mutex Hm'.
      - subst m. exists mx. simpl. auto.
      - exists mx'. auto. }
    destruct Hmx as (mx0 & Hm0 & ->).
    split_lookups; simpl in *.
    + apply elem_of_app in Hr as [Hr | Hr].
      * eapply (inv_returned s I); eassumption.
      * apply list_elem_of_singleton in Hr. injection Hr as Hc' _.
        destruct (Hc m (eq_sym Hc')) as [-> Hnz]. congruence.
    + eapply (inv_returned s I); eassumption.
Qed.

Lemma state_same (s : state) (t m : nat) (th : thread) (mx : Mutex) :
  threads s !! t = Some th -> mutexes s !! m = Some mx ->
  {| initlock := initlock s; mutexes := <[m := mx]> (mutexes s);
     threads := <[t := th]> (threads s) |} = s.
Proof.
  intros Ht Hm. rewrite (list_insert_id _ _ _ Ht), (list_insert_id _ _ _ Hm).
  destruct s; reflexivity.
Qed.

Lemma enter_keeps (t : nat) (cs cs1 : CRITICAL_SECTION) :
  EnterCriticalSection t cs = Some cs1 ->
  cs_inits cs1 = cs_inits cs /\ cs_valid cs1 = cs_valid cs /\ cs_owner cs1 = Some t.
Proof.
  unfold EnterCriticalSection. intros H.
  destruct (cs_owner cs) as [o |].
  - destruct (o =? t)%nat; [| discriminate]. injection H as <-. auto.
  - injection H as <-. auto.
Qed.

Lemma leave_keeps (cs : CRITICAL_SECTION) :
  cs_inits (LeaveCriticalSection cs) = cs_inits cs
  /\ cs_valid (LeaveCriticalSection cs) = cs_valid cs
  /\ (cs_owner (LeaveCriticalSection cs) = None
      \/ cs_owner (LeaveCriticalSection cs) = cs_owner cs).
Proof.
  unfold LeaveCriticalSection. destruct (cs_depth cs) as [| [| d]]; simpl; auto.
Qed.

(** Every step keeps the invariant. *)
Lemma step_inv (t : nat) (s : state) : Inv s -> Inv (step t s).
Proof.
  intros I.
  destruct (step_cases t s)
    as [-> | [(th & Ht & Hpc & ->) | (th & mx & Ht & Hpc & Hm & ->)]].
  - exact I.
  - apply step_inv_start; assumption.
  - destruct (inv_scripts s I t th Ht) as [Hlpc _].
    unfold exec.
    destruct (at_pc th) eqn:Hp; try discriminate Hlpc; try congruence.
    + (* LockTest *)
      destruct (init mx =? 0) eqn:E; simpl;
        rewrite (list_insert_id _ _ _ Hm);
        apply step_inv_move; try assumption; try (rewrite Hp; reflexivity);
        try reflexivity; try congruence;
        intros mx' Hm'; assert (mx' = mx) as -> by congruence;
        (split; [discriminate |]); intros [? | ?]; try discriminate.
      apply Z.eqb_neq. exact E.
    + (* LockSpin *)
      destruct (initlock s =? 0) eqn:E; simpl.
      * rewrite (list_insert_id _ _ _ Hm).
        apply step_inv_cas; try assumption. apply Z.eqb_eq. exact E.
      * rewrite (state_same s t (arg th) th mx Ht Hm). exact I.
    + (* LockRetest *)
      assert (Hgt : gated (at_pc th) = true) by (rewrite Hp; reflexivity).
      destruct (init mx =? 0) eqn:E; simpl;
        rewrite (list_insert_id _ _ _ Hm);
        apply step_inv_move; try assumption; try (rewrite Hp; reflexivity);
        try reflexivity; try congruence;
        intros mx' Hm'; assert (mx' = mx) as -> by congruence.
      * apply Z.eqb_eq in E. split; [| intros [? | ?]; discriminate].
        intros _. split; [exact E |].
        destruct (inv_init_unset s I (arg th) mx Hm E)
          as [H0 | (j & thj & Hj & Hpj & Haj)]; [exact H0 |].
        exfalso.
        assert (j = t).
        { eapply (inv_gate_one s I); try eassumption. rewrite Hpj. reflexivity. }
        subst j. congruence.
      * apply Z.eqb_neq in E. split; [discriminate |]. intros _. exact E.
    + (* LockInitCS *)
      simpl. apply step_inv_initcs; assumption.
    + (* LockSetInit *)
      simpl. apply step_inv_setinit; assumption.
    + (* LockRelease *)
      simpl. rewrite (list_insert_id _ _ _ Hm).
      apply step_inv_release; assumption.
    + (* LockEnter *)
      destruct (EnterCriticalSection t (lock mx)) as [cs1 |] eqn:E; simpl.
      * destruct (enter_keeps t _ _ E) as (Hin & Hva & Hown).
        assert (Hnz : init mx <> 0)
          by (apply (inv_at_enter s I t th mx Ht Hm); right; exact Hp).
        apply step_inv_ret; try assumption.
        -- left. exact Hp.
        -- intros _. exact Hnz.
        -- intros m Hc. injection Hc as <-. auto.
      * rewrite (state_same s t (arg th) th mx Ht Hm). exact I.
    + (* UnlockLeave *)
      simpl. destruct (leave_keeps (lock mx)) as (Hin & Hva & Hown).
      apply step_inv_ret; try assumption.
      * right. exact Hp.
      * intros Ho. apply (inv_owner s I (arg th) mx Hm).
        destruct Hown as [Hn | Hsame]; congruence.
      * intros m Hc. discriminate Hc.
Qed.

Lemma run_inv (sched : list nat) : forall s, Inv s -> Inv (run sched s).
Proof.
  induction sched as [| t sched IH]; intros s I.
  - exact I.
  - simpl. apply IH. apply step_inv. exact I.
Qed.

Lemma boot_thread (scripts : list (list call)) (i : nat) (th : thread) :
  map new_thread scripts !! i = Some th ->
  exists sc, scripts !! i = Some sc /\ th = new_thread sc.
Proof.
  change (map new_thread scripts) with (new_thread <$> scripts).
  intros H. apply list_lookup_fmap_Some in H as (sc & Hsc & ->). eauto.
Qed.

Lemma boot_inv (n : nat) (scripts : list (list call)) :
  Forall (Forall (fun c => locks_only c = true)) scripts ->
  Inv (boot n scripts).
Proof.
  intros Hall.
  constructor; unfold boot; simpl.
  - left. reflexivity.
  - intros i th _ Hi. apply boot_thread in Hi as (sc & _ & ->). reflexivity.
  - intros i j thi thj Hi _ Gi _. apply boot_thread in Hi as (sc & _ & ->).
    discriminate Gi.
  - intros i th Hi. apply boot_thread in Hi as (sc & Hsc & ->).
    split; [reflexivity |]. simpl.
    eapply Forall_lookup_1; eassumption.
  - intros m mx Hm Hnz. apply lookup_replicate in Hm as [-> _].
    exfalso. apply Hnz. reflexivity.
  - intros m mx Hm _. apply lookup_replicate in Hm as [-> _]. left. reflexivity.
  - intros m mx Hm Ho. apply lookup_replicate in Hm as [-> _].
    exfalso. apply Ho. reflexivity.
  - intros i th mx Hi _ Hp. apply boot_thread in Hi as (sc & _ & ->). discriminate Hp.
  - intros i th mx Hi _ Hp. apply boot_thread in Hi as (sc & _ & ->). discriminate Hp.
  - intros i th mx Hi _ Hp. apply boot_thread in Hi as (sc & _ & ->).
    destruct Hp; discriminate.
  - intros i th m r mx Hi Hr. apply boot_thread in Hi as (sc & _ & ->).
    simpl in Hr. apply elem_of_nil in Hr. destruct Hr.
Qed.

(** The race of the example ends with both calls of [mutex_lock] and both
    of [mutex_unlock] returned and one initialization. *)
Example racing_schedule_outcome :
  run racing_schedule (boot 1 two_lockers)
  = {| initlock := 0;
       mutexes := [{| lock := {| cs_valid := true; cs_owner := None;
                                 cs_depth := 0; cs_inits := 1 |};
                      init := 1 |}];
       threads :=
         [{| at_pc := Idle; arg := 0; todo := [];
             returned := [(Mutex_lock 0%nat, 0); (Mutex_unlock 0%nat, 0)] |};
          {| at_pc := Idle; arg := 0; todo := [];
             returned := [(Mutex_lock 0%nat, 0); (Mutex_unlock 0%nat, 0)] |}] |}.
Proof. vm_compute. reflexivity. Qed.

(** Both threads of the example pass the first test of the flag before
    either initializes: after eight steps one is past the gate and about to
    initialize, the other spins on [initlock]. *)
Example racing_schedule_midway :
  at_pc <$> threads (run (take 8 racing_schedule) (boot 1 two_lockers))
  = [LockInitCS; LockSpin].
Proof. vm_compute. reflexivity. Qed.

Lemma exec_keeps (t : nat) (th : thread) (il : Z) (mx : Mutex) :
  arg (fst (fst (exec t th il mx))) = arg th
  /\ todo (fst (fst (exec t th il mx))) = todo th.
Proof.
  unfold exec.
  destruct (at_pc th); simpl; auto;
    repeat match goal with
           | |- context [if ?b then _ else _] => destruct b; simpl; auto
           | |- context [match EnterCriticalSection ?t ?c with _ => _ end] =>
               destruct (EnterCriticalSection t c); simpl; auto
           end.
Qed.

Lemma exec_returned (t : nat) (th : thread) (il : Z) (mx : Mutex) :
  returned (fst (fst (exec t th il mx))) = returned th
  \/ exists c, returned (fst (fst (exec t th il mx))) = returned th ++ [(c, 0)].
Proof.
  unfold exec.
  destruct (at_pc th); simpl; eauto;
    repeat match goal with
           | |- context [if ?b then _ else _] => destruct b; simpl; eauto
           | |- context [match EnterCriticalSection ?t ?c with _ => _ end] =>
               destruct (EnterCriticalSection t c); simpl; eauto
           end.
Qed.

Lemma start_on_mutex (m : nat) (th : thread) :
  on_mutex m th -> on_mutex m (start th).
Proof.
  intros [Hall Harg]. unfold start.
  destruct (todo th) as [| c rest] eqn:Htodo.
  - split; [rewrite Htodo; exact Hall | exact Harg].
  - apply Forall_cons in Hall as [Hc Hrest]. split; simpl; auto.
Qed.

Lemma step_exec (t : nat) (s : state) (th : thread) (mx : Mutex) :
  threads s !! t = Some th -> at_pc th <> Idle ->
  mutexes s !! arg th = Some mx ->
  step t s
  = {| initlock := snd (fst (exec t th (initlock s) mx));
       mutexes := <[arg th := snd (exec t th (initlock s) mx)]> (mutexes s);
       threads := <[t := fst (fst (exec t th (initlock s) mx))]> (threads s) |}.
Proof.
  intros Ht Hp Hm. unfold step. rewrite Ht.
  destruct (at_pc th); try congruence;
    rewrite Hm; destruct (exec t th (initlock s) mx) as [[th1 il1] mx1];
    reflexivity.
Qed.

Lemma step_start (t : nat) (s : state) (th : thread) :
  threads s !! t = Some th -> at_pc th = Idle ->
  step t s
  = {| initlock := initlock s; mutexes := mutexes s;
       threads := <[t := start th]> (threads s) |}.
Proof. intros Ht Hp. unfold step. rewrite Ht, Hp. reflexivity. Qed.

Lemma local_idle (t : nat) (th : thread) (il : Z) (mx : Mutex) :
  at_pc th = Idle -> local t (th, il, mx) = (start th, il, mx).
Proof. intros Hp. unfold local. simpl. rewrite Hp. reflexivity. Qed.

Lemma local_busy (t : nat) (th : thread) (il : Z) (mx : Mutex) :
  at_pc th <> Idle -> local t (th, il, mx) = exec t th il mx.
Proof. intros Hp. unfold local. simpl. destruct (at_pc th); congruence. Qed.

Lemma step_local (t m : nat) (s : state) (th : thread) (mx : Mutex) :
  threads s !! t = Some th -> mutexes s !! m = Some mx -> on_mutex m th ->
  step t s
  = {| initlock := snd (fst (local t (th, initlock s, mx)));
       mutexes := <[m := snd (local t (th, initlock s, mx))]> (mutexes s);
       threads := <[t := fst (fst (local t (th, initlock s, mx)))]> (threads s) |}
  /\ on_mutex m (fst (fst (local t (th, initlock s, mx)))).
Proof.
  intros Ht Hm Hon.
  destruct (decide (at_pc th = Idle)) as [Hp | Hp].
  - rewrite (local_idle t th _ mx Hp). simpl.
    rewrite (step_start t s th Ht Hp), (list_insert_id _ _ _ Hm).
    split; [reflexivity | apply start_on_mutex; exact Hon].
  - rewrite (local_busy t th _ mx Hp).
    destruct Hon as [Hall [Hidle | Harg]]; [congruence |].
    subst m. rewrite (step_exec t s th mx Ht Hp Hm).
    split; [reflexivity |].
    destruct (exec_keeps t th (initlock s) mx) as [Ka Kt].
    split; [rewrite Kt; exact Hall | right; exact Ka].
Qed.

Lemma run_local (t m : nat) (k : nat) :
  forall (s : state) (th : thread) (mx : Mutex),
  threads s !! t = Some th -> mutexes s !! m = Some mx -> on_mutex m th ->
  run (repeat t k) s
  = {| initlock := snd (fst (Nat.iter k (local t) (th, initlock s, mx)));
       mutexes := <[m := snd (Nat.iter k (local t) (th, initlock s, mx))]> (mutexes s);
       threads :=
         <[t := fst (fst (Nat.iter k (local t) (th, initlock s, mx)))]> (threads s) |}.
Proof.
  induction k as [| k IH]; intros s th mx Ht Hm Hon.
  - simpl. symmetry. apply state_same; assumption.
  - rewrite Nat.iter_succ_r.
    change (run (repeat t (S k)) s) with (run (repeat t k) (step t s)).
    destruct (step_local t m s th mx Ht Hm Hon) as [-> Hon1].
    destruct (local t (th, initlock s, mx)) as [[th1 il1] mx1].
    simpl in Hon1 |- *.
    rewrite (IH _ th1 mx1); simpl.
    + rewrite !list_insert_insert_eq. reflexivity.
    + apply list_lookup_insert_eq. eapply lookup_lt_Some. exact Ht.
    + apply list_lookup_insert_eq. eapply lookup_lt_Some. exact Hm.
    + exact Hon1.
Qed.

Lemma iter_local (k t : nat) (x y : thread * Z * Mutex) :
  local t x = y -> Nat.iter (S k) (local t) x = Nat.iter k (local t) y.
Proof. intros <-. apply Nat.iter_succ_r. Qed.

Ltac solo :=
  erewrite iter_local by (cbn; reflexivity).

Lemma solo_lock (t m : nat) (a : nat) (rt : list (call * Z)) (il : Z) (mx : Mutex) :
  (init mx = 0 /\ il = 0)
  \/ (init mx <> 0 /\ (cs_owner (lock mx) = None \/ cs_owner (lock mx) = Some t)) ->
  exists a1 il1 mx1,
    Nat.iter 8 (local t)
      ({| at_pc := Idle; arg := a; todo := [Mutex_lock m]; returned := rt |}, il, mx)
    = ({| at_pc := Idle; arg := a1; todo := [];
          returned := rt ++ [(Mutex_lock m, 0)] |}, il1, mx1).
Proof.
  intros H. destruct mx as [cs i]. simpl in H.
  solo. solo.
  destruct H as [[-> ->] | [Hnz Hown]].
  - solo. solo. solo. solo. solo. solo. simpl. eauto.
  - replace (i =? 0) with false by (symmetry; apply Z.eqb_neq; exact Hnz).
    solo.
    assert (exists cs1, EnterCriticalSection t cs = Some cs1) as [cs1 ->].
    { unfold EnterCriticalSection. destruct Hown as [-> | ->]; [eauto |].
      rewrite Nat.eqb_refl. eauto. }
    solo. solo. solo. solo. solo. simpl. eauto.
Qed.

Lemma start_returned (th : thread) : returned (start th) = returned th.
Proof. unfold start. destruct (todo th); reflexivity. Qed.

Lemma step_all_zero (t : nat) (s : state) : all_zero s -> all_zero (step t s).
Proof.
  intros Hz.
  destruct (step_cases t s)
    as [-> | [(th & Ht & Hpc & ->) | (th & mx & Ht & Hpc & Hm & ->)]].
  - exact Hz.
  - intros i thi Hi. simpl in Hi. split_lookups.
    + rewrite start_returned. apply (Hz t th Ht).
    + apply (Hz i thi Hi).
  - intros i thi Hi. simpl in Hi. split_lookups.
    + destruct (exec_returned t th (initlock s) mx) as [-> | [c ->]].
      * apply (Hz t th Ht).
      * apply Forall_app. split; [apply (Hz t th Ht) |].
        apply Forall_singleton. reflexivity.
    + apply (Hz i thi Hi).
Qed.

Lemma run_all_zero (sched : list nat) : forall s, all_zero s -> all_zero (run sched s).
Proof.
  induction sched as [| t sched IH]; intros s Hz.
  - exact Hz.
  - simpl. apply IH, step_all_zero, Hz.
Qed.

Lemma solo_unlock (t m : nat) (a : nat) (rt : list (call * Z)) (il : Z) (mx : Mutex) :
  Nat.iter 2 (local t)
    ({| at_pc := Idle; arg := a; todo := [Mutex_unlock m]; returned := rt |}, il, mx)
  = ({| at_pc := Idle; arg := m; todo := [];
        returned := rt ++ [(Mutex_unlock m, 0)] |}, il,
     with_lock (LeaveCriticalSection (lock mx)) mx).
Proof. reflexivity. Qed.

(** C3: on Windows every [mutex_lock] and [mutex_unlock] that returns,
    returns 0, from any state of the mutexes and under any interleaving: the
    two functions have no other [return].  And they do return: a thread
    running alone gets its 0 from [mutex_lock] within 8 steps when the gate
    is free (or the flag set) and no other thread owns the section, and from
    [mutex_unlock] within 2. *)
Theorem windows_lock_unlock_return_zero :
  (forall (s : state) (sched : list nat) (t : nat) (th : thread) (c : call) (r : Z),
     (forall i thi, threads s !! i = Some thi -> returned thi = []) ->
     threads (run sched s) !! t = Some th -> (c, r) ∈ returned th ->
     locks_only c = true -> r = 0)
  /\ (forall (s : state) (t m : nat) (th : thread) (mx : Mutex),
      threads s !! t = Some th -> mutexes s !! m = Some mx -> at_pc th = Idle ->
      (todo th = [Mutex_lock m] ->
       (init mx = 0 /\ initlock s = 0)
       \/ (init mx <> 0
           /\ (cs_owner (lock mx) = None \/ cs_owner (lock mx) = Some t)) ->
       exists th1, threads (run (repeat t 8) s) !! t = Some th1
                   /\ at_pc th1 = Idle
                   /\ returned th1 = returned th ++ [(Mutex_lock m, 0)])
      /\ (todo th = [Mutex_unlock m] ->
          exists th1, threads (run (repeat t 2) s) !! t = Some th1
                      /\ at_pc th1 = Idle
                      /\ returned th1 = returned th ++ [(Mutex_unlock m, 0)])).
Proof.
  split.
  - intros s sched t th c r Hnil Ht Hr _.
    assert (Hz : all_zero (run sched s)).
    { apply run_all_zero. intros i thi Hi. rewrite (Hnil i thi Hi). constructor. }
    pose proof (Hz t th Ht) as Hall.
    rewrite Forall_forall in Hall. apply (Hall (c, r) Hr).
  - intros s t m th mx Ht Hm Hp.
    assert (Hlt : (t < length (threads s))%nat) by (eapply lookup_lt_Some; exact Ht).
    split; intros Htodo.
    + intros Hcan.
      rewrite (run_local t m 8 s th mx Ht Hm)
        by (split; [rewrite Htodo; repeat constructor | left; exact Hp]).
      destruct th as [p a td rt]. simpl in Hp, Htodo. subst p td.
      destruct (solo_lock t m a rt (initlock s) mx Hcan) as (a1 & il1 & mx1 & ->).
      simpl. rewrite list_lookup_insert_eq by exact Hlt.
      eexists. split; [reflexivity |]. split; reflexivity.
    + rewrite (run_local t m 2 s th mx Ht Hm)
        by (split; [rewrite Htodo; repeat constructor | left; exact Hp]).
      destruct th as [p a td rt]. simpl in Hp, Htodo. subst p td.
      rewrite solo_unlock.
      simpl. rewrite list_lookup_insert_eq by exact Hlt.
      eexists. split; [reflexivity |]. split; reflexivity.
Qed.

Lemma windows_lock_unlock_return_zero_witness :
  (threads (boot 1 two_lockers) !! 0%nat = Some (new_thread [Mutex_lock 0%nat; Mutex_unlock 0%nat])
   /\ threads end_then_lock !! 0%nat = Some (new_thread [Mutex_end 0%nat; Mutex_lock 0%nat]))
  /\ (forall th r,
      threads (run racing_schedule (boot 1 two_lockers)) !! 1%nat = Some th ->
      (Mutex_lock 0%nat, r) ∈ returned th -> r = 0)
  /\ (exists th1,
      threads (run (repeat 0%nat 2)
                 {| initlock := 1; mutexes := [initialized_mutex];
                    threads := [new_thread [Mutex_unlock 0%nat]] |}) !! 0%nat
      = Some th1
      /\ at_pc th1 = Idle
      /\ returned th1 = [] ++ [(Mutex_unlock 0%nat, 0)]).
Proof.
  split; [split; reflexivity |].
  destruct windows_lock_unlock_return_zero as [Hzero Hreturns].
  split.
  - intros th r Hth Hr.
    apply (Hzero (boot 1 two_lockers) racing_schedule 1%nat th (Mutex_lock 0%nat) r).
    + intros i thi Hi. apply boot_thread in Hi as (sc & _ & ->). reflexivity.
    + exact Hth.
    + exact Hr.
    + reflexivity.
  - apply (Hreturns {| initlock := 1; mutexes := [initialized_mutex];
                       threads := [new_thread [Mutex_unlock 0%nat]] |}
             0%nat 0%nat (new_thread [Mutex_unlock 0%nat]) initialized_mutex);
      reflexivity.
Defined.

Lemma solo_end_then_lock (t m a : nat) (rt : list (call * Z)) (il : Z) (mx : Mutex) :
  let th0 := {| at_pc := Idle; arg := a; todo := [Mutex_end m; Mutex_lock m];
                returned := rt |} in
  let mx3 := with_init 0 (with_lock (DeleteCriticalSection (lock mx)) mx) in
  Nat.iter 3 (local t) (th0, il, mx)
  = ({| at_pc := Idle; arg := m; todo := [Mutex_lock m];
        returned := rt ++ [(Mutex_end m, 0)] |}, il, mx3)
  /\ Nat.iter 5 (local t) (th0, il, mx)
     = ({| at_pc := LockSpin; arg := m; todo := [];
           returned := rt ++ [(Mutex_end m, 0)] |}, il, mx3)
  /\ (il = 0 ->
      Nat.iter 11 (local t) (th0, il, mx)
      = ({| at_pc := Idle; arg := m; todo := [];
            returned := (rt ++ [(Mutex_end m, 0)]) ++ [(Mutex_lock m, 0)] |}, 0,
         {| lock := {| cs_valid := true; cs_owner := Some t; cs_depth := 1;
                       cs_inits := S (cs_inits (lock mx)) |};
            init := 1 |})).
Proof.
  intros th0 mx3. split; [reflexivity |]. split; [reflexivity |].
  intros ->. reflexivity.
Qed.

(** C4: on Windows, [mutex_end] ([mutex_free] in [mpthread.h]) on an
    initialized mutex deletes the critical section, sets the flag back to 0
    and returns 0; the next [mutex_lock] on it finds the flag unset and goes
    for [initlock] again, initializes the section once more and acquires
    it. *)
Theorem mutex_end_resets_for_deferred_init
  (s : state) (t m : nat) (th : thread) (mx : Mutex) :
  threads s !! t = Some th -> mutexes s !! m = Some mx ->
  at_pc th = Idle -> todo th = [Mutex_end m; Mutex_lock m] ->
  init mx <> 0 -> cs_valid (lock mx) = true ->
  (exists th3 mx3,
     threads (run (repeat t 3) s) !! t = Some th3
     /\ mutexes (run (repeat t 3) s) !! m = Some mx3
     /\ at_pc th3 = Idle
     /\ returned th3 = returned th ++ [(Mutex_end m, 0)]
     /\ init mx3 = 0
     /\ cs_valid (lock mx3) = false /\ cs_owner (lock mx3) = None)
  /\ (exists th5,
      threads (run (repeat t 5) s) !! t = Some th5 /\ at_pc th5 = LockSpin)
  /\ (initlock s = 0 ->
      exists th11 mx11,
        threads (run (repeat t 11) s) !! t = Some th11
        /\ mutexes (run (repeat t 11) s) !! m = Some mx11
        /\ returned th11 = returned th ++ [(Mutex_end m, 0); (Mutex_lock m, 0)]
        /\ init mx11 = 1
        /\ cs_valid (lock mx11) = true
        /\ cs_inits (lock mx11) = S (cs_inits (lock mx))
        /\ cs_owner (lock mx11) = Some t).
Proof.
  intros Ht Hm Hp Htodo _ _.
  assert (Hlt : (t < length (threads s))%nat) by (eapply lookup_lt_Some; exact Ht).
  assert (Hlm : (m < length (mutexes s))%nat) by (eapply lookup_lt_Some; exact Hm).
  assert (Hon : on_mutex m th)
    by (split; [rewrite Htodo; repeat constructor | left; exact Hp]).
  destruct th as [p a td rt]. simpl in Hp, Htodo. subst p td.
  destruct (solo_end_then_lock t m a rt (initlock s) mx) as (E3 & E5 & E11).
  split; [| split].
  - rewrite (run_local t m 3 s _ mx Ht Hm Hon), E3. simpl.
    rewrite !list_lookup_insert_eq by assumption.
    eexists _, _. repeat split; reflexivity.
  - rewrite (run_local t m 5 s _ mx Ht Hm Hon), E5. simpl.
    rewrite !list_lookup_insert_eq by assumption.
    eexists. split; reflexivity.
  - intros Hil. rewrite (run_local t m 11 s _ mx Ht Hm Hon), (E11 Hil). simpl.
    rewrite !list_lookup_insert_eq by assumption.
    eexists _, _. rewrite <- app_assoc. repeat split; reflexivity.
Qed.

Lemma mutex_end_resets_for_deferred_init_witness :
  (threads end_then_lock !! 0%nat = Some (new_thread [Mutex_end 0%nat; Mutex_lock 0%nat])
   /\ mutexes end_then_lock !! 0%nat = Some initialized_mutex
   /\ init initialized_mutex <> 0 /\ cs_valid (lock initialized_mutex) = true)
  /\ (exists th3 mx3,
      threads (run (repeat 0%nat 3) end_then_lock) !! 0%nat = Some th3
      /\ mutexes (run (repeat 0%nat 3) end_then_lock) !! 0%nat = Some mx3
      /\ at_pc th3 = Idle
      /\ returned th3 = [] ++ [(Mutex_end 0%nat, 0)]
      /\ init mx3 = 0
      /\ cs_valid (lock mx3) = false /\ cs_owner (lock mx3) = None)
  /\ (exists th5,
      threads (run (repeat 0%nat 5) end_then_lock) !! 0%nat = Some th5
      /\ at_pc th5 = LockSpin).
Proof.
  assert (Hnz : init initialized_mutex <> 0) by discriminate.
  split; [repeat split; [exact Hnz] |].
  destruct (mutex_end_resets_for_deferred_init end_then_lock 0%nat 0%nat
              (new_thread [Mutex_end 0%nat; Mutex_lock 0%nat]) initialized_mutex
              eq_refl eq_refl eq_refl eq_refl Hnz eq_refl) as (H3 & H5 & _).
  split; [exact H3 | exact H5].
Defined.

(** The example from start to end: destroyed, initialized a second time,
    and locked by thread 0. *)
Example end_then_lock_outcome :
  run (repeat 0%nat 11) end_then_lock
  = {| initlock := 0;
       mutexes := [{| lock := {| cs_valid := true; cs_owner := Some 0%nat;
                                 cs_depth := 1; cs_inits := 2 |};
                      init := 1 |}];
       threads :=
         [{| at_pc := Idle; arg := 0; todo := [];
             returned := [(Mutex_end 0%nat, 0); (Mutex_lock 0%nat, 0)] |}] |}.
Proof. vm_compute. reflexivity. Qed.

End MutexFacts.

(** ** Elapsed time, the Windows stamps of [time.c], and the tolerance of the tests *)

Section MoreClock.
Import CInt Clock.

Lemma wraps_mod (w x : Z) : 0 < w -> wraps w x mod 2 ^ w = x mod 2 ^ w.
Proof.
  intros Hw. unfold wraps.
  pose proof (pow2_pos w ltac:(lia)) as Hp.
  rewrite Zminus_mod_idemp_l. f_equal. lia.
Qed.

Lemma wraps_cong (w x y : Z) : x mod 2 ^ w = y mod 2 ^ w -> wraps w x = wraps w y.
Proof.
  intros H. unfold wraps. f_equal.
  rewrite (Zplus_mod x), (Zplus_mod y), H. reflexivity.
Qed.

Lemma wraps_add_l (w a b : Z) : 0 < w -> wraps w (wraps w a + b) = wraps w (a + b).
Proof.
  intros Hw. apply wraps_cong.
  rewrite Zplus_mod, (wraps_mod w a Hw), <- Zplus_mod. reflexivity.
Qed.

Lemma wraps_mul_l (w a b : Z) : 0 < w -> wraps w (wraps w a * b) = wraps w (a * b).
Proof.
  intros Hw. apply wraps_cong.
  rewrite Zmult_mod, (wraps_mod w a Hw), <- Zmult_mod. reflexivity.
Qed.

Lemma wraps_sub (w a b : Z) :
  0 < w -> wraps w (wraps w a - wraps w b) = wraps w (a - b).
Proof.
  intros Hw. apply wraps_cong.
  rewrite Zminus_mod, (wraps_mod w a Hw), (wraps_mod w b Hw), <- Zminus_mod.
  reflexivity.
Qed.

Lemma wrapu_add_l (w a b : Z) : wrapu w (wrapu w a + b) = wrapu w (a + b).
Proof. unfold wrapu. apply Zplus_mod_idemp_l. Qed.

Lemma wrapu_mul_l (w a b : Z) : wrapu w (wrapu w a * b) = wrapu w (a * b).
Proof. unfold wrapu. apply Zmult_mod_idemp_l. Qed.

Lemma wrapu_sub (w a b : Z) : wrapu w (wrapu w a - wrapu w b) = wrapu w (a - b).
Proof. unfold wrapu. rewrite Zminus_mod_idemp_l, Zminus_mod_idemp_r. reflexivity. Qed.

(** The stamps are the true counts of milli- and microseconds, reduced to
    the type of the build. *)
Lemma mptime_milliseconds_wrapped (W : Z) (c : clocks) :
  0 < W -> 0 <= tv_nsec (ts_gettime c) ->
  MpTimeH.milliseconds W c
  = wraps W (tv_sec (ts_gettime c) * 1000 + tv_nsec (ts_gettime c) / 1000000).
Proof.
  intros HW Hn. unfold MpTimeH.milliseconds, MpTimeH.MILLISECONDS. cbv zeta.
  rewrite quot_is_div by lia.
  rewrite wraps_mul_l, wraps_add_l by exact HW. reflexivity.
Qed.

Lemma mptime_microseconds_wrapped (W : Z) (c : clocks) :
  0 < W -> 0 <= tv_nsec (ts_gettime c) ->
  MpTimeH.microseconds W c
  = wraps W (tv_sec (ts_gettime c) * 1000000 + tv_nsec (ts_gettime c) / 1000).
Proof.
  intros HW Hn. unfold MpTimeH.microseconds, MpTimeH.MICROSECONDS. cbv zeta.
  rewrite quot_is_div by lia.
  rewrite wraps_mul_l, wraps_add_l by exact HW. reflexivity.
Qed.

Lemma timec_milliseconds_wrapped (c : clocks) :
  0 <= tv_nsec (ts_gettime c) ->
  TimeC.milliseconds c
  = wrapu 64 (tv_sec (ts_gettime c) * 1000 + tv_nsec (ts_gettime c) / 1000000).
Proof.
  intros Hn. unfold TimeC.milliseconds, TimeC.MILLISECONDS. cbv zeta.
  rewrite quot_is_div by lia.
  rewrite wrapu_mul_l, wrapu_add_l. reflexivity.
Qed.

Lemma timec_microseconds_wrapped (c : clocks) :
  0 <= tv_nsec (ts_gettime c) ->
  TimeC.microseconds c
  = wrapu 64 (tv_sec (ts_gettime c) * 1000000 + tv_nsec (ts_gettime c) / 1000).
Proof.
  intros Hn. unfold TimeC.microseconds, TimeC.MICROSECONDS. cbv zeta.
  rewrite quot_is_div by lia.
  rewrite wrapu_mul_l, wrapu_add_l. reflexivity.
Qed.

(** The elapsed time is the difference of the true counts, reduced to the
    type of the build. *)
Lemma elapsed_wrapped (W : Z) (c1 c2 : clocks) :
  0 < W ->
  0 <= tv_nsec (ts_gettime c1) -> 0 <= tv_nsec (ts_gettime c2) ->
  let ms1 := tv_sec (ts_gettime c1) * 1000 + tv_nsec (ts_gettime c1) / 1000000 in
  let ms2 := tv_sec (ts_gettime c2) * 1000 + tv_nsec (ts_gettime c2) / 1000000 in
  let us1 := tv_sec (ts_gettime c1) * 1000000 + tv_nsec (ts_gettime c1) / 1000 in
  let us2 := tv_sec (ts_gettime c2) * 1000000 + tv_nsec (ts_gettime c2) / 1000 in
  MpTimeH.millielapsed W c2 (MpTimeH.milliseconds W c1) = wraps W (ms2 - ms1)
  /\ MpTimeH.microelapsed W c2 (MpTimeH.microseconds W c1) = wraps W (us2 - us1)
  /\ TimeC.millielapsed c2 (TimeC.milliseconds c1) = wrapu 64 (ms2 - ms1)
  /\ TimeC.microelapsed c2 (TimeC.microseconds c1) = wrapu 64 (us2 - us1).
Proof.
  intros HW Hn1 Hn2 ms1 ms2 us1 us2.
  unfold MpTimeH.millielapsed, MpTimeH.microelapsed,
    TimeC.millielapsed, TimeC.microelapsed.
  rewrite !mptime_milliseconds_wrapped, !mptime_microseconds_wrapped,
    !timec_milliseconds_wrapped, !timec_microseconds_wrapped by assumption.
  fold ms1 ms2 us1 us2.
  rewrite !wraps_sub, !wrapu_sub by exact HW.
  repeat split; reflexivity.
Qed.

(** X11: [millielapsed] and [microelapsed] of a stamp taken with the same
    clock give the true number of milli- or microseconds between the two
    readings of the clock whenever that number fits the type of the build
    ([long] of [W] bits in [mptime.h], [uint64_t] in [time.c]), also when the
    counter has wrapped between the two readings, so that the later stamp
    is the smaller one. *)
Theorem elapsed_across_wrap (W : Z) (c1 c2 : clocks) :
  0 < W ->
  0 <= tv_nsec (ts_gettime c1) -> 0 <= tv_nsec (ts_gettime c2) ->
  let ms1 := tv_sec (ts_gettime c1) * 1000 + tv_nsec (ts_gettime c1) / 1000000 in
  let ms2 := tv_sec (ts_gettime c2) * 1000 + tv_nsec (ts_gettime c2) / 1000000 in
  let us1 := tv_sec (ts_gettime c1) * 1000000 + tv_nsec (ts_gettime c1) / 1000 in
  let us2 := tv_sec (ts_gettime c2) * 1000000 + tv_nsec (ts_gettime c2) / 1000 in
  (- 2 ^ (W - 1) <= ms2 - ms1 < 2 ^ (W - 1) ->
   MpTimeH.millielapsed W c2 (MpTimeH.milliseconds W c1) = ms2 - ms1)
  /\ (- 2 ^ (W - 1) <= us2 - us1 < 2 ^ (W - 1) ->
      MpTimeH.microelapsed W c2 (MpTimeH.microseconds W c1) = us2 - us1)
  /\ (0 <= ms2 - ms1 < 2 ^ 64 ->
      TimeC.millielapsed c2 (TimeC.milliseconds c1) = ms2 - ms1)
  /\ (0 <= us2 - us1 < 2 ^ 64 ->
      TimeC.microelapsed c2 (TimeC.microseconds c1) = us2 - us1).
Proof.
  intros HW Hn1 Hn2 ms1 ms2 us1 us2.
  destruct (elapsed_wrapped W c1 c2 HW Hn1 Hn2) as (-> & -> & -> & ->).
  fold ms1 ms2 us1 us2.
  repeat split; intros H.
  - apply wraps_small; assumption.
  - apply wraps_small; assumption.
  - apply wrapu_small; assumption.
  - apply wrapu_small; assumption.
Qed.

Lemma elapsed_across_wrap_witness :
  (0 < 32 /\ 0 <= 647000000 /\ 0 <= 648000000)
  /\ MpTimeH.milliseconds 32 (clock_at 2147483 647000000) = 2147483647
  /\ MpTimeH.milliseconds 32 (clock_at 2147485 648000000) = - 2147481648
  /\ MpTimeH.millielapsed 32 (clock_at 2147485 648000000)
       (MpTimeH.milliseconds 32 (clock_at 2147483 647000000)) = 2001.
Proof.
  split; [lia |]. split; [reflexivity |]. split; [reflexivity |].
  destruct (elapsed_across_wrap 32 (clock_at 2147483 647000000)
              (clock_at 2147485 648000000)) as [H _]; [lia | simpl; lia | simpl; lia |].
  rewrite H; [reflexivity | vm_compute; split; congruence].
Defined.


(** X12: the elapsed time measured between two readings of a clock that
    has not gone back is never negative and is less than one unit (a
    millisecond, a microsecond) away from the time that passed, as long as
    that time fits the type of the build; the counter may wrap in
    between. *)
Theorem elapsed_accuracy (W : Z) (c1 c2 : clocks) :
  0 < W ->
  0 <= tv_sec (ts_gettime c1) -> 0 <= tv_nsec (ts_gettime c1) < 1000000000 ->
  0 <= tv_nsec (ts_gettime c2) < 1000000000 ->
  let D := ns_of (ts_gettime c2) - ns_of (ts_gettime c1) in
  0 <= D ->
  (D <= (2 ^ (W - 1) - 1) * 1000000 ->
   let e := MpTimeH.millielapsed W c2 (MpTimeH.milliseconds W c1) in
   0 <= e /\ D - 1000000 < e * 1000000 < D + 1000000)
  /\ (D <= (2 ^ (W - 1) - 1) * 1000 ->
      let e := MpTimeH.microelapsed W c2 (MpTimeH.microseconds W c1) in
      0 <= e /\ D - 1000 < e * 1000 < D + 1000)
  /\ (D <= (2 ^ 64 - 1) * 1000000 ->
      let e := TimeC.millielapsed c2 (TimeC.milliseconds c1) in
      0 <= e /\ D - 1000000 < e * 1000000 < D + 1000000)
  /\ (D <= (2 ^ 64 - 1) * 1000 ->
      let e := TimeC.microelapsed c2 (TimeC.microseconds c1) in
      0 <= e /\ D - 1000 < e * 1000 < D + 1000).
Proof.
  intros HW Hs1 Hn1 Hn2 D HD.
  destruct (elapsed_wrapped W c1 c2 HW ltac:(lia) ltac:(lia))
    as (Hlm & Hlu & Hcm & Hcu).
  unfold ns_of in D.
  pose proof (pow2_pos (W - 1) ltac:(lia)) as HpW.
  repeat split.
  - rewrite Hlm, wraps_small; lia_div.
  - rewrite Hlm, wraps_small; lia_div.
  - rewrite Hlm, wraps_small; lia_div.
  - rewrite Hlu, wraps_small; lia_div.
  - rewrite Hlu, wraps_small; lia_div.
  - rewrite Hlu, wraps_small; lia_div.
  - rewrite Hcm, wrapu_small; lia_div.
  - rewrite Hcm, wrapu_small; lia_div.
  - rewrite Hcm, wrapu_small; lia_div.
  - rewrite Hcu, wrapu_small; lia_div.
  - rewrite Hcu, wrapu_small; lia_div.
  - rewrite Hcu, wrapu_small; lia_div.
Qed.

End MoreClock.

Section MoreClock2.
Import CInt Clock.

Lemma elapsed_accuracy_witness :
  (0 < 32 /\ 0 <= 2147483 /\ 0 <= 647000001 < 1000000000
   /\ 0 <= 648999999 < 1000000000
   /\ 0 <= ns_of (Timespec 2147485 648999999) - ns_of (Timespec 2147483 647000001)
   /\ ns_of (Timespec 2147485 648999999) - ns_of (Timespec 2147483 647000001)
      <= (2 ^ (32 - 1) - 1) * 1000000)
  /\ (let e := MpTimeH.millielapsed 32 (clock_at 2147485 648999999)
                 (MpTimeH.milliseconds 32 (clock_at 2147483 647000001)) in
      0 <= e /\ 2001999998 - 1000000 < e * 1000000 < 2001999998 + 1000000).
Proof.
  split; [vm_compute; repeat split; congruence |].
  destruct (elapsed_accuracy 32 (clock_at 2147483 647000001)
              (clock_at 2147485 648999999)) as [H _];
    [lia | simpl; lia | simpl; lia | simpl; lia | vm_compute; congruence |].
  apply H. vm_compute. congruence.
Defined.

(** X13: the Windows [milliseconds] and [microseconds] of [time.c], for a
    counter whose product with [MICROSECONDS] stays inside the signed 64-bit
    [QuadPart]: the stamps are the count scaled by 1000 or 1000000 and
    divided by the frequency, the millisecond stamp is the microsecond stamp
    divided by 1000, and the frequency acquired by the first call is the one
    the next call divides by. *)
Theorem timec_windows_stamps (p : TimeCWin.perf) :
  0 <= TimeCWin.qp_counter p ->
  0 < TimeCWin.Freq_timec (TimeCWin.acquire_frequency p) ->
  TimeCWin.qp_counter p * 1000000 < 2 ^ 63 ->
  let f := TimeCWin.Freq_timec (TimeCWin.acquire_frequency p) in
  fst (TimeCWin.milliseconds p) = TimeCWin.qp_counter p * 1000 / f
  /\ fst (TimeCWin.microseconds p) = TimeCWin.qp_counter p * 1000000 / f
  /\ fst (TimeCWin.milliseconds p) = fst (TimeCWin.microseconds p) / 1000
  /\ TimeCWin.Freq_timec (snd (TimeCWin.microseconds (snd (TimeCWin.milliseconds p))))
     = f.
Proof.
  intros Hc Hf H63 f.
  assert (Hcnt : TimeCWin.qp_counter (TimeCWin.acquire_frequency p)
                 = TimeCWin.qp_counter p).
  { unfold TimeCWin.acquire_frequency.
    destruct (TimeCWin.Freq_timec p =? 0); reflexivity. }
  assert (Hm : fst (TimeCWin.milliseconds p) = TimeCWin.qp_counter p * 1000 / f).
  { unfold TimeCWin.milliseconds, TimeCWin.MILLISECONDS. cbv zeta. simpl fst.
    rewrite Hcnt. fold f.
    rewrite (wraps_small 64) by (change (2 ^ (64 - 1)) with (2 ^ 63); lia).
    rewrite quot_is_div by lia.
    apply wrapu_small. split; [apply Z.div_pos; lia |].
    apply Z.div_lt_upper_bound; [lia |].
    change (2 ^ 64) with (2 * 2 ^ 63). nia. }
  assert (Hu : fst (TimeCWin.microseconds p) = TimeCWin.qp_counter p * 1000000 / f).
  { unfold TimeCWin.microseconds, TimeCWin.MICROSECONDS. cbv zeta. simpl fst.
    rewrite Hcnt. fold f.
    rewrite (wraps_small 64) by (change (2 ^ (64 - 1)) with (2 ^ 63); lia).
    rewrite quot_is_div by lia.
    apply wrapu_small. split; [apply Z.div_pos; lia |].
    apply Z.div_lt_upper_bound; [lia |].
    change (2 ^ 64) with (2 * 2 ^ 63). nia. }
  split; [exact Hm |]. split; [exact Hu |]. split.
  - rewrite Hm, Hu. rewrite Z.div_div by lia.
    replace (TimeCWin.qp_counter p * 1000000)
      with (TimeCWin.qp_counter p * 1000 * 1000) by lia.
    rewrite Z.div_mul_cancel_r by lia. reflexivity.
  - unfold TimeCWin.microseconds, TimeCWin.milliseconds. cbv zeta. simpl snd.
    unfold TimeCWin.acquire_frequency at 1.
    fold f.
    replace (f =? 0) with false by (symmetry; apply Z.eqb_neq; lia).
    reflexivity.
Qed.

Lemma timec_windows_stamps_witness :
  (0 <= 123456789 /\ 0 < 10000000 /\ 123456789 * 1000000 < 2 ^ 63)
  /\ fst (TimeCWin.milliseconds (TimeCWin.perf_10mhz 123456789)) = 12345
  /\ fst (TimeCWin.microseconds (TimeCWin.perf_10mhz 123456789)) = 12345678.
Proof.
  split; [lia |].
  destruct (timec_windows_stamps (TimeCWin.perf_10mhz 123456789))
    as (Hm & Hu & _); [simpl; lia | simpl; lia | simpl; lia |].
  rewrite Hm, Hu. split; reflexivity.
Defined.

(** The product [count.QuadPart * MICROSECONDS] leaves 64 bits at a 10 MHz
    counter after 2^63 / 10^13 seconds, less than eleven days. *)
Example timec_windows_microseconds_overflow :
  fst (TimeCWin.microseconds (TimeCWin.perf_10mhz 9223372036855))
  = 2 ^ 64 - 922337203685
  /\ 9223372036855 * 1000000 / 10000000 = 922337203685
  /\ 9223372036855 < 11 * 86400 * 10000000.
Proof. vm_compute. repeat split; reflexivity. Qed.

(** X14: [WITHIN_TOLERANCE(v,e,t)] on [uint64_t] values: with
    [t <= e] and no overflow of [e + t] it holds exactly when [v] lies
    strictly between [e - t] and [e + t]; with [e < t] the unsigned [e - t]
    wraps and it holds for no [v]; with [t = 1], the [MILLITEST_PRECISION] of
    the test, it holds only for [v = e]. *)
Theorem within_tolerance_unsigned (v e t : Z) :
  0 <= v < 2 ^ 64 -> 0 <= e < 2 ^ 64 -> 0 < t <= 2 ^ 63 ->
  (t <= e -> e + t < 2 ^ 64 ->
   (Mptest.WITHIN_TOLERANCE v e t = true <-> e - t < v < e + t))
  /\ (e < t -> Mptest.WITHIN_TOLERANCE v e t = false)
  /\ (t = 1 -> 1 <= e -> e + 1 < 2 ^ 64 ->
      (Mptest.WITHIN_TOLERANCE v e t = true <-> v = e)).
Proof.
  intros Hv He Ht.
  assert (Hin : t <= e -> e + t < 2 ^ 64 ->
                (Mptest.WITHIN_TOLERANCE v e t = true <-> e - t < v < e + t)).
  { intros Hle Hlt. unfold Mptest.WITHIN_TOLERANCE.
    rewrite (wrapu_small 64 (e - t)), (wrapu_small 64 (e + t)) by lia.
    rewrite andb_true_iff, !Z.ltb_lt. reflexivity. }
  split; [exact Hin |]. split.
  - intros Hlt. unfold Mptest.WITHIN_TOLERANCE.
    rewrite (wrapu_below 64 (e - t)) by lia.
    change (2 ^ 63) with 9223372036854775808 in *.
    change (2 ^ 64) with 18446744073709551616 in *.
    rewrite (wrapu_small 64 (e + t))
      by (change (2 ^ 64) with 18446744073709551616; lia).
    apply andb_false_iff.
    destruct (Z.ltb_spec (e - t + 18446744073709551616) v) as [H1 | H1];
      [right | left; reflexivity].
    apply Z.ltb_ge. lia.
  - intros -> H1 H2. rewrite (Hin H1 H2). lia.
Qed.

Lemma within_tolerance_unsigned_witness :
  (0 <= 1000 < 2 ^ 64 /\ 0 <= 1001 < 2 ^ 64 /\ 0 < 1 <= 2 ^ 63)
  /\ Mptest.WITHIN_TOLERANCE 1000 1001 1 = false
  /\ Mptest.WITHIN_TOLERANCE 1000 0 1 = false
  /\ (Mptest.WITHIN_TOLERANCE 1000 1001 10 = true <-> 1001 - 10 < 1000 < 1001 + 10).
Proof.
  split; [lia |].
  split; [reflexivity |]. split; [reflexivity |].
  apply (within_tolerance_unsigned 1000 1001 10); lia.
Defined.

End MoreClock2.

(** ** [thread_multiwait] on arrays of thread ids *)

Section MoreThread.
Import CInt ThreadOS Thread.

Context {OS : Type} `{!PosixThreads OS} `{!WinThreads OS}.

(** What one [thread_wait] does to the array. *)
Lemma thread_wait_array (b : build) (p : nat) (w w1 : world OS) (e : Z) :
  thread_wait b p w = Some (e, w1) ->
  (forall i, i <> p -> tids w1 !! i = tids w !! i)
  /\ (b = ThreadC_Unix -> tids w1 !! p = Some 0)
  /\ (b = ThreadC_Windows -> tids w1 !! p = Some 0 \/ tids w1 = tids w)
  /\ (b = MpThreadH_Posix \/ b = MpThreadH_Windows -> tids w1 = tids w).
Proof.
  intros H.
  assert (Hp : (p < length (tids w))%nat).
  { destruct (tids w !! p) as [tid |] eqn:Htid.
    - eapply lookup_lt_Some. exact Htid.
    - destruct b; simpl in H; unfold thread_wait_unix, thread_wait_posix_macro,
        thread_wait_windows in H; rewrite Htid in H; discriminate. }
  destruct b; simpl in H.
  - unfold thread_wait_unix in H.
    destruct (tids w !! p) as [tid |]; [| discriminate].
    destruct (pthread_join tid (os w)) as [ecode os1].
    injection H as _ <-. simpl.
    split; [intros i Hi; apply list_lookup_insert_ne; congruence |].
    split; [intros _; apply list_lookup_insert_eq; exact Hp |].
    split; intros Hb; [discriminate | destruct Hb; discriminate].
  - unfold thread_wait_windows in H.
    destruct (tids w !! p) as [tid |]; [| discriminate].
    destruct (OpenThread tid (os w)) as [[h |] os1].
    + destruct (WaitForSingleObject h os1) as [status os2].
      injection H as _ <-. simpl.
      split; [intros i Hi; apply list_lookup_insert_ne; congruence |].
      split; [discriminate |].
      split; [intros _; left; apply list_lookup_insert_eq; exact Hp |].
      intros Hb; destruct Hb; discriminate.
    + injection H as _ <-. simpl.
      split; [reflexivity |]. split; [discriminate |].
      split; [intros _; right; reflexivity |].
      intros Hb; destruct Hb; discriminate.
  - unfold thread_wait_posix_macro in H.
    destruct (tids w !! p) as [tid |]; [| discriminate].
    destruct (pthread_join tid (os w)) as [ecode os1].
    injection H as _ <-. simpl.
    split; [reflexivity |]. split; [discriminate |]. split; [discriminate |].
    reflexivity.
  - unfold thread_wait_windows in H.
    destruct (tids w !! p) as [tid |]; [| discriminate].
    destruct (OpenThread tid (os w)) as [[h |] os1].
    + destruct (WaitForSingleObject h os1) as [status os2].
      injection H as _ <-. simpl.
      split; [reflexivity |]. split; [discriminate |]. split; [discriminate |].
      reflexivity.
    + injection H as _ <-. simpl.
      split; [reflexivity |]. split; [discriminate |]. split; [discriminate |].
      reflexivity.
Qed.

Lemma wait_each_array (b : build) (k : nat) :
  forall (base : nat) (w w1 : world OS) (codes : list Z),
  wait_each (thread_wait b) (seq base k) w = Some (codes, w1) ->
  (forall i, (i < base \/ base + k <= i)%nat -> tids w1 !! i = tids w !! i)
  /\ (b = ThreadC_Unix ->
      forall i, (base <= i < base + k)%nat -> tids w1 !! i = Some 0)
  /\ (b = ThreadC_Windows ->
      forall i, (base <= i < base + k)%nat ->
                tids w1 !! i = Some 0 \/ tids w1 !! i = tids w !! i)
  /\ (b = MpThreadH_Posix \/ b = MpThreadH_Windows -> tids w1 = tids w).
Proof.
  induction k as [| k IH]; intros base w w1 codes H.
  - simpl in H. injection H as _ <-.
    split; [reflexivity |]. split; [intros _ i Hi; lia |].
    split; [intros _ i Hi; lia | reflexivity].
  - simpl in H.
    destruct (thread_wait b base w) as [[e w2] |] eqn:He; [| discriminate].
    destruct (wait_each (thread_wait b) (seq (S base) k) w2) as [[es w3] |] eqn:Hes;
      [| discriminate].
    injection H as _ <-.
    destruct (thread_wait_array b base w w2 e He) as (F1 & U1 & W1 & H1).
    destruct (IH (S base) w2 w3 es Hes) as (F2 & U2 & W2 & H2).
    split; [| split; [| split]].
    + intros i Hi. rewrite F2 by lia. apply F1. lia.
    + intros Hb i Hi. destruct (decide (i = base)) as [-> | Hne].
      * rewrite F2 by lia. apply U1. exact Hb.
      * apply U2; [exact Hb | lia].
    + intros Hb i Hi. destruct (decide (i = base)) as [-> | Hne].
      * rewrite F2 by lia. destruct (W1 Hb) as [Hz | Hsame]; [left; exact Hz |].
        right. rewrite ?F2 by lia. rewrite Hsame. reflexivity.
      * destruct (W2 Hb i ltac:(lia)) as [Hz | Hsame]; [left; exact Hz |].
        right. rewrite Hsame. apply F1. exact Hne.
    + intros Hb. rewrite (H2 Hb). apply H1. exact Hb.
Qed.

Lemma wait_each_defined_from (b : build) (k : nat) :
  forall (base : nat) (w : world OS),
  (base + k <= length (tids w))%nat ->
  exists codes w1, wait_each (thread_wait b) (seq base k) w = Some (codes, w1)
                   /\ length codes = k
                   /\ length (tids w1) = length (tids w).
Proof.
  induction k as [| k IH]; intros base w Hle.
  - exists [], w. repeat split; reflexivity.
  - destruct (thread_wait_defined b base w ltac:(lia)) as (e & w2 & He & Hl2).
    destruct (IH (S base) w2 ltac:(lia)) as (cs & w3 & Hc & Hlc & Hl3).
    exists (e :: cs), w3. simpl. rewrite He, Hc.
    split; [reflexivity |]. split; [simpl; congruence | congruence].
Qed.

(** X8: [thread_multiwait(tidlist, k)] on [k] slots that lie inside an
    array of thread ids returns, with each [thread_wait] of the repository:
    it calls [thread_wait] on the pointers [tidlist], ..., [tidlist + k - 1]
    in this order and on no other; with [codes] the results of these [k]
    calls in order, it returns 0 when they are all 0 and otherwise the one at
    the smallest index that is not 0; it keeps the length of the array and
    leaves every slot outside the [k] as it was. *)
Theorem thread_multiwait_subarray
  (b : build) (w : world OS) (tidlist k : nat) :
  (tidlist + k <= length (tids w))%nat -> Z.of_nat k <= 2147483647 ->
  exists (codes : list Z) (w1 : world OS) (ecode : Z),
    wait_each (thread_wait b) (seq tidlist k) w = Some (codes, w1)
    /\ length codes = k
    /\ thread_multiwait (thread_wait b) tidlist (Z.of_nat k) w = Some (ecode, w1)
    /\ thread_multiwait (counted (thread_wait b)) tidlist (Z.of_nat k) (w, [])
       = Some (ecode, (w1, seq tidlist k))
    /\ (Forall (fun e => e = 0) codes -> ecode = 0)
    /\ (forall (j : nat) (e : Z),
        codes !! j = Some e -> e <> 0 ->
        (forall i e', (i < j)%nat -> codes !! i = Some e' -> e' = 0) ->
        ecode = e)
    /\ length (tids w1) = length (tids w)
    /\ (forall i, (i < tidlist \/ tidlist + k <= i)%nat -> tids w1 !! i = tids w !! i).
Proof.
  intros Hle Hmax.
  destruct (wait_each_defined_from b k tidlist w Hle) as (codes & w1 & Hw & Hl & Hlen).
  exists codes, w1, (first_error 0 codes).
  split; [exact Hw |]. split; [exact Hl |].
  destruct (wait_each_array b k tidlist w w1 codes Hw) as (F & _).
  split; [| split; [| split; [| split; [| split; [exact Hlen | exact F]]]]].
  - unfold thread_multiwait. rewrite Nat2Z.id.
    apply (multiwait_loop_wait_each (thread_wait b) tidlist k 0).
    + simpl. exact Hmax.
    + replace (tidlist + 0)%nat with tidlist by lia. exact Hw.
  - unfold thread_multiwait. rewrite Nat2Z.id.
    apply (multiwait_loop_wait_each (counted (thread_wait b)) tidlist k 0).
    + simpl. exact Hmax.
    + replace (tidlist + 0)%nat with tidlist by lia.
      apply (wait_each_counted (thread_wait b) _ w w1 codes [] Hw).
  - apply first_error_all_zero.
  - apply first_error_smallest.
Qed.

(** X9: the thread ids after [thread_multiwait]: with the UNIX
    [thread_wait] of [thread.c] every slot that was waited for holds 0; with
    the Windows one of [thread.c] it holds 0 or what it held before; with
    the [thread_wait] of [mpthread.h] (both systems) the array is
    unchanged. *)
Theorem thread_multiwait_ids_afterwards
  (b : build) (w w1 : world OS) (tidlist k : nat) (ecode : Z) :
  (tidlist + k <= length (tids w))%nat -> Z.of_nat k <= 2147483647 ->
  thread_multiwait (thread_wait b) tidlist (Z.of_nat k) w = Some (ecode, w1) ->
  (b = ThreadC_Unix ->
   forall i, (tidlist <= i < tidlist + k)%nat -> tids w1 !! i = Some 0)
  /\ (b = ThreadC_Windows ->
      forall i, (tidlist <= i < tidlist + k)%nat ->
                tids w1 !! i = Some 0 \/ tids w1 !! i = tids w !! i)
  /\ (b = MpThreadH_Posix \/ b = MpThreadH_Windows -> tids w1 = tids w).
Proof.
  intros Hle Hmax Hrun.
  destruct (wait_each_defined_from b k tidlist w Hle) as (codes & w2 & Hw & Hl & Hlen).
  assert (Hrun2 : thread_multiwait (thread_wait b) tidlist (Z.of_nat k) w
                  = Some (first_error 0 codes, w2)).
  { unfold thread_multiwait. rewrite Nat2Z.id.
    apply (multiwait_loop_wait_each (thread_wait b) tidlist k 0).
    - simpl. exact Hmax.
    - replace (tidlist + 0)%nat with tidlist by lia. exact Hw. }
  rewrite Hrun in Hrun2. injection Hrun2 as _ ->.
  destruct (wait_each_array b k tidlist w w2 codes Hw) as (_ & U & W & H).
  split; [exact U |]. split; [exact W | exact H].
Qed.

End MoreThread.

Section MoreThread2.
Import CInt ThreadOS Thread.

Lemma thread_multiwait_subarray_witness :
  ((1 + 2 <= length (tids four_threads))%nat /\ Z.of_nat 2 <= 2147483647)
  /\ exists (codes : list Z) (w1 : world scripted) (ecode : Z),
    wait_each (thread_wait ThreadC_Unix) (seq 1 2) four_threads = Some (codes, w1)
    /\ length codes = 2%nat
    /\ thread_multiwait (thread_wait ThreadC_Unix) 1 (Z.of_nat 2) four_threads
       = Some (ecode, w1)
    /\ thread_multiwait (counted (thread_wait ThreadC_Unix)) 1 (Z.of_nat 2)
         (four_threads, [])
       = Some (ecode, (w1, seq 1 2))
    /\ (Forall (fun e => e = 0) codes -> ecode = 0)
    /\ (forall (j : nat) (e : Z),
        codes !! j = Some e -> e <> 0 ->
        (forall i e', (i < j)%nat -> codes !! i = Some e' -> e' = 0) ->
        ecode = e)
    /\ length (tids w1) = length (tids four_threads)
    /\ (forall i, (i < 1 \/ 1 + 2 <= i)%nat -> tids w1 !! i = tids four_threads !! i).
Proof.
  assert (H1 : (1 + 2 <= length (tids four_threads))%nat) by (simpl; lia).
  assert (H2 : Z.of_nat 2 <= 2147483647) by lia.
  split; [exact (conj H1 H2) |].
  exact (thread_multiwait_subarray ThreadC_Unix four_threads 1 2 H1 H2).
Defined.

Lemma thread_multiwait_ids_afterwards_witness :
  ((1 + 2 <= length (tids four_threads))%nat /\ Z.of_nat 2 <= 2147483647
   /\ thread_multiwait (thread_wait ThreadC_Unix) 1 (Z.of_nat 2) four_threads
      = Some (5, World (Scripted [0; 7] [] 5 [Join 12; Join 13]) [11; 0; 0; 14]))
  /\ (forall i, (1 <= i < 1 + 2)%nat ->
      tids (World (Scripted [0; 7] [] 5 [Join 12; Join 13]) [11; 0; 0; 14]) !! i
      = Some 0).
Proof.
  assert (H1 : (1 + 2 <= length (tids four_threads))%nat) by (simpl; lia).
  assert (H2 : Z.of_nat 2 <= 2147483647) by lia.
  assert (H3 : thread_multiwait (thread_wait ThreadC_Unix) 1 (Z.of_nat 2) four_threads
      = Some (5, World (Scripted [0; 7] [] 5 [Join 12; Join 13]) [11; 0; 0; 14]))
    by (vm_compute; reflexivity).
  split; [exact (conj H1 (conj H2 H3)) |].
  exact (proj1 (thread_multiwait_ids_afterwards ThreadC_Unix four_threads _ 1 2 5
                  H1 H2 H3) eq_refl).
Defined.

End MoreThread2.

Section MoreThread3.
Import CInt ThreadOS Thread.

(** On the recording system, the POSIX [thread_wait] of either file passes
    the ids of the slots to [pthread_join] in order. *)
Lemma wait_each_joins (b : build) (k : nat) :
  b = ThreadC_Unix \/ b = MpThreadH_Posix ->
  forall (base : nat) (w : world scripted),
  (base + k <= length (tids w))%nat ->
  exists codes w1,
    wait_each (thread_wait b) (seq base k) w = Some (codes, w1)
    /\ received (os w1) = received (os w) ++ (Join <$> take k (drop base (tids w))).
Proof.
  intros Hb. induction k as [| k IH]; intros base w Hle.
  - exists [], w. split; [reflexivity |]. simpl. rewrite app_nil_r. reflexivity.
  - destruct (lookup_lt_is_Some_2 (tids w) base ltac:(lia)) as [tid Htid].
    rewrite (drop_S _ _ _ Htid). simpl take. simpl seq.
    destruct Hb as [-> | ->]; simpl thread_wait in *; simpl wait_each.
    + unfold thread_wait_unix at 1. rewrite Htid. simpl.
      destruct (IH (S base) (World (snd (scripted_next (Join tid) (os w)))
                               (<[base := 0]> (tids w))))
        as (codes & w1 & Hw & Hr).
      { simpl. rewrite length_insert. lia. }
      unfold scripted_next in Hw. simpl in Hw. rewrite Hw.
      eexists _, _. split; [reflexivity |].
      rewrite Hr. simpl. rewrite drop_insert_lt by lia.
      rewrite <- app_assoc. reflexivity.
    + unfold thread_wait_posix_macro at 1. rewrite Htid. simpl.
      destruct (IH (S base) (World (snd (scripted_next (Join tid) (os w))) (tids w)))
        as (codes & w1 & Hw & Hr).
      { simpl. lia. }
      unfold scripted_next in Hw. simpl in Hw. rewrite Hw.
      eexists _, _. split; [reflexivity |].
      rewrite Hr. simpl. rewrite <- app_assoc. reflexivity.
Qed.

(** X10: [thread_wait(threadlist); thread_multiwait(threadlist, THREADS);]
    as the test program calls them, on a system that records the calls of
    [pthread_join]: with [thread.c] the first thread is joined once and the
    second join of its slot is [pthread_join(0, NULL)], the id [thread_wait]
    left there; with the macro of [mpthread.h] the id of the first thread is
    passed to [pthread_join] twice.  The other threads are joined once, in
    order. *)
Theorem wait_then_multiwait_joins
  (s0 : scripted) (id0 : ThreadID) (rest : list ThreadID) :
  Z.of_nat (S (length rest)) <= 2147483647 ->
  (exists e w1 e2 w2,
     thread_wait ThreadC_Unix 0 (World s0 (id0 :: rest)) = Some (e, w1)
     /\ thread_multiwait (thread_wait ThreadC_Unix) 0 (Z.of_nat (S (length rest))) w1
        = Some (e2, w2)
     /\ received (os w2) = received s0 ++ Join id0 :: Join 0 :: (Join <$> rest))
  /\ (exists e w1 e2 w2,
      thread_wait MpThreadH_Posix 0 (World s0 (id0 :: rest)) = Some (e, w1)
      /\ thread_multiwait (thread_wait MpThreadH_Posix) 0 (Z.of_nat (S (length rest))) w1
         = Some (e2, w2)
      /\ received (os w2) = received s0 ++ Join id0 :: Join id0 :: (Join <$> rest)).
Proof.
  intros Hmax. split.
  - destruct (wait_each_joins ThreadC_Unix (S (length rest)) (or_introl eq_refl) 0
                (World (snd (scripted_next (Join id0) s0)) (0 :: rest)))
      as (codes & w2 & Hw & Hr); [simpl; lia |].
    eexists _, _, (first_error 0 codes), w2.
    split; [reflexivity |]. split.
    + unfold thread_multiwait. rewrite Nat2Z.id.
      apply (multiwait_loop_wait_each (thread_wait ThreadC_Unix) 0 (S (length rest)) 0);
        [exact Hmax | exact Hw].
    + rewrite Hr. simpl. rewrite take_ge by lia.
      rewrite <- app_assoc. reflexivity.
  - destruct (wait_each_joins MpThreadH_Posix (S (length rest)) (or_intror eq_refl) 0
                (World (snd (scripted_next (Join id0) s0)) (id0 :: rest)))
      as (codes & w2 & Hw & Hr); [simpl; lia |].
    eexists _, _, (first_error 0 codes), w2.
    split; [reflexivity |]. split.
    + unfold thread_multiwait. rewrite Nat2Z.id.
      apply (multiwait_loop_wait_each (thread_wait MpThreadH_Posix) 0
               (S (length rest)) 0); [exact Hmax | exact Hw].
    + rewrite Hr. simpl. rewrite take_ge by lia.
      rewrite <- app_assoc. reflexivity.
Qed.

Lemma wait_then_multiwait_joins_witness :
  Z.of_nat (S (length [12; 13])) <= 2147483647
  /\ exists e w1 e2 w2,
     thread_wait ThreadC_Unix 0 (World (Scripted [] [] 0 []) (11 :: [12; 13]))
     = Some (e, w1)
     /\ thread_multiwait (thread_wait ThreadC_Unix) 0 (Z.of_nat (S (length [12; 13]))) w1
        = Some (e2, w2)
     /\ received (os w2)
        = received (Scripted [] [] 0 []) ++ Join 11 :: Join 0 :: (Join <$> [12; 13]).
Proof.
  assert (H : Z.of_nat (S (length [12; 13])) <= 2147483647) by (simpl; lia).
  split; [exact H |].
  exact (proj1 (wait_then_multiwait_joins (Scripted [] [] 0 []) 11 [12; 13] H)).
Defined.

End MoreThread3.

(** ** Mutual exclusion and progress of the Windows mutex *)

Section ExclFacts.
Import WinMutex MutexUse.

Ltac split_threads :=
  repeat match goal with
  | H : <[_ := _]> (threads _) !! _ = Some _ |- _ =>
      apply list_lookup_insert_Some in H;
      destruct H as [(<- & <- & ?) | (? & H)]
  end.

Lemma paired_locks_only (cs : list call) :
  paired cs = true -> Forall (fun c => locks_only c = true) cs.
Proof.
  induction cs as [cs IH] using (induction_ltof1 _ (@length call)).
  unfold ltof in IH.
  destruct cs as [| c1 [| c2 rest]]; simpl; intros H.
  - constructor.
  - destruct c1; discriminate.
  - destruct c1; try discriminate. destruct c2; try discriminate.
    apply andb_true_iff in H as [_ H].
    repeat constructor. apply IH; [simpl; lia | exact H].
Qed.

(** A step that leaves every critical section as it is, and thread [t] as
    much inside a mutex as before. *)
Lemma excl_same_locks (t : nat) (s : state) (th th1 : thread) (il1 : Z)
  (mxs1 : list Mutex) :
  Excl s -> threads s !! t = Some th ->
  holding th1 = holding th -> shape th1 ->
  (forall m, lock <$> (mxs1 !! m) = lock <$> (mutexes s !! m)) ->
  Excl {| initlock := il1; mutexes := mxs1; threads := <[t := th1]> (threads s) |}.
Proof.
  intros E Ht Hh Hs Hl.
  assert (Hlt : (t < length (threads s))%nat) by (eapply lookup_lt_Some; exact Ht).
  constructor; simpl.
  - intros i thi Hi. split_threads; [exact Hs |]. eapply (excl_shape s E); eassumption.
  - intros i thi m Hi Hm.
    assert (Hold : exists th0, threads s !! i = Some th0 /\ holding th0 = Some m).
    { split_threads; [exists th; split; congruence | eauto]. }
    destruct Hold as (th0 & Hi0 & Hh0).
    destruct (excl_holder s E i th0 m Hi0 Hh0) as (mx & Hmx & Ho & Hd).
    pose proof (Hl m) as Hlm. rewrite Hmx in Hlm. simpl in Hlm.
    destruct (mxs1 !! m) as [mx1 |]; [| discriminate].
    injection Hlm as Hlm. exists mx1. rewrite Hlm. auto.
  - intros m mx1 o Hm Ho.
    pose proof (Hl m) as Hlm. rewrite Hm in Hlm. simpl in Hlm.
    destruct (mutexes s !! m) as [mx |] eqn:Hmx; [| discriminate].
    injection Hlm as Hlm. rewrite Hlm in Ho.
    destruct (excl_owner s E m mx o Hmx Ho) as (tho & Hto & Hho).
    destruct (decide (o = t)) as [-> | Hne].
    + exists th1. split; [apply list_lookup_insert_eq; exact Hlt |].
      rewrite Hh. congruence.
    + exists tho. split; [| exact Hho].
      rewrite list_lookup_insert_ne by congruence. exact Hto.
Qed.

Lemma same_locks_insert (mxs : list Mutex) (m : nat) (mx mx1 : Mutex) :
  mxs !! m = Some mx -> lock mx1 = lock mx ->
  forall k, lock <$> (<[m := mx1]> mxs !! k) = lock <$> (mxs !! k).
Proof.
  intros Hm Hl k. destruct (decide (m = k)) as [<- | Hne].
  - rewrite list_lookup_insert_eq by (eapply lookup_lt_Some; exact Hm).
    rewrite Hm. simpl. congruence.
  - rewrite list_lookup_insert_ne by exact Hne. reflexivity.
Qed.

Lemma shape_start (th : thread) :
  at_pc th = Idle -> shape th ->
  shape (start th) /\ holding (start th) = holding th.
Proof.
  intros Hp Hs. unfold shape in Hs. rewrite Hp in Hs. unfold start.
  destruct (todo th) as [| c rest] eqn:Htodo.
  - split; [unfold shape; rewrite Hp, Htodo; left; reflexivity | reflexivity].
  - destruct Hs as [Hs | (m & rest' & Heq & Hs)].
    + destruct c; try discriminate Hs.
      destruct rest as [| c2 rest2]; [discriminate Hs |].
      destruct c2; try discriminate Hs.
      simpl in Hs. apply andb_true_iff in Hs as [Hm Hs].
      apply Nat.eqb_eq in Hm. subst.
      split; [| unfold holding; simpl; rewrite Hp, Htodo; reflexivity].
      unfold shape. simpl. eauto.
    + injection Heq as -> ->.
      split; [unfold shape; simpl; exact Hs |].
      unfold holding. simpl. rewrite Hp, Htodo. reflexivity.
Qed.

Ltac same_locks E Ht Hp Hs Hm mx :=
  apply (excl_same_locks _ _ _ _ _ _ E Ht);
  [ unfold holding; simpl; rewrite ?Hp; reflexivity
  | unfold shape; simpl; rewrite ?Hp; exact Hs
  | apply (same_locks_insert _ _ mx); [exact Hm | reflexivity] ].

(** Every step keeps [Excl], given the invariant of the deferred
    initialization. *)
Lemma step_excl (t : nat) (s : state) : Inv s -> Excl s -> Excl (step t s).
Proof.
  intros I E.
  destruct (step_cases t s)
    as [-> | [(th & Ht & Hpc & ->) | (th & mx & Ht & Hpc & Hm & ->)]].
  - exact E.
  - destruct (shape_start th Hpc (excl_shape s E t th Ht)) as [Hs Hh].
    apply (excl_same_locks t s th _ _ _ E Ht Hh Hs). reflexivity.
  - pose proof (excl_shape s E t th Ht) as Hs.
    assert (Hlt : (t < length (threads s))%nat) by (eapply lookup_lt_Some; exact Ht).
    assert (Hlm : (arg th < length (mutexes s))%nat)
      by (eapply lookup_lt_Some; exact Hm).
    unfold shape in Hs. unfold exec.
    destruct (at_pc th) eqn:Hp; try contradiction; try congruence.
    + (* LockTest *)
      destruct (init mx =? 0); simpl;
        same_locks E Ht Hp Hs Hm mx.
    + (* LockSpin *)
      destruct (initlock s =? 0); simpl;
        same_locks E Ht Hp Hs Hm mx.
    + (* LockRetest *)
      destruct (init mx =? 0); simpl;
        same_locks E Ht Hp Hs Hm mx.
    + (* LockInitCS *)
      simpl.
      destruct (inv_at_initcs s I t th mx Ht Hm Hp) as [Hz _].
      assert (Hfree : cs_owner (lock mx) = None).
      { destruct (cs_owner (lock mx)) as [o |] eqn:Ho; [| reflexivity].
        exfalso. apply (inv_owner s I (arg th) mx Hm); [congruence | exact Hz]. }
      constructor; simpl.
      * intros i thi Hi. split_threads; [unfold shape; simpl; exact Hs |].
        eapply (excl_shape s E); eassumption.
      * intros i thi m Hi Hh.
        assert (Hold : exists th0, threads s !! i = Some th0 /\ holding th0 = Some m).
        { split_threads; [discriminate Hh | eauto]. }
        destruct Hold as (th0 & Hi0 & Hh0).
        destruct (excl_holder s E i th0 m Hi0 Hh0) as (mx0 & Hmx0 & Ho & Hd).
        destruct (decide (arg th = m)) as [<- | Hne].
        -- congruence.
        -- exists mx0. rewrite list_lookup_insert_ne by exact Hne. auto.
      * intros m mx1 o Hm1 Ho.
        apply list_lookup_insert_Some in Hm1 as [(<- & <- & _) | (Hne & Hm1)];
          [discriminate Ho |].
        destruct (excl_owner s E m mx1 o Hm1 Ho) as (tho & Hto & Hho).
        assert (o <> t).
        { intros ->. assert (tho = th) as -> by congruence.
          unfold holding in Hho. rewrite Hp in Hho. discriminate. }
        exists tho. rewrite list_lookup_insert_ne by congruence. auto.
    + (* LockSetInit *)
      simpl. same_locks E Ht Hp Hs Hm mx.
    + (* LockRelease *)
      simpl. same_locks E Ht Hp Hs Hm mx.
    + (* LockEnter *)
      destruct Hs as (rest & Htodo & Hrest).
      destruct (EnterCriticalSection t (lock mx)) as [cs1 |] eqn:En; simpl.
      * assert (Hfree : cs_owner (lock mx) = None).
        { destruct (cs_owner (lock mx)) as [o |] eqn:Ho; [| reflexivity].
          exfalso. unfold EnterCriticalSection in En. rewrite Ho in En.
          destruct (o =? t)%nat eqn:Eo; [| discriminate].
          apply Nat.eqb_eq in Eo. subst o.
          destruct (excl_owner s E (arg th) mx t Hm Ho) as (tho & Hto & Hho).
          assert (tho = th) as -> by congruence.
          unfold holding in Hho. rewrite Hp in Hho. discriminate. }
        unfold EnterCriticalSection in En. rewrite Hfree in En.
        injection En as <-.
        constructor; simpl.
        -- intros i thi Hi. split_threads.
           ++ unfold shape. simpl. right. eauto.
           ++ eapply (excl_shape s E); eassumption.
        -- intros i thi m Hi Hh. split_threads.
           ++ unfold holding in Hh. simpl in Hh. rewrite Htodo in Hh.
              injection Hh as <-.
              eexists. rewrite list_lookup_insert_eq by exact Hlm.
              split; [reflexivity |]. simpl. auto.
           ++ destruct (excl_holder s E i thi m Hi Hh) as (mx0 & Hmx0 & Ho & Hd).
              destruct (decide (arg th = m)) as [<- | Hne]; [congruence |].
              exists mx0. rewrite list_lookup_insert_ne by exact Hne. auto.
        -- intros m mx1 o Hm1 Ho.
           apply list_lookup_insert_Some in Hm1 as [(<- & <- & _) | (Hne & Hm1)].
           ++ simpl in Ho. injection Ho as <-.
              eexists. rewrite list_lookup_insert_eq by exact Hlt.
              split; [reflexivity |]. unfold holding. simpl. rewrite Htodo. reflexivity.
           ++ destruct (excl_owner s E m mx1 o Hm1 Ho) as (tho & Hto & Hho).
              assert (o <> t).
              { intros ->. assert (tho = th) as -> by congruence.
                unfold holding in Hho. rewrite Hp in Hho. discriminate. }
              exists tho. rewrite list_lookup_insert_ne by congruence. auto.
      * rewrite (state_same s t (arg th) th mx Ht Hm). exact E.
    + (* UnlockLeave *)
      simpl.
      destruct (excl_holder s E t th (arg th) Ht) as (mx0 & Hmx0 & Ho & Hd).
      { unfold holding. rewrite Hp. reflexivity. }
      assert (mx0 = mx) as -> by congruence.
      assert (Hleave : LeaveCriticalSection (lock mx)
                       = {| cs_valid := cs_valid (lock mx); cs_owner := None;
                            cs_depth := 0; cs_inits := cs_inits (lock mx) |}).
      { unfold LeaveCriticalSection. rewrite Hd. reflexivity. }
      rewrite Hleave.
      assert (Hidle : holding (ret (Mutex_unlock (arg th)) 0 th) = None).
      { unfold holding. simpl.
        destruct (todo th) as [| c rest]; [reflexivity |].
        destruct c; try reflexivity. discriminate Hs. }
      constructor; simpl.
      * intros i thi Hi. split_threads.
        -- unfold shape. simpl. left. exact Hs.
        -- eapply (excl_shape s E); eassumption.
      * intros i thi m Hi Hh. split_threads; [congruence |].
        destruct (excl_holder s E i thi m Hi Hh) as (mx1 & Hmx1 & Ho1 & Hd1).
        destruct (decide (arg th = m)) as [<- | Hne]; [congruence |].
        exists mx1. rewrite list_lookup_insert_ne by exact Hne. auto.
      * intros m mx1 o Hm1 Ho1.
        apply list_lookup_insert_Some in Hm1 as [(<- & <- & _) | (Hne & Hm1)];
          [discriminate Ho1 |].
        destruct (excl_owner s E m mx1 o Hm1 Ho1) as (tho & Hto & Hho).
        assert (o <> t).
        { intros ->. assert (tho = th) as -> by congruence.
          unfold holding in Hho. rewrite Hp in Hho. congruence. }
        exists tho. rewrite list_lookup_insert_ne by congruence. auto.
Qed.

Lemma run_inv_excl (sched : list nat) :
  forall s, Inv s -> Excl s -> Inv (run sched s) /\ Excl (run sched s).
Proof.
  induction sched as [| t sched IH]; intros s I E.
  - split; assumption.
  - simpl. apply IH; [apply step_inv; exact I | apply step_excl; assumption].
Qed.

Lemma paired_head (cs : list call) :
  paired cs = true ->
  match cs with Mutex_unlock _ :: _ => False | _ => True end.
Proof. destruct cs as [| [] ?]; simpl; auto; discriminate. Qed.

Lemma boot_excl (n : nat) (scripts : list (list call)) :
  Forall (fun sc => paired sc = true) scripts -> Excl (boot n scripts).
Proof.
  intros Hall. constructor; unfold boot; simpl.
  - intros t th Ht. apply boot_thread in Ht as (sc & Hsc & ->).
    unfold shape. simpl. left. exact (Forall_lookup_1 _ _ _ _ Hall Hsc).
  - intros t th m Ht Hh. apply boot_thread in Ht as (sc & Hsc & ->).
    pose proof (Forall_lookup_1 _ _ _ _ Hall Hsc) as Hp. simpl in Hp.
    apply paired_head in Hp. unfold holding in Hh. simpl in Hh.
    destruct sc as [| [] ?]; try discriminate Hh. contradiction.
  - intros m mx o Hm Ho. apply lookup_replicate in Hm as [-> _]. discriminate Ho.
Qed.

(** X1: mutual exclusion.  Threads that call [mutex_lock(m); ...
    mutex_unlock(m);] in pairs on mutexes declared with [MUTEX_INITIALIZER],
    under any interleaving: two threads are never between the return of
    [mutex_lock] and the [LeaveCriticalSection] of [mutex_unlock] on the
    same mutex, and the thread that is there owns the critical section (once),
    which is initialized (once) and has its flag set. *)
Theorem mutex_mutual_exclusion
  (n : nat) (scripts : list (list call)) (sched : list nat) :
  Forall (fun sc => paired sc = true) scripts ->
  let s := run sched (boot n scripts) in
  (forall i j thi thj m,
     threads s !! i = Some thi -> threads s !! j = Some thj ->
     holding thi = Some m -> holding thj = Some m -> i = j)
  /\ (forall t th m,
      threads s !! t = Some th -> holding th = Some m ->
      exists mx, mutexes s !! m = Some mx
                 /\ cs_owner (lock mx) = Some t /\ cs_depth (lock mx) = 1%nat
                 /\ init mx <> 0 /\ cs_valid (lock mx) = true
                 /\ cs_inits (lock mx) = 1%nat).
Proof.
  intros Hall s.
  assert (Hlo : Forall (Forall (fun c => locks_only c = true)) scripts).
  { eapply Forall_impl; [exact Hall |]. intros sc. apply paired_locks_only. }
  destruct (run_inv_excl sched (boot n scripts) (boot_inv n scripts Hlo)
              (boot_excl n scripts Hall)) as [I E].
  fold s in I, E. split.
  - intros i j thi thj m Hi Hj Hhi Hhj.
    destruct (excl_holder s E i thi m Hi Hhi) as (mx & Hmx & Ho & _).
    destruct (excl_holder s E j thj m Hj Hhj) as (mx' & Hmx' & Ho' & _).
    congruence.
  - intros t th m Ht Hh.
    destruct (excl_holder s E t th m Ht Hh) as (mx & Hmx & Ho & Hd).
    exists mx. split; [exact Hmx |]. split; [exact Ho |]. split; [exact Hd |].
    assert (Hnz : init mx <> 0)
      by (apply (inv_owner s I m mx Hmx); congruence).
    split; [exact Hnz |].
    destruct (inv_init_set s I m mx Hmx Hnz) as [H1 Hv]. auto.
Qed.

Lemma mutex_mutual_exclusion_witness :
  Forall (fun sc => paired sc = true) two_lockers
  /\ (forall i j thi thj m,
      threads (run (take 14 racing_schedule) (boot 1 two_lockers)) !! i = Some thi ->
      threads (run (take 14 racing_schedule) (boot 1 two_lockers)) !! j = Some thj ->
      holding thi = Some m -> holding thj = Some m -> i = j)
  /\ holding <$> threads (run (take 14 racing_schedule) (boot 1 two_lockers))
     = [Some 0%nat; None].
Proof.
  assert (H : Forall (fun sc => paired sc = true) two_lockers)
    by (repeat constructor).
  split; [exact H |]. split.
  - exact (proj1 (mutex_mutual_exclusion 1 two_lockers (take 14 racing_schedule) H)).
  - vm_compute. reflexivity.
Defined.

End ExclFacts.

Section LiveFacts.
Import WinMutex MutexUse.

Ltac split_threads :=
  repeat match goal with
  | H : <[_ := _]> (threads _) !! _ = Some _ |- _ =>
      apply list_lookup_insert_Some in H;
      destruct H as [(<- & <- & ?) | (? & H)]
  end.

(** [initlock] becomes 1 only for the thread that then stands behind it,
    and a thread behind it stays there while it is 1. *)
Lemma exec_gate (t : nat) (th : thread) (il : Z) (mx : Mutex) :
  snd (fst (exec t th il mx)) = 1 ->
  (il = 1 \/ gated (at_pc (fst (fst (exec t th il mx)))) = true)
  /\ (gated (at_pc th) = true -> gated (at_pc (fst (fst (exec t th il mx)))) = true).
Proof.
  unfold exec.
  destruct (at_pc th) eqn:Hp; simpl;
    repeat match goal with
           | |- context [if ?b then _ else _] => destruct b; simpl
           | |- context [match EnterCriticalSection ?t ?c with _ => _ end] =>
               destruct (EnterCriticalSection t c); simpl
           end;
    rewrite ?Hp; intros H; try discriminate H; auto.
Qed.

Lemma start_ptr (th : thread) (n : nat) :
  at_pc th = Idle ->
  Forall (fun c => (mutex_of c < n)%nat) (todo th) ->
  (at_pc (start th) <> Idle -> (arg (start th) < n)%nat)
  /\ Forall (fun c => (mutex_of c < n)%nat) (todo (start th)).
Proof.
  intros Hp Hall. unfold start. destruct (todo th) as [| c rest] eqn:Htodo.
  - split; [congruence | rewrite Htodo; exact Hall].
  - apply Forall_cons in Hall as [Hc Hrest]. simpl. auto.
Qed.

Lemma step_live (t : nat) (s : state) : Inv s -> Live s -> Live (step t s).
Proof.
  intros I L.
  destruct (step_cases t s)
    as [-> | [(th & Ht & Hpc & ->) | (th & mx & Ht & Hpc & Hm & ->)]].
  - exact L.
  - destruct (live_ptr s L t th Ht) as [_ Hall].
    destruct (start_ptr th _ Hpc Hall) as [Ha Hr].
    constructor; simpl.
    + intros Hil. destruct (live_gate s L Hil) as (j & thj & Hj & Gj).
      exists j, thj. split; [| exact Gj].
      rewrite list_lookup_insert_ne; [exact Hj |].
      intros ->. assert (thj = th) as -> by congruence.
      rewrite Hpc in Gj. discriminate.
    + intros i thi Hi. split_threads; [split; assumption |].
      apply (live_ptr s L i thi Hi).
  - assert (Hlt : (t < length (threads s))%nat) by (eapply lookup_lt_Some; exact Ht).
    destruct (exec_keeps t th (initlock s) mx) as [Ka Kt].
    constructor; simpl.
    + intros Hil.
      destruct (exec_gate t th (initlock s) mx Hil) as [[Hold | Hnew] Hstay].
      * destruct (live_gate s L Hold) as (j & thj & Hj & Gj).
        destruct (decide (j = t)) as [-> | Hne].
        -- assert (thj = th) as -> by congruence.
           eexists t, _. split; [apply list_lookup_insert_eq; exact Hlt |].
           apply Hstay. exact Gj.
        -- exists j, thj. split; [| exact Gj].
           rewrite list_lookup_insert_ne by congruence. exact Hj.
      * eexists t, _. split; [apply list_lookup_insert_eq; exact Hlt | exact Hnew].
    + rewrite length_insert. intros i thi Hi. split_threads.
      * rewrite Ka, Kt. destruct (live_ptr s L t th Ht) as [Hp Hall].
        split; [intros _; apply Hp; exact Hpc | exact Hall].
      * apply (live_ptr s L i thi Hi).
Qed.

Lemma boot_live (n : nat) (scripts : list (list call)) :
  Forall (Forall (fun c => (mutex_of c < n)%nat)) scripts -> Live (boot n scripts).
Proof.
  intros Hall. constructor; unfold boot; simpl.
  - discriminate.
  - intros t th Ht. apply boot_thread in Ht as (sc & Hsc & ->). simpl.
    split; [congruence |]. rewrite length_replicate.
    exact (Forall_lookup_1 _ _ _ _ Hall Hsc).
Qed.

Lemma run_all (sched : list nat) :
  forall s, Inv s -> Excl s -> Live s ->
  Inv (run sched s) /\ Excl (run sched s) /\ Live (run sched s).
Proof.
  induction sched as [| t sched IH]; intros s I E L.
  - auto.
  - simpl. apply IH; [apply step_inv | apply step_excl | apply step_live]; assumption.
Qed.

(** A thread that is not waiting changes the state when it steps. *)
Lemma step_moves (t : nat) (s : state) (th : thread) :
  threads s !! t = Some th ->
  (at_pc th <> Idle -> (arg th < length (mutexes s))%nat) ->
  (at_pc th = Idle -> todo th <> []) ->
  (at_pc th = LockSpin -> initlock s = 0) ->
  (at_pc th = LockEnter ->
   forall mx, mutexes s !! arg th = Some mx ->
              EnterCriticalSection t (lock mx) <> None) ->
  step t s <> s.
Proof.
  intros Ht Hptr Hidle Hspin Henter Heq.
  assert (Hlt : (t < length (threads s))%nat) by (eapply lookup_lt_Some; exact Ht).
  destruct (decide (at_pc th = Idle)) as [Hp | Hp].
  - rewrite (step_start t s th Ht Hp) in Heq.
    assert (Hth : <[t := start th]> (threads s) !! t = Some th)
      by (rewrite <- Ht; f_equal; apply (f_equal threads Heq)).
    rewrite list_lookup_insert_eq in Hth by exact Hlt.
    injection Hth as Hth. unfold start in Hth.
    destruct (todo th) as [| c rest] eqn:Htodo; [apply (Hidle Hp); reflexivity |].
    apply (f_equal todo) in Hth. simpl in Hth. rewrite Htodo in Hth.
    apply (f_equal length) in Hth. simpl in Hth. lia.
  - destruct (lookup_lt_is_Some_2 _ _ (Hptr Hp)) as [mx Hm].
    rewrite (step_exec t s th mx Ht Hp Hm) in Heq.
    assert (Hth : <[t := fst (fst (exec t th (initlock s) mx))]> (threads s) !! t
                  = Some th)
      by (rewrite <- Ht; f_equal; apply (f_equal threads Heq)).
    rewrite list_lookup_insert_eq in Hth by exact Hlt.
    injection Hth as Hth. apply (f_equal at_pc) in Hth.
    unfold exec in Hth.
    destruct (at_pc th) eqn:Hpc; simpl in Hth; try discriminate Hth; try congruence.
    + destruct (init mx =? 0); simpl in Hth; discriminate.
    + rewrite (Hspin eq_refl) in Hth. simpl in Hth. discriminate.
    + destruct (init mx =? 0); simpl in Hth; discriminate.
    + specialize (Henter eq_refl mx Hm).
      destruct (EnterCriticalSection t (lock mx)); [discriminate | congruence].
Qed.

(** In a state that paired calls reach, either every thread is done or
    some thread can take a step that changes the state. *)
Lemma finished_or_moves (s : state) :
  Inv s -> Excl s -> Live s ->
  (forall t th, threads s !! t = Some th -> finished th)
  \/ (exists t, step t s <> s).
Proof.
  intros I E L.
  (* a thread behind the gate always moves *)
  assert (Hgated : forall j thj, threads s !! j = Some thj ->
                                 gated (at_pc thj) = true -> step j s <> s).
  { intros j thj Hj Gj.
    apply (step_moves j s thj Hj).
    - apply (live_ptr s L j thj Hj).
    - intros Hp. rewrite Hp in Gj. discriminate.
    - intros Hp. rewrite Hp in Gj. discriminate.
    - intros Hp. rewrite Hp in Gj. discriminate. }
  (* a thread inside a mutex always moves *)
  assert (Hholder : forall j thj m, threads s !! j = Some thj ->
                                    holding thj = Some m -> step j s <> s).
  { intros j thj m Hj Hh.
    apply (step_moves j s thj Hj).
    - apply (live_ptr s L j thj Hj).
    - intros Hp Hnil. unfold holding in Hh. rewrite Hp, Hnil in Hh. discriminate.
    - intros Hp. unfold holding in Hh. rewrite Hp in Hh. discriminate.
    - intros Hp. unfold holding in Hh. rewrite Hp in Hh. discriminate. }
  destruct (decide (Forall (fun th => at_pc th = Idle /\ todo th = []) (threads s)))
    as [Hfin | Hnot].
  - left. intros t th Ht. exact (Forall_lookup_1 _ _ _ _ Hfin Ht).
  - right. apply not_Forall_Exists in Hnot; [| intros th; apply _].
    apply Exists_exists in Hnot as (th & Hin & Hnf).
    apply list_elem_of_lookup in Hin as [t Ht].
    destruct (live_ptr s L t th Ht) as [Hp _].
    pose proof (step_moves t s th Ht Hp) as Hmove.
    pose proof (Hgated t th Ht) as Hgt.
    pose proof (fun m => Hholder t th m Ht) as Hht. unfold holding in Hht.
    destruct (inv_scripts s I t th Ht) as [Hlpc _].
    destruct (at_pc th) eqn:Hpc; try discriminate Hlpc.
    + (* Idle with calls left *)
      exists t. apply Hmove; try congruence.
      intros _ Hnil. apply Hnf. split; [exact Hpc | exact Hnil].
    + exists t. apply Hmove; congruence.
    + (* LockSpin *)
      destruct (inv_gate_val s I) as [H0 | H1].
      * exists t. apply Hmove; congruence.
      * destruct (live_gate s L H1) as (j & thj & Hj & Gj).
        exists j. exact (Hgated j thj Hj Gj).
    + exists t. apply Hgt. reflexivity.
    + exists t. apply Hgt. reflexivity.
    + exists t. apply Hgt. reflexivity.
    + exists t. apply Hgt. reflexivity.
    + (* LockEnter *)
      destruct (lookup_lt_is_Some_2 _ _ (Hp ltac:(discriminate))) as [mx Hm].
      destruct (EnterCriticalSection t (lock mx)) as [cs1 |] eqn:En.
      * exists t. apply Hmove; congruence.
      * unfold EnterCriticalSection in En.
        destruct (cs_owner (lock mx)) as [o |] eqn:Ho; [| discriminate].
        destruct (excl_owner s E (arg th) mx o Hm Ho) as (tho & Hto & Hho).
        exists o. exact (Hholder o tho (arg th) Hto Hho).
    + (* UnlockLeave *)
      exists t. apply (Hht (arg th)). reflexivity.
Qed.

Lemma reached_all (n : nat) (scripts : list (list call)) (sched : list nat) :
  Forall (fun sc => paired sc = true) scripts ->
  Forall (Forall (fun c => (mutex_of c < n)%nat)) scripts ->
  Inv (run sched (boot n scripts)) /\ Excl (run sched (boot n scripts))
  /\ Live (run sched (boot n scripts)).
Proof.
  intros Hall Hptr.
  assert (Hlo : Forall (Forall (fun c => locks_only c = true)) scripts).
  { eapply Forall_impl; [exact Hall |]. intros sc. apply paired_locks_only. }
  exact (run_all sched (boot n scripts) (boot_inv n scripts Hlo)
           (boot_excl n scripts Hall) (boot_live n scripts Hptr)).
Qed.

(** X2: no deadlock.  Threads that call [mutex_lock] and [mutex_unlock] in
    pairs on existing mutexes declared with [MUTEX_INITIALIZER]: in every
    state they reach, either every thread has made all its calls, or some
    thread can take a step that changes the state: the threads never all
    wait (for [initlock] or in [EnterCriticalSection]). *)
Theorem mutex_no_deadlock
  (n : nat) (scripts : list (list call)) (sched : list nat) :
  Forall (fun sc => paired sc = true) scripts ->
  Forall (Forall (fun c => (mutex_of c < n)%nat)) scripts ->
  let s := run sched (boot n scripts) in
  (forall t th, threads s !! t = Some th -> finished th)
  \/ (exists t, step t s <> s).
Proof.
  intros Hall Hptr s.
  destruct (reached_all n scripts sched Hall Hptr) as (I & E & L).
  apply finished_or_moves; assumption.
Qed.

End LiveFacts.

Section WorkFacts.
Import WinMutex MutexUse.

Lemma sum_list_with_insert {A : Type} (f : A -> nat) (l : list A) (i : nat) (x y : A) :
  l !! i = Some x ->
  (sum_list_with f (<[i := y]> l) + f x = sum_list_with f l + f y)%nat.
Proof.
  revert i. induction l as [| a l IH]; intros i Hi; [discriminate |].
  destruct i as [| i]; simpl in *.
  - injection Hi as ->. lia.
  - specialize (IH i Hi). lia.
Qed.

Lemma exec_work (t : nat) (th : thread) (il : Z) (mx : Mutex) :
  at_pc th <> Idle ->
  exec t th il mx = (th, il, mx)
  \/ (thread_work (fst (fst (exec t th il mx))) < thread_work th)%nat.
Proof.
  intros Hp. destruct (exec_keeps t th il mx) as [_ Kt].
  unfold thread_work. rewrite Kt. unfold exec in *.
  destruct (at_pc th) eqn:Hpc; try congruence; simpl;
    repeat match goal with
           | |- context [if ?b then _ else _] => destruct b; simpl
           | |- context [match EnterCriticalSection ?t ?c with _ => _ end] =>
               destruct (EnterCriticalSection t c); simpl
           end;
    try (right; lia); left; reflexivity.
Qed.

(** Every step that changes the state uses up some of the work. *)
Lemma step_work (t : nat) (s : state) :
  step t s <> s -> (work (step t s) < work s)%nat.
Proof.
  intros Hne.
  destruct (step_cases t s)
    as [Heq | [(th & Ht & Hpc & Heq) | (th & mx & Ht & Hpc & Hm & Heq)]].
  - contradiction.
  - rewrite Heq in *. unfold work. simpl.
    pose proof (sum_list_with_insert thread_work _ t th (start th) Ht) as Hsum.
    assert (Hlt : (thread_work (start th) < thread_work th)%nat).
    { unfold start in *. destruct (todo th) as [| c rest] eqn:Htodo.
      - exfalso. apply Hne. rewrite (list_insert_id _ _ _ Ht).
        destruct s; reflexivity.
      - unfold thread_work. simpl. rewrite Hpc, Htodo. simpl.
        destruct c; simpl; lia. }
    lia.
  - rewrite Heq in *. unfold work. simpl.
    pose proof (sum_list_with_insert thread_work _ t th
                  (fst (fst (exec t th (initlock s) mx))) Ht) as Hsum.
    destruct (exec_work t th (initlock s) mx Hpc) as [Hsame | Hlt]; [| lia].
    exfalso. apply Hne. rewrite Hsame. simpl.
    apply state_same; assumption.
Qed.

(** From a state that paired calls reach, some schedule no longer than the
    work left brings every thread to its end. *)
Lemma can_finish_from (w : nat) :
  forall s, Inv s -> Excl s -> Live s -> (work s <= w)%nat ->
  exists rest : list nat,
    (length rest <= work s)%nat
    /\ forall t th, threads (run rest s) !! t = Some th -> finished th.
Proof.
  induction w as [| w IH]; intros s I E L Hle.
  - destruct (finished_or_moves s I E L) as [Hfin | [t Hmove]].
    + exists []. split; [simpl; lia | exact Hfin].
    + apply step_work in Hmove. lia.
  - destruct (finished_or_moves s I E L) as [Hfin | [t Hmove]].
    + exists []. split; [simpl; lia | exact Hfin].
    + apply step_work in Hmove.
      destruct (IH (step t s)) as (rest & Hlen & Hfin);
        [apply step_inv | apply step_excl | apply step_live | lia |]; try assumption.
      exists (t :: rest). split; [simpl; lia | exact Hfin].
Qed.

(** X3: from every state that such threads reach, some continuation of
    the schedule brings every thread to the end of its calls, in no more
    steps than 9 for each call to come and the statements left in the calls
    in progress. *)
Theorem mutex_can_always_finish
  (n : nat) (scripts : list (list call)) (sched : list nat) :
  Forall (fun sc => paired sc = true) scripts ->
  Forall (Forall (fun c => (mutex_of c < n)%nat)) scripts ->
  exists rest : list nat,
    (length rest <= work (run sched (boot n scripts)))%nat
    /\ forall t th,
       threads (run (sched ++ rest) (boot n scripts)) !! t = Some th -> finished th.
Proof.
  intros Hall Hptr.
  destruct (reached_all n scripts sched Hall Hptr) as (I & E & L).
  destruct (can_finish_from _ _ I E L (le_n _)) as (rest & Hlen & Hfin).
  exists rest. split; [exact Hlen |].
  unfold run in *. rewrite fold_left_app. exact Hfin.
Qed.

Lemma mutex_no_deadlock_witness :
  (Forall (fun sc => paired sc = true) two_lockers
   /\ Forall (Forall (fun c => (mutex_of c < 1)%nat)) two_lockers)
  /\ ((forall t th,
       threads (run (take 8 racing_schedule) (boot 1 two_lockers)) !! t = Some th ->
       finished th)
      \/ exists t, step t (run (take 8 racing_schedule) (boot 1 two_lockers))
                   <> run (take 8 racing_schedule) (boot 1 two_lockers)).
Proof.
  assert (H1 : Forall (fun sc => paired sc = true) two_lockers)
    by (repeat constructor).
  assert (H2 : Forall (Forall (fun c => (mutex_of c < 1)%nat)) two_lockers)
    by (repeat constructor).
  split; [exact (conj H1 H2) |].
  exact (mutex_no_deadlock 1 two_lockers (take 8 racing_schedule) H1 H2).
Defined.

Lemma mutex_can_always_finish_witness :
  (Forall (fun sc => paired sc = true) two_lockers
   /\ Forall (Forall (fun c => (mutex_of c < 1)%nat)) two_lockers)
  /\ exists rest : list nat,
    (length rest <= work (run (take 8 racing_schedule) (boot 1 two_lockers)))%nat
    /\ forall t th,
       threads (run (take 8 racing_schedule ++ rest) (boot 1 two_lockers)) !! t
       = Some th -> finished th.
Proof.
  assert (H1 : Forall (fun sc => paired sc = true) two_lockers)
    by (repeat constructor).
  assert (H2 : Forall (Forall (fun c => (mutex_of c < 1)%nat)) two_lockers)
    by (repeat constructor).
  split; [exact (conj H1 H2) |].
  exact (mutex_can_always_finish 1 two_lockers (take 8 racing_schedule) H1 H2).
Defined.

End WorkFacts.

(** ** The deferred initialization, from the first call to the last return *)

Section CallFacts.
Import WinMutex MutexUse MutexCalls.

Lemma start_calls (th : thread) : at_pc th = Idle -> calls_of (start th) = calls_of th.
Proof.
  intros Hp. unfold start, calls_of, in_progress.
  destruct (todo th) as [| c rest] eqn:Htodo; [rewrite Htodo; reflexivity |].
  simpl. rewrite Hp. destruct c; reflexivity.
Qed.

Lemma exec_calls (t : nat) (th : thread) (il : Z) (mx : Mutex) :
  at_pc th <> Idle -> calls_of (fst (fst (exec t th il mx))) = calls_of th.
Proof.
  intros Hp. unfold exec, calls_of, in_progress.
  destruct (at_pc th) eqn:Hpc; try congruence; simpl;
    repeat match goal with
           | |- context [if ?b then _ else _] => destruct b; simpl
           | |- context [match EnterCriticalSection ?t ?c with _ => _ end] =>
               destruct (EnterCriticalSection t c); simpl
           end;
    rewrite ?Hpc, ?fmap_app, <- ?app_assoc; reflexivity.
Qed.

Lemma step_calls (t : nat) (s : state) :
  calls_of <$> threads (step t s) = calls_of <$> threads s.
Proof.
  destruct (step_cases t s)
    as [-> | [(th & Ht & Hpc & ->) | (th & mx & Ht & Hpc & Hm & ->)]];
    [reflexivity | |]; simpl; rewrite list_fmap_insert.
  - rewrite (start_calls th Hpc). apply list_insert_id.
    rewrite list_lookup_fmap, Ht. reflexivity.
  - rewrite (exec_calls t th _ mx Hpc). apply list_insert_id.
    rewrite list_lookup_fmap, Ht. reflexivity.
Qed.

Lemma run_calls (sched : list nat) :
  forall s, calls_of <$> threads (run sched s) = calls_of <$> threads s.
Proof.
  induction sched as [| t sched IH]; intros s; [reflexivity |].
  simpl. rewrite IH. apply step_calls.
Qed.

Lemma boot_calls (n : nat) (scripts : list (list call)) :
  calls_of <$> threads (boot n scripts) = scripts.
Proof.
  unfold boot. simpl. induction scripts as [| sc scripts IH]; [reflexivity |].
  simpl. f_equal. exact IH.
Qed.

Lemma step_mutexes_length (t : nat) (s : state) :
  length (mutexes (step t s)) = length (mutexes s).
Proof.
  destruct (step_cases t s)
    as [-> | [(th & Ht & Hpc & ->) | (th & mx & Ht & Hpc & Hm & ->)]];
    [reflexivity | reflexivity |]; simpl; apply length_insert.
Qed.

Lemma run_mutexes_length (sched : list nat) :
  forall s, length (mutexes (run sched s)) = length (mutexes s).
Proof.
  induction sched as [| t sched IH]; intros s; [reflexivity |].
  simpl. rewrite IH. apply step_mutexes_length.
Qed.

Lemma returned_zero (l : list (call * Z)) :
  Forall (fun cr : call * Z => cr.2 = 0) l -> l = (fun c => (c, 0)) <$> (fst <$> l).
Proof.
  induction l as [| [c r] l IH]; intros H; [reflexivity |].
  apply Forall_cons in H as [Hr Hl]. simpl in *. subst r. f_equal. apply IH. exact Hl.
Qed.

(** One step of a thread whose call in progress is on the mutex [m]. *)
Lemma step_local_at (t m : nat) (s : state) (th : thread) (mx : Mutex) :
  threads s !! t = Some th -> mutexes s !! m = Some mx ->
  at_pc th = Idle \/ arg th = m ->
  step t s
  = {| initlock := snd (fst (local t (th, initlock s, mx)));
       mutexes := <[m := snd (local t (th, initlock s, mx))]> (mutexes s);
       threads := <[t := fst (fst (local t (th, initlock s, mx)))]> (threads s) |}.
Proof.
  intros Ht Hm Hon.
  destruct (decide (at_pc th = Idle)) as [Hp | Hp].
  - rewrite (local_idle t th _ mx Hp). simpl.
    rewrite (step_start t s th Ht Hp), (list_insert_id _ _ _ Hm). reflexivity.
  - rewrite (local_busy t th _ mx Hp).
    destruct Hon as [Hidle | Harg]; [congruence |].
    subst m. apply (step_exec t s th mx Ht Hp Hm).
Qed.

Lemma run_local_while (t m : nat) (k : nat) :
  forall (s : state) (th : thread) (mx : Mutex),
  threads s !! t = Some th -> mutexes s !! m = Some mx ->
  (forall j, (j < k)%nat ->
             at_pc (fst (fst (Nat.iter j (local t) (th, initlock s, mx)))) = Idle
             \/ arg (fst (fst (Nat.iter j (local t) (th, initlock s, mx)))) = m) ->
  run (repeat t k) s
  = {| initlock := snd (fst (Nat.iter k (local t) (th, initlock s, mx)));
       mutexes := <[m := snd (Nat.iter k (local t) (th, initlock s, mx))]> (mutexes s);
       threads :=
         <[t := fst (fst (Nat.iter k (local t) (th, initlock s, mx)))]> (threads s) |}.
Proof.
  induction k as [| k IH]; intros s th mx Ht Hm Hon.
  - simpl. symmetry. apply state_same; assumption.
  - rewrite Nat.iter_succ_r.
    change (run (repeat t (S k)) s) with (run (repeat t k) (step t s)).
    rewrite (step_local_at t m s th mx Ht Hm (Hon 0%nat ltac:(lia))).
    pose proof (fun j (Hj : (j < k)%nat) => Hon (S j) ltac:(lia)) as Hon1.
    destruct (local t (th, initlock s, mx)) as [[th1 il1] mx1] eqn:Hl.
    simpl.
    rewrite (IH _ th1 mx1); simpl.
    + rewrite !list_insert_insert_eq. reflexivity.
    + apply list_lookup_insert_eq. eapply lookup_lt_Some. exact Ht.
    + apply list_lookup_insert_eq. eapply lookup_lt_Some. exact Hm.
    + intros j Hj. specialize (Hon1 j Hj). rewrite Nat.iter_succ_r, Hl in Hon1.
      exact Hon1.
Qed.

(** The first [mutex_lock] on a mutex in its static state, by a thread that
    runs alone while [initlock] is free. *)
Lemma first_lock_alone (s : state) (t m a : nat) (rest : list call)
    (rt : list (call * Z)) :
  threads s !! t
  = Some {| at_pc := Idle; arg := a; todo := Mutex_lock m :: rest; returned := rt |} ->
  mutexes s !! m = Some MUTEX_INITIALIZER -> initlock s = 0 ->
  run (repeat t 6) s
  = {| initlock := 1;
       mutexes := <[m := {| lock := {| cs_valid := true; cs_owner := None;
                                       cs_depth := 0%nat; cs_inits := 1%nat |};
                            init := 1 |}]> (mutexes s);
       threads := <[t := {| at_pc := LockRelease; arg := m; todo := rest;
                            returned := rt |}]> (threads s) |}
  /\ run (repeat t 8) s
     = {| initlock := 0;
          mutexes := <[m := locked_once t]> (mutexes s);
          threads := <[t := {| at_pc := Idle; arg := m; todo := rest;
                               returned := rt ++ [(Mutex_lock m, 0)] |}]>
                       (threads s) |}.
Proof.
  intros Ht Hm Hil.
  assert (Hon : forall k j, (j < k)%nat -> (k <= 8)%nat ->
            at_pc (fst (fst (Nat.iter j (local t)
                     ({| at_pc := Idle; arg := a; todo := Mutex_lock m :: rest;
                         returned := rt |}, initlock s, MUTEX_INITIALIZER)))) = Idle
            \/ arg (fst (fst (Nat.iter j (local t)
                     ({| at_pc := Idle; arg := a; todo := Mutex_lock m :: rest;
                         returned := rt |}, initlock s, MUTEX_INITIALIZER)))) = m).
  { intros k j Hj Hk. rewrite Hil.
    do 8 (destruct j as [| j]; [cbn; auto |]). lia. }
  split.
  - rewrite (run_local_while t m 6 s _ _ Ht Hm (fun j Hj => Hon 6%nat j Hj ltac:(lia))).
    rewrite Hil. reflexivity.
  - rewrite (run_local_while t m 8 s _ _ Ht Hm (fun j Hj => Hon 8%nat j Hj ltac:(lia))).
    rewrite Hil. reflexivity.
Qed.

End CallFacts.

Section DeferredInit.
Import WinMutex MutexUse MutexCalls.

(** Once every thread is at its end: the gate is free, every call has
    returned 0, and a mutex that was locked is initialized once and free. *)
Lemma finished_outcome (n : nat) (scripts : list (list call)) (s : state) :
  Inv s -> Excl s -> Live s -> all_zero s ->
  calls_of <$> threads s = scripts -> length (mutexes s) = n ->
  Forall (Forall (fun c => (mutex_of c < n)%nat)) scripts ->
  (forall t th, threads s !! t = Some th -> finished th) ->
  initlock s = 0
  /\ (forall t sc, scripts !! t = Some sc ->
      exists th, threads s !! t = Some th
                 /\ returned th = (fun c => (c, 0)) <$> sc)
  /\ (forall t sc m, scripts !! t = Some sc -> Mutex_lock m ∈ sc ->
      exists mx, mutexes s !! m = Some mx
                 /\ init mx <> 0 /\ cs_inits (lock mx) = 1%nat
                 /\ cs_valid (lock mx) = true /\ cs_owner (lock mx) = None).
Proof.
  intros I E L Hz Hcalls Hlen Hptr Hfin.
  assert (Hret : forall t sc, scripts !! t = Some sc ->
            exists th, threads s !! t = Some th
                       /\ returned th = (fun c => (c, 0)) <$> sc).
  { intros t sc Hsc. rewrite <- Hcalls, list_lookup_fmap in Hsc.
    destruct (threads s !! t) as [th |] eqn:Ht; [| discriminate].
    injection Hsc as Hsc. exists th. split; [reflexivity |].
    destruct (Hfin t th Ht) as [Hp Htodo].
    unfold calls_of, in_progress in Hsc. rewrite Hp, Htodo, !app_nil_r in Hsc.
    rewrite <- Hsc. apply returned_zero. apply (Hz t th Ht). }
  split; [| split; [exact Hret |]].
  - destruct (inv_gate_val s I) as [H0 | H1]; [exact H0 |].
    destruct (live_gate s L H1) as (i & th & Hi & G).
    destruct (Hfin i th Hi) as [Hp _]. rewrite Hp in G. discriminate G.
  - intros t sc m Hsc Hin.
    destruct (Hret t sc Hsc) as (th & Ht & Hr).
    assert (Hlt : (m < length (mutexes s))%nat).
    { rewrite Hlen.
      pose proof (Forall_lookup_1 _ _ _ _ Hptr Hsc) as Hall.
      rewrite Forall_forall in Hall. apply (Hall _ Hin). }
    destruct (lookup_lt_is_Some_2 _ _ Hlt) as [mx Hm].
    exists mx. split; [exact Hm |].
    assert (Hnz : init mx <> 0).
    { apply (inv_returned s I t th m 0 mx Ht); [| exact Hm].
      rewrite Hr. apply (list_elem_of_fmap_2 (fun c => (c, 0))). exact Hin. }
    destruct (inv_init_set s I m mx Hm Hnz) as [H1 Hv].
    split; [exact Hnz |]. split; [exact H1 |]. split; [exact Hv |].
    destruct (cs_owner (lock mx)) as [o |] eqn:Ho; [| reflexivity].
    destruct (excl_owner s E m mx o Hm Ho) as (tho & Hto & Hho).
    destruct (Hfin o tho Hto) as [Hp Htodo].
    unfold holding in Hho. rewrite Hp, Htodo in Hho. discriminate Hho.
Qed.

Lemma boot_all_zero (n : nat) (scripts : list (list call)) : all_zero (boot n scripts).
Proof.
  intros i th Hi. unfold boot in Hi. simpl in Hi.
  apply boot_thread in Hi as (sc & _ & ->). constructor.
Qed.

(** C1: mutexes declared with [MUTEX_INITIALIZER], any number of threads
    that call [mutex_lock] (and [mutex_unlock]) on them, any interleaving.

    In every state reached: [InitializeCriticalSection] has run at most once
    on each mutex, and exactly once with the section valid as soon as the
    flag is set; it runs only behind [initlock] (a word of its own, not the
    mutex's lock), with the flag still unset; at most one thread is between
    winning [initlock] and releasing it; a thread reaches
    [EnterCriticalSection] only with the flag set, and every [mutex_lock]
    that returned left the mutex initialized exactly once.

    The statements around [initlock]: the thread that finds it at 0 sets it
    to 1 and tests the flag again; a thread that finds it at 1 stays on the
    compare-and-swap; behind the gate the section is initialized only when
    the flag is still unset, then the flag is set, then [initlock] goes back
    to 0.

    The first [mutex_lock] does initialize: a thread that starts with
    [mutex_lock(m)] and runs alone has, after six steps, initialized the
    section once and set the flag while it still holds [initlock] and nobody
    owns the section; after eight steps it has released [initlock], owns the
    section and has returned 0.

    And the calls return: when the calls come in pairs on existing mutexes,
    from every state reached some continuation of the schedule brings every
    thread to its end, with [initlock] free, every call returned with 0,
    and every mutex that was locked initialized exactly once, its flag set,
    and free. *)
Theorem deferred_init_once (n : nat) (scripts : list (list call)) (sched : list nat) :
  Forall (Forall (fun c => locks_only c = true)) scripts ->
  let s := run sched (boot n scripts) in
  (forall m mx, mutexes s !! m = Some mx ->
     (cs_inits (lock mx) <= 1)%nat
     /\ (init mx <> 0 -> cs_inits (lock mx) = 1%nat /\ cs_valid (lock mx) = true)
     /\ (cs_owner (lock mx) <> None -> init mx <> 0))
  /\ (forall t th mx,
      threads s !! t = Some th -> mutexes s !! arg th = Some mx ->
      (at_pc th = LockInitCS -> init mx = 0 /\ cs_inits (lock mx) = 0%nat)
      /\ (at_pc th = LockEnter ->
          init mx <> 0 /\ cs_inits (lock mx) = 1%nat /\ cs_valid (lock mx) = true)
      /\ (gated (at_pc th) = true -> initlock s = 1))
  /\ (forall i j thi thj,
      threads s !! i = Some thi -> threads s !! j = Some thj ->
      gated (at_pc thi) = true -> gated (at_pc thj) = true -> i = j)
  /\ (forall t th m r mx,
      threads s !! t = Some th -> (Mutex_lock m, r) ∈ returned th ->
      mutexes s !! m = Some mx ->
      init mx <> 0 /\ cs_inits (lock mx) = 1%nat /\ cs_valid (lock mx) = true)
  /\ (forall t th mx,
      threads s !! t = Some th -> mutexes s !! arg th = Some mx ->
      (at_pc th = LockSpin -> initlock s = 0 ->
       step t s = {| initlock := 1; mutexes := mutexes s;
                     threads := <[t := goto LockRetest th]> (threads s) |})
      /\ (at_pc th = LockSpin -> initlock s <> 0 -> step t s = s)
      /\ (at_pc th = LockRetest -> init mx = 0 ->
          step t s = {| initlock := initlock s; mutexes := mutexes s;
                        threads := <[t := goto LockInitCS th]> (threads s) |})
      /\ (at_pc th = LockRetest -> init mx <> 0 ->
          step t s = {| initlock := initlock s; mutexes := mutexes s;
                        threads := <[t := goto LockRelease th]> (threads s) |})
      /\ (at_pc th = LockInitCS ->
          step t s
          = {| initlock := initlock s;
               mutexes := <[arg th := with_lock (InitializeCriticalSection (lock mx)) mx]>
                            (mutexes s);
               threads := <[t := goto LockSetInit th]> (threads s) |})
      /\ (at_pc th = LockSetInit ->
          step t s = {| initlock := initlock s;
                        mutexes := <[arg th := with_init 1 mx]> (mutexes s);
                        threads := <[t := goto LockRelease th]> (threads s) |})
      /\ (at_pc th = LockRelease ->
          step t s = {| initlock := 0; mutexes := mutexes s;
                        threads := <[t := goto LockEnter th]> (threads s) |}))
  /\ (forall t m rest,
      scripts !! t = Some (Mutex_lock m :: rest) -> (m < n)%nat ->
      run (repeat t 6) (boot n scripts)
      = {| initlock := 1;
           mutexes := <[m := {| lock := {| cs_valid := true; cs_owner := None;
                                           cs_depth := 0%nat; cs_inits := 1%nat |};
                                init := 1 |}]> (replicate n MUTEX_INITIALIZER);
           threads := <[t := {| at_pc := LockRelease; arg := m; todo := rest;
                                returned := [] |}]> (map new_thread scripts) |}
      /\ run (repeat t 8) (boot n scripts)
         = {| initlock := 0;
              mutexes := <[m := locked_once t]> (replicate n MUTEX_INITIALIZER);
              threads := <[t := {| at_pc := Idle; arg := m; todo := rest;
                                   returned := [(Mutex_lock m, 0)] |}]>
                           (map new_thread scripts) |})
  /\ (Forall (fun sc => paired sc = true) scripts ->
      Forall (Forall (fun c => (mutex_of c < n)%nat)) scripts ->
      exists rest : list nat,
        (length rest <= work s)%nat
        /\ (forall t th,
            threads (run (sched ++ rest) (boot n scripts)) !! t = Some th ->
            finished th)
        /\ initlock (run (sched ++ rest) (boot n scripts)) = 0
        /\ (forall t sc, scripts !! t = Some sc ->
            exists th, threads (run (sched ++ rest) (boot n scripts)) !! t = Some th
                       /\ returned th = (fun c => (c, 0)) <$> sc)
        /\ (forall t sc m, scripts !! t = Some sc -> Mutex_lock m ∈ sc ->
            exists mx, mutexes (run (sched ++ rest) (boot n scripts)) !! m = Some mx
                       /\ init mx <> 0 /\ cs_inits (lock mx) = 1%nat
                       /\ cs_valid (lock mx) = true /\ cs_owner (lock mx) = None)).
Proof.
  intros Hall s.
  assert (I : Inv s) by (apply run_inv, boot_inv; exact Hall).
  split; [| split; [| split; [| split; [| split; [| split]]]]].
  - intros m mx Hm. split; [| split].
    + destruct (Z.eq_dec (init mx) 0) as [Hz | Hnz].
      * destruct (inv_init_unset s I m mx Hm Hz) as [H0 | (j & thj & Hj & Hpj & Haj)];
          [lia |].
        subst m. destruct (inv_at_setinit s I j thj mx Hj Hm Hpj) as (_ & H1 & _). lia.
      * destruct (inv_init_set s I m mx Hm Hnz) as [H1 _]. lia.
    + apply (inv_init_set s I m mx Hm).
    + apply (inv_owner s I m mx Hm).
  - intros t th mx Ht Hm. split; [| split].
    + apply (inv_at_initcs s I t th mx Ht Hm).
    + intros Hp.
      assert (Hnz : init mx <> 0)
        by (apply (inv_at_enter s I t th mx Ht Hm); right; exact Hp).
      split; [exact Hnz |]. apply (inv_init_set s I _ mx Hm Hnz).
    + intros G. destruct (inv_gate_val s I) as [H0 | H1]; [| exact H1].
      rewrite (inv_gate_free s I t th H0 Ht) in G. discriminate G.
  - apply (inv_gate_one s I).
  - intros t th m r mx Ht Hr Hm.
    assert (Hnz : init mx <> 0) by (eapply (inv_returned s I); eassumption).
    split; [exact Hnz |]. apply (inv_init_set s I _ mx Hm Hnz).
  - intros t th mx Ht Hm.
    destruct (initlock_protocol t th (initlock s) mx)
      as (P1 & P2 & P3 & P4 & P5 & P6 & P7).
    assert (Hstep : at_pc th <> Idle ->
              step t s
              = {| initlock := snd (fst (exec t th (initlock s) mx));
                   mutexes := <[arg th := snd (exec t th (initlock s) mx)]> (mutexes s);
                   threads := <[t := fst (fst (exec t th (initlock s) mx))]> (threads s) |})
      by (intros Hp; apply (step_exec t s th mx Ht Hp Hm)).
    repeat split; intros Hp.
    + intros H0. rewrite Hstep by congruence. rewrite (P1 Hp H0). simpl.
      rewrite (list_insert_id _ _ _ Hm). reflexivity.
    + intros Hne. rewrite Hstep by congruence. rewrite (P2 Hp Hne). simpl.
      apply state_same; assumption.
    + intros Hz. rewrite Hstep by congruence. rewrite (P3 Hp Hz). simpl.
      rewrite (list_insert_id _ _ _ Hm). reflexivity.
    + intros Hnz. rewrite Hstep by congruence. rewrite (P4 Hp Hnz). simpl.
      rewrite (list_insert_id _ _ _ Hm). reflexivity.
    + rewrite Hstep by congruence. rewrite (P5 Hp). reflexivity.
    + rewrite Hstep by congruence. rewrite (P6 Hp). reflexivity.
    + rewrite Hstep by congruence. rewrite (P7 Hp). simpl.
      rewrite (list_insert_id _ _ _ Hm). reflexivity.
  - intros t m rest Hsc Hm.
    apply (first_lock_alone (boot n scripts) t m 0 rest []).
    + unfold boot. simpl.
      change (map new_thread scripts) with (new_thread <$> scripts).
      rewrite list_lookup_fmap, Hsc. reflexivity.
    + unfold boot. simpl. apply lookup_replicate. auto.
    + reflexivity.
  - intros Hpair Hptr.
    destruct (reached_all n scripts sched Hpair Hptr) as (_ & E & L).
    fold s in E, L.
    destruct (can_finish_from _ s I E L (le_n _)) as (rest & Hlen & Hfin).
    exists rest. split; [exact Hlen |].
    assert (Hrun : run (sched ++ rest) (boot n scripts) = run rest s)
      by (unfold s, run; apply fold_left_app).
    rewrite Hrun.
    destruct (run_all rest s I E L) as (I2 & E2 & L2).
    split; [exact Hfin |].
    apply (finished_outcome n scripts (run rest s) I2 E2 L2).
    + apply run_all_zero. unfold s. apply run_all_zero. apply boot_all_zero.
    + rewrite run_calls. unfold s. rewrite run_calls. apply boot_calls.
    + rewrite run_mutexes_length. unfold s. rewrite run_mutexes_length.
      unfold boot. simpl. apply length_replicate.
    + exact Hptr.
    + exact Hfin.
Qed.

Lemma deferred_init_once_witness :
  Forall (Forall (fun c => locks_only c = true)) two_lockers
  /\ (forall m mx,
      mutexes (run racing_schedule (boot 1 two_lockers)) !! m = Some mx ->
      (cs_inits (lock mx) <= 1)%nat
      /\ (init mx <> 0 -> cs_inits (lock mx) = 1%nat /\ cs_valid (lock mx) = true)
      /\ (cs_owner (lock mx) <> None -> init mx <> 0))
  /\ run (repeat 1%nat 8) (boot 1 two_lockers)
     = {| initlock := 0;
          mutexes := [locked_once 1];
          threads := [new_thread [Mutex_lock 0%nat; Mutex_unlock 0%nat];
                      {| at_pc := Idle; arg := 0; todo := [Mutex_unlock 0%nat];
                         returned := [(Mutex_lock 0%nat, 0)] |}] |}
  /\ exists rest : list nat,
       (length rest <= work (run (take 8 racing_schedule) (boot 1 two_lockers)))%nat
       /\ initlock (run (take 8 racing_schedule ++ rest) (boot 1 two_lockers)) = 0
       /\ forall t sc m, two_lockers !! t = Some sc -> Mutex_lock m ∈ sc ->
          exists mx,
            mutexes (run (take 8 racing_schedule ++ rest) (boot 1 two_lockers)) !! m
            = Some mx
            /\ init mx <> 0 /\ cs_inits (lock mx) = 1%nat
            /\ cs_valid (lock mx) = true /\ cs_owner (lock mx) = None.
Proof.
  assert (H : Forall (Forall (fun c => locks_only c = true)) two_lockers)
    by (repeat constructor).
  assert (H1 : Forall (fun sc => paired sc = true) two_lockers)
    by (repeat constructor).
  assert (H2 : Forall (Forall (fun c => (mutex_of c < 1)%nat)) two_lockers)
    by (repeat constructor).
  split; [exact H |]. split; [| split].
  - exact (proj1 (deferred_init_once 1 two_lockers racing_schedule H)).
  - destruct (deferred_init_once 1 two_lockers [] H) as (_ & _ & _ & _ & _ & F & _).
    exact (proj2 (F 1%nat 0%nat [Mutex_unlock 0%nat] eq_refl (le_n 1))).
  - destruct (deferred_init_once 1 two_lockers (take 8 racing_schedule) H)
      as (_ & _ & _ & _ & _ & _ & G).
    destruct (G H1 H2) as (rest & Hlen & _ & Hil & _ & Hmx).
    exists rest. split; [exact Hlen |]. split; [exact Hil | exact Hmx].
Defined.

End DeferredInit.

(** ** Mutexes set up by [mutex_init] *)

Section ManualFacts.
Import WinMutex MutexManual.

Lemma inits_of_insert (mxs : list Mutex) (m : nat) (mx mx1 : Mutex) :
  mxs !! m = Some mx -> cs_inits (lock mx1) = cs_inits (lock mx) ->
  inits_of (<[m := mx1]> mxs) = inits_of mxs.
Proof.
  intros Hm Hi. unfold inits_of. rewrite list_fmap_insert, Hi.
  apply list_insert_id. rewrite list_lookup_fmap, Hm. reflexivity.
Qed.

Lemma leave_inits (cs : CRITICAL_SECTION) :
  cs_inits (LeaveCriticalSection cs) = cs_inits cs.
Proof. unfold LeaveCriticalSection. destruct (cs_depth cs) as [| [| k]]; reflexivity. Qed.

Lemma enter_inits (t : nat) (cs cs1 : CRITICAL_SECTION) :
  EnterCriticalSection t cs = Some cs1 -> cs_inits cs1 = cs_inits cs.
Proof.
  unfold EnterCriticalSection. destruct (cs_owner cs) as [o |].
  - destruct (o =? t)%nat; [| discriminate]. intros [= <-]. reflexivity.
  - intros [= <-]. reflexivity.
Qed.

Lemma step_direct (il : Z) (inits : list nat) (t : nat) (s : state) :
  Direct il inits s -> Direct il inits (step t s).
Proof.
  intros D.
  destruct (step_cases t s)
    as [-> | [(th & Ht & Hpc & ->) | (th & mx & Ht & Hpc & Hm & ->)]].
  - exact D.
  - destruct (dir_pc _ _ _ D t th Ht) as [_ Hall].
    constructor; simpl; try apply D.
    intros i thi Hi.
    apply list_lookup_insert_Some in Hi as [(<- & <- & _) | (_ & Hi)];
      [| apply (dir_pc _ _ _ D i thi Hi)].
    unfold start. destruct (todo th) as [| c rest] eqn:Htodo.
    + rewrite Hpc, Htodo. split; [reflexivity | constructor].
    + apply Forall_cons in Hall as [Hc Hrest]. simpl.
      split; [destruct c; try discriminate Hc; reflexivity | exact Hrest].
  - destruct (dir_pc _ _ _ D t th Ht) as [Hplain Hall].
    pose proof (dir_flag _ _ _ D _ mx Hm) as Hnz.
    destruct (exec_keeps t th (initlock s) mx) as [_ Kt].
    assert (Hex : snd (fst (exec t th (initlock s) mx)) = initlock s
                  /\ init (snd (exec t th (initlock s) mx)) = init mx
                  /\ cs_inits (lock (snd (exec t th (initlock s) mx)))
                     = cs_inits (lock mx)
                  /\ plain (at_pc (fst (fst (exec t th (initlock s) mx)))) = true).
    { unfold exec.
      destruct (at_pc th) eqn:Hp; try discriminate Hplain; try congruence.
      - replace (init mx =? 0) with false by (symmetry; apply Z.eqb_neq; exact Hnz).
        simpl. auto.
      - destruct (EnterCriticalSection t (lock mx)) as [cs1 |] eqn:En; simpl.
        + rewrite (enter_inits t _ _ En). auto.
        + rewrite Hp. auto.
      - simpl. rewrite leave_inits. auto. }
    destruct Hex as (Hil & Hinit & Hinits & Hpl).
    constructor; simpl.
    + rewrite Hil. apply D.
    + rewrite (inits_of_insert _ _ mx _ Hm Hinits). apply D.
    + intros k mxk Hk.
      apply list_lookup_insert_Some in Hk as [(_ & <- & _) | (_ & Hk)];
        [congruence | apply (dir_flag _ _ _ D k mxk Hk)].
    + intros i thi Hi.
      apply list_lookup_insert_Some in Hi as [(<- & <- & _) | (_ & Hi)];
        [| apply (dir_pc _ _ _ D i thi Hi)].
      split; [exact Hpl | rewrite Kt; exact Hall].
Qed.

Lemma run_direct (il : Z) (inits : list nat) (sched : list nat) :
  forall s, Direct il inits s -> Direct il inits (run sched s).
Proof.
  induction sched as [| t sched IH]; intros s D; [exact D |].
  simpl. apply IH. apply step_direct. exact D.
Qed.

(** X4: mutexes whose flag is set, as [mutex_init] leaves them, and
    threads that call [mutex_lock] and [mutex_unlock] on them, under any
    interleaving and whatever the value of [initlock]: no thread enters the
    deferred initialization (the spin on [initlock] included), [initlock]
    keeps its value, no critical section is initialized again and every flag
    stays set. *)
Theorem initialized_mutex_skips_gate (s0 : state) (sched : list nat) :
  (forall m mx, mutexes s0 !! m = Some mx -> init mx <> 0) ->
  (forall t th, threads s0 !! t = Some th ->
                at_pc th = Idle /\ Forall (fun c => locks_only c = true) (todo th)) ->
  let s := run sched s0 in
  initlock s = initlock s0
  /\ inits_of (mutexes s) = inits_of (mutexes s0)
  /\ (forall m mx, mutexes s !! m = Some mx -> init mx <> 0)
  /\ (forall t th, threads s !! t = Some th -> plain (at_pc th) = true).
Proof.
  intros Hflag Hth s.
  assert (D0 : Direct (initlock s0) (inits_of (mutexes s0)) s0).
  { constructor; auto.
    intros t th Ht. destruct (Hth t th Ht) as [-> Hall]. auto. }
  pose proof (run_direct _ _ sched s0 D0) as D. fold s in D.
  split; [apply D |]. split; [apply D |]. split; [apply D |].
  intros t th Ht. apply (dir_pc _ _ _ D t th Ht).
Qed.

Lemma initialized_mutex_skips_gate_witness :
  ((forall m mx, mutexes gate_taken !! m = Some mx -> init mx <> 0)
   /\ (forall t th, threads gate_taken !! t = Some th ->
                    at_pc th = Idle /\ Forall (fun c => locks_only c = true) (todo th)))
  /\ initlock (run racing_schedule gate_taken) = 1
  /\ inits_of (mutexes (run racing_schedule gate_taken)) = [1%nat]
  /\ (forall t th, threads (run racing_schedule gate_taken) !! t = Some th ->
                   plain (at_pc th) = true).
Proof.
  assert (H1 : forall m mx, mutexes gate_taken !! m = Some mx -> init mx <> 0).
  { intros [| m] mx Hm; [| discriminate Hm]. injection Hm as <-. discriminate. }
  assert (H2 : forall t th, threads gate_taken !! t = Some th ->
                 at_pc th = Idle /\ Forall (fun c => locks_only c = true) (todo th)).
  { intros [| [| t]] th Ht; try discriminate Ht; injection Ht as <-;
      (split; [reflexivity | repeat constructor]). }
  split; [exact (conj H1 H2) |].
  destruct (initialized_mutex_skips_gate gate_taken racing_schedule H1 H2)
    as (Ha & Hb & _ & Hd).
  split; [exact Ha |]. split; [exact Hb | exact Hd].
Defined.

Lemma solo_lifecycle (t m a : nat) (rt : list (call * Z)) (il : Z) (mx : Mutex) :
  Nat.iter 11 (local t)
    ({| at_pc := Idle; arg := a; todo := lifecycle m; returned := rt |}, il, mx)
  = ({| at_pc := Idle; arg := m; todo := [];
        returned := (((rt ++ [(Mutex_init m, 0)]) ++ [(Mutex_lock m, 0)])
                     ++ [(Mutex_unlock m, 0)]) ++ [(Mutex_end m, 0)] |},
     il,
     {| lock := {| cs_valid := false; cs_owner := None; cs_depth := 0%nat;
                   cs_inits := S (cs_inits (lock mx)) |};
        init := 0 |}).
Proof. reflexivity. Qed.

(** X5: a thread that runs [mutex_init], [mutex_lock], [mutex_unlock] and
    [mutex_end] ([mutex_free]) on a mutex, without another thread stepping
    in between: after 11 steps the four calls have returned 0, the critical
    section has been initialized once more and deleted, the flag is 0 again
    and nobody owns the section; [initlock] is never written, whatever its
    value. *)
Theorem explicit_lifecycle_alone
  (s : state) (t m a : nat) (rt : list (call * Z)) (mx : Mutex) :
  threads s !! t
  = Some {| at_pc := Idle; arg := a; todo := lifecycle m; returned := rt |} ->
  mutexes s !! m = Some mx ->
  run (repeat t 11) s
  = {| initlock := initlock s;
       mutexes := <[m := {| lock := {| cs_valid := false; cs_owner := None;
                                       cs_depth := 0%nat;
                                       cs_inits := S (cs_inits (lock mx)) |};
                            init := 0 |}]> (mutexes s);
       threads := <[t := {| at_pc := Idle; arg := m; todo := [];
                            returned := rt ++ [(Mutex_init m, 0); (Mutex_lock m, 0);
                                               (Mutex_unlock m, 0); (Mutex_end m, 0)] |}]>
                    (threads s) |}
  /\ forall k, (k <= 11)%nat -> initlock (run (repeat t k) s) = initlock s.
Proof.
  intros Ht Hm.
  assert (Hon : on_mutex m {| at_pc := Idle; arg := a; todo := lifecycle m;
                               returned := rt |}).
  { split; [repeat constructor | left; reflexivity]. }
  split.
  - rewrite (run_local t m 11 s _ mx Ht Hm Hon), solo_lifecycle. simpl.
    rewrite <- !app_assoc. reflexivity.
  - intros k Hk. rewrite (run_local t m k s _ mx Ht Hm Hon). simpl.
    do 12 (destruct k as [| k]; [reflexivity |]). lia.
Qed.

Lemma explicit_lifecycle_alone_witness :
  (threads alone_with_gate_taken !! 0%nat
   = Some {| at_pc := Idle; arg := 0; todo := lifecycle 0; returned := [] |}
   /\ mutexes alone_with_gate_taken !! 0%nat = Some MUTEX_INITIALIZER)
  /\ run (repeat 0%nat 11) alone_with_gate_taken
     = {| initlock := 1;
          mutexes := [{| lock := {| cs_valid := false; cs_owner := None;
                                    cs_depth := 0%nat; cs_inits := 1%nat |};
                         init := 0 |}];
          threads := [{| at_pc := Idle; arg := 0; todo := [];
                         returned := [(Mutex_init 0%nat, 0); (Mutex_lock 0%nat, 0);
                                      (Mutex_unlock 0%nat, 0); (Mutex_end 0%nat, 0)] |}] |}.
Proof.
  split; [split; reflexivity |].
  exact (proj1 (explicit_lifecycle_alone alone_with_gate_taken 0 0 0 [] MUTEX_INITIALIZER
                  eq_refl eq_refl)).
Defined.

End ManualFacts.

(** ** [mts_inc]: the count under the mutex *)

Section MtsFacts.
Import CInt WinMutex MutexUse MtsInc.

Lemma step_other (t i : nat) (s : state) :
  i <> t -> threads (step t s) !! i = threads s !! i.
Proof.
  intros Hne.
  destruct (step_cases t s)
    as [-> | [(th & Ht & Hpc & ->) | (th & mx & Ht & Hpc & Hm & ->)]];
    [reflexivity | |]; simpl; apply list_lookup_insert_ne; congruence.
Qed.

Lemma step_length (t : nat) (s : state) :
  length (threads (step t s)) = length (threads s).
Proof.
  destruct (step_cases t s)
    as [-> | [(th & Ht & Hpc & ->) | (th & mx & Ht & Hpc & Hm & ->)]];
    [reflexivity | |]; simpl; apply length_insert.
Qed.

Lemma exec_never_unlockleave (t : nat) (th : thread) (il : Z) (mx : Mutex) :
  at_pc th <> Idle -> at_pc (fst (fst (exec t th il mx))) = UnlockLeave -> False.
Proof.
  unfold exec.
  destruct (at_pc th) eqn:Hp; try congruence; simpl;
    repeat match goal with
           | |- context [if ?b then _ else _] => destruct b; simpl
           | |- context [match EnterCriticalSection ?t ?c with _ => _ end] =>
               destruct (EnterCriticalSection t c); simpl
           end;
    rewrite ?Hp; intros _ H; discriminate H.
Qed.

(** What a step of the mutex functions does to the thread that takes it. *)
Lemma step_own (t : nat) (s : state) (th : thread) (m : nat) :
  threads s !! t = Some th -> shape th -> on_mutex m th ->
  exists th1, threads (step t s) !! t = Some th1
    /\ on_mutex m th1
    /\ (at_pc th1 = UnlockLeave \/ todo th1 = [] ->
        (at_pc th = UnlockLeave \/ todo th = [])
        \/ (at_pc th = Idle /\ is_Some (holding th))).
Proof.
  intros Ht Hs Hon.
  assert (Hlt : (t < length (threads s))%nat) by (eapply lookup_lt_Some; exact Ht).
  destruct (step_cases t s)
    as [-> | [(th0 & Ht0 & Hpc & ->) | (th0 & mx & Ht0 & Hpc & Hm & ->)]].
  - exists th. split; [exact Ht |]. split; [exact Hon |]. intros H. left. exact H.
  - assert (th0 = th) as -> by congruence.
    exists (start th). simpl.
    split; [apply list_lookup_insert_eq; exact Hlt |].
    split; [apply start_on_mutex; exact Hon |].
    intros Hcase. unfold shape in Hs. rewrite Hpc in Hs. unfold start in Hcase.
    destruct (todo th) as [| c rest] eqn:Htodo; [left; right; reflexivity |].
    right. split; [exact Hpc |]. unfold holding. rewrite Hpc, Htodo.
    destruct Hs as [Hs | (m' & rest' & Heq & _)].
    + destruct c; try discriminate Hs.
      destruct rest as [| c2 rest2]; [discriminate Hs |].
      simpl in Hcase. destruct Hcase; discriminate.
    + injection Heq as -> ->. eauto.
  - assert (th0 = th) as -> by congruence.
    exists (fst (fst (exec t th (initlock s) mx))). simpl.
    split; [apply list_lookup_insert_eq; exact Hlt |].
    destruct (exec_keeps t th (initlock s) mx) as [Ka Kt].
    split.
    + destruct Hon as [Hall Harg]. split; [rewrite Kt; exact Hall |].
      right. rewrite Ka. destruct Harg; [congruence | assumption].
    + intros [Hu | Hn].
      * exfalso. exact (exec_never_unlockleave t th _ mx Hpc Hu).
      * left. right. congruence.
Qed.


Lemma mts_step_cases (d : Z) (t : nat) (c : shared) :
  ((threads (mstate c) !! t = None \/ workers c !! t = None) /\ mts_step d t c = c)
  \/ exists th wk,
       threads (mstate c) !! t = Some th /\ workers c !! t = Some wk
       /\ ((is_Some (holding th) /\ at_pc th = Idle
            /\ exists k, remaining wk = S k
               /\ ((loaded wk = None
                    /\ mts_step d t c
                       = {| mstate := mstate c; count := count c;
                            workers := <[t := {| remaining := S k;
                                                 loaded := Some (count c) |}]>
                                         (workers c) |})
                   \/ (exists r, loaded wk = Some r
                       /\ mts_step d t c
                          = {| mstate := mstate c; count := wraps 32 (r + d);
                               workers := <[t := {| remaining := k; loaded := None |}]>
                                            (workers c) |})))
           \/ ((holding th = None \/ at_pc th <> Idle \/ remaining wk = 0%nat)
               /\ mts_step d t c
                  = {| mstate := step t (mstate c); count := count c;
                       workers := workers c |})).
Proof.
  unfold mts_step.
  destruct (threads (mstate c) !! t) as [th |] eqn:Ht; [| left; auto].
  destruct (workers c !! t) as [wk |] eqn:Hw; [| left; auto].
  right. exists th, wk. split; [reflexivity |]. split; [reflexivity |].
  destruct (holding th) as [m' |] eqn:Hh; [| right; split; [left |]; reflexivity].
  destruct (decide (at_pc th = Idle)) as [Hp | Hp].
  - rewrite Hp. destruct (remaining wk) as [| k] eqn:Hr.
    + right. split; [right; right |]; reflexivity.
    + left. split; [eauto |]. split; [reflexivity |]. exists k. split; [reflexivity |].
      destruct (loaded wk) as [r |]; [right; eauto | left; auto].
  - right. split; [right; left; exact Hp |].
    destruct (at_pc th); try reflexivity. congruence.
Qed.

Lemma made_le (K : nat) (ws : list worker) : (made K ws <= length ws * K)%nat.
Proof. unfold made. induction ws as [| w ws IH]; simpl; lia. Qed.

Lemma holding_on_mutex (m m' : nat) (th : thread) :
  on_mutex m th -> holding th = Some m' -> m' = m.
Proof.
  intros [Hall Harg] Hh. unfold holding in Hh.
  destruct (at_pc th) eqn:Hp; try discriminate Hh.
  - destruct (todo th) as [| [] rest]; try discriminate Hh.
    injection Hh as <-. apply Forall_cons in Hall as [Hc _]. exact Hc.
  - injection Hh as <-. destruct Harg; [discriminate | assumption].
Qed.

Lemma holding_idle_busy (th : thread) :
  is_Some (holding th) -> at_pc th = Idle ->
  at_pc th = UnlockLeave \/ todo th = [] -> False.
Proof.
  intros [m' Hh] Hp [Hu | Hn]; [congruence |].
  unfold holding in Hh. rewrite Hp, Hn in Hh. discriminate.
Qed.

Section Step.
Variables (d : Z) (K m N : nat).
Hypothesis d_nonneg : 0 <= d.
Hypothesis fits_int : d * Z.of_nat (N * K) <= 2147483647.

Lemma mts_step_counted (t : nat) (c : shared) :
  length (workers c) = N ->
  Counted d K m c -> Counted d K m (mts_step d t c).
Proof.
  intros HN C.
  destruct (mts_step_cases d t c)
    as [(_ & ->)
       | (th & wk & Ht & Hw & [(Hh & Hp & k & Hr & [(Hl & ->) | (r & Hl & ->)])
                                  | (Hbr & ->)])];
    [exact C | | |].
  - (* the read of mts->count *)
    assert (Hlt : (t < length (workers c))%nat) by (eapply lookup_lt_Some; exact Hw).
    constructor; simpl.
    + apply (cnt_inv _ _ _ _ C).
    + apply (cnt_excl _ _ _ _ C).
    + rewrite length_insert. apply (cnt_len _ _ _ _ C).
    + intros i wi Hi. apply list_lookup_insert_Some in Hi as [(<- & <- & _) | (_ & Hi)].
      * simpl. rewrite <- Hr. apply (cnt_le _ _ _ _ C t wk Hw).
      * apply (cnt_le _ _ _ _ C i wi Hi).
    + etransitivity; [exact (cnt_sum _ _ _ _ C) |]. f_equal. f_equal. unfold made.
      pose proof (sum_list_with_insert (fun wk => K - remaining wk)%nat (workers c) t wk
                    {| remaining := S k; loaded := Some (count c) |} Hw) as Hs.
      simpl in Hs. rewrite Hr in Hs. lia.
    + intros i wi thi r Hi Hti Hli.
      apply list_lookup_insert_Some in Hi as [(<- & <- & _) | (_ & Hi)].
      * simpl in *. assert (thi = th) as -> by congruence.
        injection Hli as <-. repeat split; [exact Hh | exact Hp | lia].
      * apply (cnt_loaded _ _ _ _ C i wi thi r Hi Hti Hli).
    + intros i wi thi Hi Hti Hd.
      apply list_lookup_insert_Some in Hi as [(<- & <- & _) | (_ & Hi)].
      * assert (thi = th) as -> by congruence.
        exfalso. exact (holding_idle_busy th Hh Hp Hd).
      * apply (cnt_done _ _ _ _ C i wi thi Hi Hti Hd).
    + apply (cnt_mutex _ _ _ _ C).
  - (* the write of the sum *)
    assert (Hlt : (t < length (workers c))%nat) by (eapply lookup_lt_Some; exact Hw).
    destruct (cnt_loaded _ _ _ _ C t wk th r Hw Ht Hl) as (-> & _).
    pose proof (cnt_le _ _ _ _ C t wk Hw) as HleK.
    pose proof (sum_list_with_insert (fun wk => K - remaining wk)%nat (workers c) t wk
                  {| remaining := k; loaded := None |} Hw) as Hs.
    simpl in Hs. rewrite Hr in Hs.
    pose proof (made_le K (<[t := {| remaining := k; loaded := None |}]> (workers c)))
      as Hmax.
    rewrite length_insert, HN in Hmax. unfold made in Hmax.
    assert (Hcount : wraps 32 (count c + d)
                     = d * Z.of_nat (made K (<[t := {| remaining := k; loaded := None |}]>
                                               (workers c)))).
    { assert (Hnew : count c + d
                     = d * Z.of_nat (made K (<[t := {| remaining := k; loaded := None |}]>
                                               (workers c)))).
      { rewrite (cnt_sum _ _ _ _ C). unfold made.
        replace (sum_list_with (fun wk0 => K - remaining wk0)%nat
                   (<[t := {| remaining := k; loaded := None |}]> (workers c)))
          with (S (sum_list_with (fun wk0 => K - remaining wk0)%nat (workers c)))
          by lia.
        lia. }
      rewrite Hnew. apply wraps_small; [lia |]. unfold made.
      change (2 ^ (32 - 1)) with 2147483648. nia. }
    constructor; simpl.
    + apply (cnt_inv _ _ _ _ C).
    + apply (cnt_excl _ _ _ _ C).
    + rewrite length_insert. apply (cnt_len _ _ _ _ C).
    + intros i wi Hi. apply list_lookup_insert_Some in Hi as [(<- & <- & _) | (_ & Hi)].
      * simpl. lia.
      * apply (cnt_le _ _ _ _ C i wi Hi).
    + exact Hcount.
    + intros i wi thi r Hi Hti Hli.
      apply list_lookup_insert_Some in Hi as [(<- & <- & _) | (Hne & Hi)];
        [discriminate Hli |].
      exfalso. apply Hne.
      destruct (cnt_loaded _ _ _ _ C i wi thi r Hi Hti Hli) as (_ & [mi Hhi] & _).
      destruct Hh as [mt Hht].
      pose proof (holding_on_mutex m mi thi (cnt_mutex _ _ _ _ C i thi Hti) Hhi).
      pose proof (holding_on_mutex m mt th (cnt_mutex _ _ _ _ C t th Ht) Hht).
      subst mi mt.
      destruct (excl_holder _ (cnt_excl _ _ _ _ C) i thi m Hti Hhi) as (mx & Hmx & Ho & _).
      destruct (excl_holder _ (cnt_excl _ _ _ _ C) t th m Ht Hht) as (mx' & Hmx' & Ho' & _).
      congruence.
    + intros i wi thi Hi Hti Hd.
      apply list_lookup_insert_Some in Hi as [(<- & <- & _) | (_ & Hi)].
      * assert (thi = th) as -> by congruence.
        exfalso. exact (holding_idle_busy th Hh Hp Hd).
      * apply (cnt_done _ _ _ _ C i wi thi Hi Hti Hd).
    + apply (cnt_mutex _ _ _ _ C).
  - (* a statement of mutex_lock or mutex_unlock *)
    pose proof (excl_shape _ (cnt_excl _ _ _ _ C) t th Ht) as Hshape.
    destruct (step_own t (mstate c) th m Ht Hshape (cnt_mutex _ _ _ _ C t th Ht))
      as (th1 & Ht1 & Hon1 & Hback).
    constructor; simpl.
    + apply step_inv. apply (cnt_inv _ _ _ _ C).
    + apply step_excl; [apply (cnt_inv _ _ _ _ C) | apply (cnt_excl _ _ _ _ C)].
    + rewrite step_length. apply (cnt_len _ _ _ _ C).
    + apply (cnt_le _ _ _ _ C).
    + apply (cnt_sum _ _ _ _ C).
    + intros i wi thi r Hi Hti Hli.
      destruct (decide (i = t)) as [-> | Hne].
      * exfalso. assert (wi = wk) as -> by congruence.
        destruct (cnt_loaded _ _ _ _ C t wk th r Hw Ht Hli) as (_ & [mt Hht] & Hpt & Hpos).
        destruct Hbr as [Hb | [Hb | Hb]]; [congruence | congruence | lia].
      * rewrite step_other in Hti by exact Hne.
        apply (cnt_loaded _ _ _ _ C i wi thi r Hi Hti Hli).
    + intros i wi thi Hi Hti Hd.
      destruct (decide (i = t)) as [-> | Hne].
      * assert (wi = wk) as -> by congruence.
        assert (thi = th1) as -> by congruence.
        destruct (Hback Hd) as [Hold | [Hpt [mt Hht]]].
        -- apply (cnt_done _ _ _ _ C t wk th Hw Ht Hold).
        -- destruct Hbr as [Hb | [Hb | Hb]]; [congruence | congruence | exact Hb].
      * rewrite step_other in Hti by exact Hne.
        apply (cnt_done _ _ _ _ C i wi thi Hi Hti Hd).
    + intros i thi Hti.
      destruct (decide (i = t)) as [-> | Hne].
      * assert (thi = th1) as -> by congruence. exact Hon1.
      * rewrite step_other in Hti by exact Hne.
        apply (cnt_mutex _ _ _ _ C i thi Hti).
Qed.

Lemma mts_step_workers (t : nat) (c : shared) :
  length (workers (mts_step d t c)) = length (workers c).
Proof.
  destruct (mts_step_cases d t c)
    as [(_ & ->)
       | (th & wk & Ht & Hw & [(Hh & Hp & k & Hr & [(Hl & ->) | (r & Hl & ->)])
                                  | (Hbr & ->)])];
    simpl; rewrite ?length_insert; reflexivity.
Qed.

Lemma mts_run_counted (sched : list nat) :
  forall c, length (workers c) = N -> Counted d K m c ->
            length (workers (mts_run d sched c)) = N
            /\ Counted d K m (mts_run d sched c).
Proof.
  induction sched as [| t sched IH]; intros c HN C; [auto |].
  simpl. apply IH.
  - rewrite mts_step_workers. exact HN.
  - apply mts_step_counted; assumption.
Qed.

End Step.

Lemma fresh_thread (N : nat) (cs : list call) (i : nat) (th : thread) :
  replicate N (new_thread cs) !! i = Some th -> th = new_thread cs.
Proof. intros H. apply lookup_replicate in H as [-> _]. reflexivity. Qed.

Lemma fresh_inv (mxs : list Mutex) (N m : nat) :
  Forall idle_mutex mxs ->
  Inv {| initlock := 0; mutexes := mxs;
         threads := replicate N (new_thread [Mutex_lock m; Mutex_unlock m]) |}.
Proof.
  intros Hall.
  assert (Hmx : forall k mx, mxs !! k = Some mx -> idle_mutex mx)
    by (intros k mx Hk; exact (Forall_lookup_1 _ _ _ _ Hall Hk)).
  constructor; simpl.
  - left. reflexivity.
  - intros i th _ Hi. apply fresh_thread in Hi as ->. reflexivity.
  - intros i j thi thj Hi _ Gi _. apply fresh_thread in Hi as ->. discriminate Gi.
  - intros i th Hi. apply fresh_thread in Hi as ->.
    split; [reflexivity |]. simpl. repeat constructor.
  - intros k mx Hk Hnz. destruct (Hmx k mx Hk) as [-> | ->]; simpl in *; auto.
    congruence.
  - intros k mx Hk Hz. destruct (Hmx k mx Hk) as [-> | ->]; simpl in *; auto.
    discriminate Hz.
  - intros k mx Hk Ho. destruct (Hmx k mx Hk) as [-> | ->]; simpl in *; congruence.
  - intros i th mx Hi _ Hp. apply fresh_thread in Hi as ->. discriminate Hp.
  - intros i th mx Hi _ Hp. apply fresh_thread in Hi as ->. discriminate Hp.
  - intros i th mx Hi _ Hp. apply fresh_thread in Hi as ->. destruct Hp; discriminate.
  - intros i th k r mx Hi Hr. apply fresh_thread in Hi as ->.
    simpl in Hr. apply elem_of_nil in Hr. destruct Hr.
Qed.

Lemma fresh_excl (mxs : list Mutex) (N m : nat) :
  Forall idle_mutex mxs ->
  Excl {| initlock := 0; mutexes := mxs;
          threads := replicate N (new_thread [Mutex_lock m; Mutex_unlock m]) |}.
Proof.
  intros Hall. constructor; simpl.
  - intros t th Ht. apply fresh_thread in Ht as ->.
    unfold shape. simpl. left. rewrite Nat.eqb_refl. reflexivity.
  - intros t th k Ht Hh. apply fresh_thread in Ht as ->. discriminate Hh.
  - intros k mx o Hk Ho.
    destruct (Forall_lookup_1 _ _ _ _ Hall Hk) as [-> | ->]; discriminate Ho.
Qed.

Lemma mts_boot_counted (d : Z) (mxs : list Mutex) (N m K : nat) :
  Forall idle_mutex mxs -> Counted d K m (mts_boot mxs N m K).
Proof.
  intros Hall. constructor; unfold mts_boot; simpl.
  - apply fresh_inv. exact Hall.
  - apply fresh_excl. exact Hall.
  - rewrite !length_replicate. reflexivity.
  - intros t wk Hw. apply lookup_replicate in Hw as [-> _]. simpl. lia.
  - assert (H0 : forall n, made K (replicate n {| remaining := K; loaded := None |}) = 0%nat).
    { induction n as [| n IH]; [reflexivity |]. unfold made in *. simpl. rewrite IH. lia. }
    rewrite H0. lia.
  - intros t wk th r Hw _ Hl. apply lookup_replicate in Hw as [-> _]. discriminate Hl.
  - intros t wk th _ Ht Hd. apply fresh_thread in Ht as ->.
    simpl in Hd. destruct Hd; discriminate.
  - intros t th Ht. apply fresh_thread in Ht as ->.
    split; [| left; reflexivity]. simpl. repeat constructor.
Qed.

Lemma made_all (K : nat) (ws : list worker) :
  (forall t wk, ws !! t = Some wk -> remaining wk = 0%nat) ->
  made K ws = (length ws * K)%nat.
Proof.
  unfold made. induction ws as [| w ws IH]; intros H; [reflexivity |].
  simpl. rewrite (H 0%nat w eq_refl).
  rewrite IH by (intros t wk Ht; exact (H (S t) wk Ht)). lia.
Qed.

Lemma counted_finished (d : Z) (K m : nat) (c : shared) :
  Counted d K m c ->
  (forall t th, threads (mstate c) !! t = Some th -> finished th) ->
  count c = d * Z.of_nat (length (workers c) * K).
Proof.
  intros C Hfin. rewrite (cnt_sum _ _ _ _ C). f_equal. f_equal.
  apply made_all. intros t wk Hw.
  assert (Hlt : (t < length (threads (mstate c)))%nat).
  { rewrite <- (cnt_len _ _ _ _ C). eapply lookup_lt_Some. exact Hw. }
  destruct (lookup_lt_is_Some_2 _ _ Hlt) as [th Ht].
  apply (cnt_done _ _ _ _ C t wk th Hw Ht). right. apply (Hfin t th Ht).
Qed.

(** X6: no lost update.  [N] threads run [mts_inc] with [lockmethod] 2, 3
    or 4 on a Windows mutex that nobody holds (declared with
    [MUTEX_INITIALIZER] or initialized), [mts->count] starting at 0 and
    [N * ROUNDS] fitting an [int].  Under any interleaving of the statements
    of the mutex functions and of the reads and writes of [mts->count], the
    count is the sum of the additions made so far; when all threads are done
    it is [N * ROUNDS], and [COUNT] for [N = THREADS]. *)
Theorem mts_inc_no_lost_update
  (lockmethod : Z) (mxs : list Mutex) (N m : nat) (sched : list nat) :
  2 <= lockmethod <= 4 ->
  Forall idle_mutex mxs ->
  Z.of_nat N * ROUNDS <= 2147483647 ->
  let c := mts_run (additions lockmethod).2 sched
             (mts_boot mxs N m (additions lockmethod).1) in
  count c = (additions lockmethod).2
            * Z.of_nat (made (additions lockmethod).1 (workers c))
  /\ ((forall t th, threads (mstate c) !! t = Some th -> finished th) ->
      count c = Z.of_nat N * ROUNDS
      /\ (N = Z.to_nat THREADS -> count c = COUNT)).
Proof.
  intros Hlm Hall Hfit c.
  set (K := (additions lockmethod).1) in *.
  set (d := (additions lockmethod).2) in *.
  assert (HdK : d * Z.of_nat K = ROUNDS /\ 0 <= d).
  { unfold d, K, additions. destruct (lockmethod =? 4); simpl.
    - unfold ROUNDS. lia.
    - rewrite Z2Nat.id by (unfold ROUNDS; lia). unfold ROUNDS. lia. }
  destruct HdK as [HdK Hd].
  assert (Hbound : d * Z.of_nat (N * K) <= 2147483647).
  { rewrite Nat2Z.inj_mul. 
    replace (d * (Z.of_nat N * Z.of_nat K)) with (Z.of_nat N * (d * Z.of_nat K)) by ring.
    rewrite HdK. exact Hfit. }
  destruct (mts_run_counted d K m N Hd Hbound sched (mts_boot mxs N m K))
    as [HN C].
  { unfold mts_boot. simpl. apply length_replicate. }
  { apply mts_boot_counted. exact Hall. }
  fold c in HN, C. split; [apply (cnt_sum _ _ _ _ C) |].
  intros Hfin.
  assert (Hc : count c = Z.of_nat N * ROUNDS).
  { rewrite (counted_finished d K m c C Hfin), HN, Nat2Z.inj_mul, <- HdK. ring. }
  split; [exact Hc |].
  intros ->. rewrite Hc. reflexivity.
Qed.


Lemma mts_inc_no_lost_update_witness :
  (2 <= 4 <= 4 /\ Forall idle_mutex [MUTEX_INITIALIZER]
   /\ Z.of_nat 2 * ROUNDS <= 2147483647)
  /\ count (mts_run (additions 4).2 one_by_one
              (mts_boot [MUTEX_INITIALIZER] 2 0 (additions 4).1)) = 200000.
Proof.
  assert (H1 : 2 <= 4 <= 4) by lia.
  assert (H2 : Forall idle_mutex [MUTEX_INITIALIZER])
    by (repeat constructor).
  assert (H3 : Z.of_nat 2 * ROUNDS <= 2147483647) by (vm_compute; congruence).
  split; [exact (conj H1 (conj H2 H3)) |].
  refine (proj1 (proj2 (mts_inc_no_lost_update 4 [MUTEX_INITIALIZER] 2 0 one_by_one
                          H1 H2 H3) _)).
  intros t th Ht. vm_compute in Ht.
  destruct t as [| [| t]]; try discriminate Ht; injection Ht as <-; split; reflexivity.
Defined.

Lemma mts_step_moves (d : Z) (t : nat) (c : shared) (th : thread) (wk : worker) :
  threads (mstate c) !! t = Some th -> workers c !! t = Some wk ->
  step t (mstate c) <> mstate c -> mts_step d t c <> c.
Proof.
  intros Ht Hw Hmove Heq.
  assert (Hlt : (t < length (workers c))%nat) by (eapply lookup_lt_Some; exact Hw).
  destruct (mts_step_cases d t c)
    as [([Hc | Hc] & _)
       | (th' & wk' & Ht' & Hw' & [(Hh & Hp & k & Hr & [(Hl & Hc) | (r & Hl & Hc)])
                                  | (Hbr & Hc)])];
    try congruence.
  - rewrite Hc in Heq. apply (f_equal (fun x => workers x !! t)) in Heq.
    simpl in Heq. rewrite list_lookup_insert_eq in Heq by exact Hlt.
    rewrite Hw' in Heq. injection Heq as Heq.
    apply (f_equal loaded) in Heq. simpl in Heq. congruence.
  - rewrite Hc in Heq. apply (f_equal (fun x => workers x !! t)) in Heq.
    simpl in Heq. rewrite list_lookup_insert_eq in Heq by exact Hlt.
    rewrite Hw' in Heq. injection Heq as Heq.
    apply (f_equal remaining) in Heq. simpl in Heq. lia.
  - rewrite Hc in Heq. apply Hmove. exact (f_equal mstate Heq).
Qed.

Lemma mts_step_work (d : Z) (t : nat) (c : shared) :
  mts_step d t c <> c -> (mts_work (mts_step d t c) < mts_work c)%nat.
Proof.
  intros Hne.
  destruct (mts_step_cases d t c)
    as [(_ & Hc)
       | (th & wk & Ht & Hw & [(Hh & Hp & k & Hr & [(Hl & Hc) | (r & Hl & Hc)])
                              | (Hbr & Hc)])];
    [contradiction | | |]; rewrite Hc in *; unfold mts_work; simpl.
  - pose proof (sum_list_with_insert worker_work (workers c) t wk
                  {| remaining := S k; loaded := Some (count c) |} Hw) as Hs.
    assert (Hold : worker_work wk = (2 * S k)%nat)
      by (unfold worker_work; rewrite Hr, Hl; lia).
    assert (Hnew : worker_work {| remaining := S k; loaded := Some (count c) |}
                   = (2 * S k - 1)%nat) by reflexivity.
    lia.
  - pose proof (sum_list_with_insert worker_work (workers c) t wk
                  {| remaining := k; loaded := None |} Hw) as Hs.
    assert (Hold : worker_work wk = (2 * S k - 1)%nat)
      by (unfold worker_work; rewrite Hr, Hl; lia).
    assert (Hnew : worker_work {| remaining := k; loaded := None |} = (2 * k - 0)%nat)
      by reflexivity.
    lia.
  - assert (Hmove : step t (mstate c) <> mstate c).
    { intros Heq. apply Hne. rewrite Heq. destruct c; reflexivity. }
    apply step_work in Hmove. lia.
Qed.

Lemma mts_step_live (d : Z) (t : nat) (c : shared) :
  Inv (mstate c) -> Live (mstate c) -> Live (mstate (mts_step d t c)).
Proof.
  intros I L.
  destruct (mts_step_cases d t c)
    as [(_ & ->)
       | (th & wk & Ht & Hw & [(Hh & Hp & k & Hr & [(Hl & ->) | (r & Hl & ->)])
                              | (Hbr & ->)])];
    simpl; try exact L.
  apply step_live; assumption.
Qed.

Lemma fresh_live (mxs : list Mutex) (N m : nat) :
  (m < length mxs)%nat ->
  Live {| initlock := 0; mutexes := mxs;
          threads := replicate N (new_thread [Mutex_lock m; Mutex_unlock m]) |}.
Proof.
  intros Hm. constructor; simpl.
  - discriminate.
  - intros t th Ht. apply fresh_thread in Ht as ->. simpl.
    split; [congruence |]. repeat constructor; exact Hm.
Qed.

Section Finish.
Variables (d : Z) (K m N : nat).
Hypothesis d_nonneg : 0 <= d.
Hypothesis fits_int : d * Z.of_nat (N * K) <= 2147483647.

Lemma mts_can_finish_from (w : nat) :
  forall c, length (workers c) = N -> Counted d K m c -> Live (mstate c) ->
  (mts_work c <= w)%nat ->
  exists rest : list nat,
    (length rest <= mts_work c)%nat
    /\ (forall t th, threads (mstate (mts_run d rest c)) !! t = Some th -> finished th)
    /\ count (mts_run d rest c) = d * Z.of_nat (N * K).
Proof.
  assert (Hdone : forall c, length (workers c) = N -> Counted d K m c ->
            (forall t th, threads (mstate c) !! t = Some th -> finished th) ->
            exists rest : list nat,
              (length rest <= mts_work c)%nat
              /\ (forall t th, threads (mstate (mts_run d rest c)) !! t = Some th ->
                               finished th)
              /\ count (mts_run d rest c) = d * Z.of_nat (N * K)).
  { intros c HN C Hfin. exists []. split; [simpl; lia |]. split; [exact Hfin |].
    simpl. rewrite (counted_finished d K m c C Hfin), HN. reflexivity. }
  assert (Hmoves : forall c, Counted d K m c -> Live (mstate c) ->
            (forall t th, threads (mstate c) !! t = Some th -> finished th)
            \/ exists t, mts_step d t c <> c).
  { intros c C L.
    destruct (finished_or_moves (mstate c) (cnt_inv _ _ _ _ C) (cnt_excl _ _ _ _ C) L)
      as [Hfin | [t Hmove]]; [left; exact Hfin | right].
    exists t.
    destruct (threads (mstate c) !! t) as [th |] eqn:Ht.
    - assert (Hlt : (t < length (workers c))%nat).
      { rewrite (cnt_len _ _ _ _ C). eapply lookup_lt_Some. exact Ht. }
      destruct (lookup_lt_is_Some_2 _ _ Hlt) as [wk Hw].
      exact (mts_step_moves d t c th wk Ht Hw Hmove).
    - exfalso. apply Hmove. unfold step. rewrite Ht. reflexivity. }
  induction w as [| w IH]; intros c HN C L Hle.
  - destruct (Hmoves c C L) as [Hfin | [t Hmove]]; [exact (Hdone c HN C Hfin) |].
    apply mts_step_work in Hmove. lia.
  - destruct (Hmoves c C L) as [Hfin | [t Hmove]]; [exact (Hdone c HN C Hfin) |].
    apply mts_step_work in Hmove.
    destruct (IH (mts_step d t c)) as (rest & Hlen & Hfin & Hcount).
    + rewrite mts_step_workers. exact HN.
    + apply mts_step_counted with (N := N); assumption.
    + apply mts_step_live; [apply (cnt_inv _ _ _ _ C) | exact L].
    + lia.
    + exists (t :: rest). split; [simpl; lia |]. split; [exact Hfin | exact Hcount].
Qed.

Lemma mts_run_live (sched : list nat) :
  forall c, length (workers c) = N -> Counted d K m c -> Live (mstate c) ->
            Live (mstate (mts_run d sched c)).
Proof.
  induction sched as [| t sched IH]; intros c HN C L; [exact L |].
  simpl. apply IH.
  - rewrite mts_step_workers. exact HN.
  - apply mts_step_counted with (N := N); assumption.
  - apply mts_step_live; [apply (cnt_inv _ _ _ _ C) | exact L].
Qed.

End Finish.

(** X7: from every state that the [N] threads of [mts_inc] reach
    ([lockmethod] 2, 3 or 4, an existing mutex nobody holds at the start),
    some continuation of the schedule, no longer than the work left, brings
    all threads to their end with [mts->count = N * ROUNDS]. *)
Theorem mts_inc_can_reach_count
  (lockmethod : Z) (mxs : list Mutex) (N m : nat) (sched : list nat) :
  2 <= lockmethod <= 4 ->
  Forall idle_mutex mxs -> (m < length mxs)%nat ->
  Z.of_nat N * ROUNDS <= 2147483647 ->
  let d := (additions lockmethod).2 in
  let start := mts_boot mxs N m (additions lockmethod).1 in
  exists rest : list nat,
    (length rest <= mts_work (mts_run d sched start))%nat
    /\ (forall t th,
        threads (mstate (mts_run d (sched ++ rest) start)) !! t = Some th ->
        finished th)
    /\ count (mts_run d (sched ++ rest) start) = Z.of_nat N * ROUNDS.
Proof.
  intros Hlm Hall Hm Hfit d start.
  set (K := (additions lockmethod).1) in *.
  assert (HdK : d * Z.of_nat K = ROUNDS /\ 0 <= d).
  { unfold d, K, additions. destruct (lockmethod =? 4); simpl.
    - unfold ROUNDS. lia.
    - rewrite Z2Nat.id by (unfold ROUNDS; lia). unfold ROUNDS. lia. }
  destruct HdK as [HdK Hd].
  assert (Hmul : d * Z.of_nat (N * K) = Z.of_nat N * ROUNDS).
  { rewrite Nat2Z.inj_mul, <- HdK. ring. }
  assert (Hbound : d * Z.of_nat (N * K) <= 2147483647) by (rewrite Hmul; exact Hfit).
  assert (HN0 : length (workers start) = N) by (simpl; apply length_replicate).
  pose proof (mts_boot_counted d mxs N m K Hall) as C0. fold start in C0.
  pose proof (fresh_live mxs N m Hm) as L0.
  destruct (mts_run_counted d K m N Hd Hbound sched start HN0 C0) as [HN C].
  pose proof (mts_run_live d K m N Hd Hbound sched start HN0 C0 L0) as L.
  destruct (mts_can_finish_from d K m N Hd Hbound _ _ HN C L (le_n _))
    as (rest & Hlen & Hfin & Hcount).
  exists rest. split; [exact Hlen |].
  unfold mts_run in *. rewrite fold_left_app. rewrite <- Hmul. auto.
Qed.

Lemma mts_inc_can_reach_count_witness :
  (2 <= 3 <= 4 /\ Forall idle_mutex [initialized_mutex] /\ (0 < length [initialized_mutex])%nat
   /\ Z.of_nat (Z.to_nat THREADS) * ROUNDS <= 2147483647)
  /\ exists rest : list nat,
       count (mts_run (additions 3).2 ([0; 1; 0] ++ rest)%nat
                (mts_boot [initialized_mutex] (Z.to_nat THREADS) 0 (additions 3).1))
       = COUNT.
Proof.
  assert (H1 : 2 <= 3 <= 4) by lia.
  assert (H2 : Forall idle_mutex [initialized_mutex])
    by (repeat constructor; right; reflexivity).
  assert (H3 : (0 < length [initialized_mutex])%nat) by (simpl; lia).
  assert (H4 : Z.of_nat (Z.to_nat THREADS) * ROUNDS <= 2147483647)
    by (rewrite Z2Nat.id by (vm_compute; congruence); vm_compute; congruence).
  split; [exact (conj H1 (conj H2 (conj H3 H4))) |].
  destruct (mts_inc_can_reach_count 3 [initialized_mutex] (Z.to_nat THREADS) 0
              [0; 1; 0]%nat H1 H2 H3 H4) as (rest & _ & _ & Hcount).
  exists rest. rewrite Hcount. rewrite Z2Nat.id by (vm_compute; congruence).
  reflexivity.
Defined.

End MtsFacts.

(** ** The read/write lock test *)

Section RwsFacts.
Import CInt RwsTest.

Lemma rws_COUNT_int : 0 < COUNT < 2147483647.
Proof. unfold COUNT. lia. Qed.

Lemma rws_step_inv (w : who) (s : state) : Inv s -> Inv (step w s).
Proof.
  pose proof rws_COUNT_int as HC.
  destruct s as [[wb rn] c p q v]. unfold Inv. simpl.
  intros (Hw & Hr & Hx & Hc & Hp & Hv & Hq).
  destruct w, p, q; simpl in *;
    unfold rwlock_wrlock, rwlock_rdlock, rwlock_wrunlock, rwlock_rdunlock; simpl;
    subst wb rn; simpl;
    try (specialize (Hx eq_refl); discriminate Hx);
    repeat match goal with
           | |- context [?a <? ?b] => destruct (Z.ltb_spec a b); simpl
           | |- context [?a =? ?b] => destruct (Z.eqb_spec a b); simpl
           | H : _ /\ _ |- _ => destruct H
           end;
    subst;
    rewrite ?wraps_small by (change (2 ^ (32 - 1)) with 2147483648; lia);
    repeat split; auto; try lia; try discriminate; try congruence.
Qed.

Lemma rws_run_inv (sched : list who) : forall s, Inv s -> Inv (run sched s).
Proof.
  induction sched as [| w sched IH]; intros s I; [exact I |].
  simpl. apply IH. apply rws_step_inv. exact I.
Qed.

Lemma rws_boot_inv : Inv boot.
Proof. unfold Inv, boot, COUNT. simpl. repeat split; auto; lia. Qed.

(** X15: exclusive write.  [rws_wrload] counts [rws.count] up to [COUNT]
    under the write lock while [main] reads it under the read lock, in any
    interleaving: [main] never holds the lock together with the writer, what
    it reads is 0 or [COUNT] and never a count in between, it leaves its
    loop only with [res = COUNT], and after [thread_wait] the count is
    [COUNT], the thread has returned and the lock is free. *)
Theorem rws_reader_sees_whole_write (sched : list who) :
  let s := run sched boot in
  (res s = 0 \/ res s = COUNT)
  /\ (rd_holds (rd s) = true -> count s = 0 \/ count s = COUNT)
  /\ (wr_holds (wr s) = true -> rd_holds (rd s) = false)
  /\ (rd s = RdWait \/ rd s = RdCheck -> res s = COUNT)
  /\ (rd s = RdCheck ->
      count s = COUNT /\ wr s = WrReturn /\ rwl s = RWLOCK_INITIALIZER).
Proof.
  intros s. pose proof (rws_run_inv sched boot rws_boot_inv) as I. fold s in I.
  destruct s as [[wb rn] c p q v]. unfold Inv in I. simpl in *.
  destruct I as (Hw & Hr & Hx & Hc & Hp & Hv & Hq).
  split; [exact Hv |]. split; [| split; [exact Hx |]].
  - intros Hh.
    assert (Hfree : wr_holds p = false).
    { destruct (wr_holds p); [specialize (Hx eq_refl); congruence | reflexivity]. }
    destruct p; simpl in *; try discriminate Hfree; auto.
  - split.
    + intros [-> | ->]; [exact Hq | apply Hq].
    + intros ->. destruct Hq as [_ ->]. simpl in *.
      split; [exact Hp |]. split; [reflexivity |].
      unfold RWLOCK_INITIALIZER. congruence.
Qed.

Lemma rws_next_work (s : state) :
  Inv s -> rd s <> RdCheck -> 0 <= work (step (next s) s) < work s.
Proof.
  pose proof rws_COUNT_int as HC.
  destruct s as [[wb rn] c p q v]. unfold Inv, work, writer_work, main_work, next.
  simpl.
  intros (Hw & Hr & Hx & Hc & Hp & Hv & Hq) Hne.
  destruct p, q; simpl in *;
    unfold rwlock_wrlock, rwlock_rdlock, rwlock_wrunlock, rwlock_rdunlock; simpl;
    subst wb rn; simpl;
    try (specialize (Hx eq_refl); discriminate Hx);
    try congruence;
    repeat match goal with
           | |- context [?a <? ?b] => destruct (Z.ltb_spec a b); simpl
           | |- context [?a =? ?b] => destruct (Z.eqb_spec a b); simpl
           | H : _ /\ _ |- _ => destruct H
           end;
    subst;
    rewrite ?wraps_small by (change (2 ^ (32 - 1)) with 2147483648; lia);
    lia.
Qed.

Lemma rws_work_done (s : state) : Inv s -> rd s = RdCheck -> work s = 0.
Proof.
  destruct s as [[wb rn] c p q v]. unfold Inv, work, writer_work, main_work. simpl.
  intros (Hw & Hr & Hx & Hc & Hp & Hv & Hq) ->. destruct Hq as [_ ->]. reflexivity.
Qed.

Lemma rws_can_pass_from (n : nat) :
  forall s, Inv s -> work s <= Z.of_nat n ->
  exists rest : list who,
    Z.of_nat (length rest) <= work s /\ rd (run rest s) = RdCheck.
Proof.
  induction n as [| n IH]; intros s I Hle.
  - destruct (decide (rd s = RdCheck)) as [Hd | Hd].
    + exists []. split; [| exact Hd]. rewrite (rws_work_done s I Hd). simpl. lia.
    + pose proof (rws_next_work s I Hd). lia.
  - destruct (decide (rd s = RdCheck)) as [Hd | Hd].
    + exists []. split; [| exact Hd]. rewrite (rws_work_done s I Hd). simpl. lia.
    + pose proof (rws_next_work s I Hd) as Hw.
      destruct (IH (step (next s) s)) as (rest & Hlen & Hend);
        [apply rws_step_inv; exact I | lia |].
      exists (next s :: rest). split; [| exact Hend].
      simpl length. lia.
Qed.

(** X16: from every state the two threads reach, some continuation of the
    schedule, no longer than the work left, brings [main] to its check with
    [res = COUNT]: neither thread is left waiting for the lock or for the
    other. *)
Theorem rws_test_can_pass (sched : list who) :
  exists rest : list who,
    Z.of_nat (length rest) <= work (run sched boot)
    /\ rd (run (sched ++ rest) boot) = RdCheck
    /\ res (run (sched ++ rest) boot) = COUNT.
Proof.
  pose proof (rws_run_inv sched boot rws_boot_inv) as I.
  destruct (rws_can_pass_from (Z.to_nat (work (run sched boot))) _ I) as (rest & Hlen & Hend).
  { destruct (decide (rd (run sched boot) = RdCheck)) as [Hd | Hd].
    - rewrite (rws_work_done _ I Hd). simpl. lia.
    - pose proof (rws_next_work _ I Hd). lia. }
  exists rest. split; [exact Hlen |].
  assert (Hrun : run (sched ++ rest) boot = run rest (run sched boot))
    by (unfold run; apply fold_left_app).
  rewrite Hrun. split; [exact Hend |].
  pose proof (rws_run_inv rest _ I) as I2.
  destruct (run rest (run sched boot)) as [[wb rn] c p q v].
  unfold Inv in I2. simpl in *. subst q. apply I2.
Qed.

End RwsFacts.

(** ** The timing test *)

Section TimingFacts.
Import CInt Clock Mptest TimingTest.

Lemma wrapu_minus_l (w a b : Z) : wrapu w (wrapu w a - b) = wrapu w (a - b).
Proof. unfold wrapu. apply Zminus_mod_idemp_l. Qed.

(** The check of a round, for a stamp that is [d] away from where an exact
    clock would be. *)
Lemma round_verdict (U P s e0 d now : Z) (i : nat) :
  i = 1%nat \/ i = 2%nat \/ i = 4%nat \/ i = 5%nat ->
  0 < P <= U -> U <= 1000000 ->
  0 <= s < 2 ^ 64 -> P <= e0 < 4 * U -> - U < d < U ->
  now = wrapu 64 (s + e0 + Z.of_nat i * U + d) ->
  WITHIN_TOLERANCE (wrapu 64 (now - tstart (at_round U i {| tstart := s; texpected := e0 |})))
    (texpected (at_round U i {| tstart := s; texpected := e0 |})) P = true
  <-> - P < d < P.
Proof.
  intros Hi HP HU Hs He Hd ->.
  change (2 ^ 64) with 18446744073709551616 in *.
  assert (Hsmall : forall x, 0 <= x < 18446744073709551616 -> wrapu 64 x = x)
    by (intros x Hx; apply wrapu_small; exact Hx).
  assert (Hbelow : forall x, - 18446744073709551616 <= x < 0 ->
                             wrapu 64 x = x + 18446744073709551616)
    by (intros x Hx; apply (wrapu_below 64 x); [lia | exact Hx]).
  unfold WITHIN_TOLERANCE.
  destruct Hi as [-> | [-> | [-> | ->]]]; unfold at_round; simpl;
    unfold adjust; simpl.
  - change (Z.of_nat 1) with 1.
    rewrite (wrapu_minus_l 64 (s + e0 + 1 * U + d) s).
    replace (s + e0 + 1 * U + d - s) with (e0 + U + d) by lia.
    rewrite (Hsmall (e0 + U)) by lia.
    rewrite !Hsmall by lia.
    rewrite andb_true_iff, !Z.ltb_lt. lia.
  - change (Z.of_nat 2) with 2.
    rewrite (wrapu_minus_l 64 (s + e0 + 2 * U + d) s).
    replace (s + e0 + 2 * U + d - s) with (e0 + 2 * U + d) by lia.
    rewrite (Hsmall (e0 + U)) by lia.
    rewrite (Hsmall (e0 + U + U)) by lia.
    rewrite !Hsmall by lia.
    rewrite andb_true_iff, !Z.ltb_lt. lia.
  - change (Z.of_nat 4) with 4.
    rewrite (wrapu_minus_l 64 (s + e0 + 4 * U + d) s).
    replace (s + e0 + 4 * U + d - s) with (e0 + 4 * U + d) by lia.
    rewrite (Hsmall (e0 + U)) by lia.
    rewrite (Hsmall (e0 + U + U)) by lia.
    rewrite (Hsmall (e0 + U + U + U)) by lia.
    rewrite (Hsmall (e0 + U + U + U + U)) by lia.
    rewrite !Hsmall by lia.
    rewrite andb_true_iff, !Z.ltb_lt. lia.
  - change (Z.of_nat 5) with 5.
    rewrite (wrapu_sub 64 (s + e0 + 5 * U + d) (s + 10 * U)).
    replace (s + e0 + 5 * U + d - (s + 10 * U)) with (e0 - 5 * U + d) by lia.
    rewrite (Hsmall (e0 + U)) by lia.
    rewrite (Hsmall (e0 + U + U)) by lia.
    rewrite (Hsmall (e0 + U + U + U)) by lia.
    rewrite (Hsmall (e0 + U + U + U + U)) by lia.
    rewrite (Hbelow (e0 + U + U + U + U - 9 * U)) by lia.
    rewrite (Hbelow (e0 - 5 * U + d)) by lia.
    rewrite !Hsmall by lia.
    rewrite andb_true_iff, !Z.ltb_lt. lia.
Qed.

(** X17: the verdicts of the timing test, for [time.c].  In the rounds 1,
    2, 4 and 5 (round 5 moves the start 10 s ahead, so that the elapsed time
    and the expectation are both below zero and wrap), with a stamp that is
    [dm] milliseconds ([du] microseconds) away from where an exact clock
    would be: the millisecond check passes exactly when [dm = 0], the
    microsecond check exactly when [du] is strictly within 10. *)
Theorem timing_round_verdicts (c : clocks) (i : nat) (ms e0 dm us f0 du : Z) :
  i = 1%nat \/ i = 2%nat \/ i = 4%nat \/ i = 5%nat ->
  0 <= ms < 2 ^ 64 -> 1 <= e0 < 4000 -> - 1000 < dm < 1000 ->
  0 <= us < 2 ^ 64 -> 10 <= f0 < 4000000 -> - 1000000 < du < 1000000 ->
  TimeC.milliseconds c = wrapu 64 (ms + e0 + Z.of_nat i * 1000 + dm) ->
  TimeC.microseconds c = wrapu 64 (us + f0 + Z.of_nat i * 1000000 + du) ->
  (milli_passes c (at_round TimeC.MILLISECONDS i {| tstart := ms; texpected := e0 |})
   = true <-> dm = 0)
  /\ (micro_passes c (at_round TimeC.MICROSECONDS i {| tstart := us; texpected := f0 |})
      = true <-> - 10 < du < 10).
Proof.
  intros Hi Hms He0 Hdm Hus Hf0 Hdu Hm Hu.
  unfold milli_passes, micro_passes, TimeC.millielapsed, TimeC.microelapsed,
    TimeC.MILLISECONDS, TimeC.MICROSECONDS, MILLITEST_PRECISION, MICROTEST_PRECISION.
  split.
  - rewrite (round_verdict 1000 1 ms e0 dm _ i Hi) by (try exact Hm; lia). lia.
  - apply (round_verdict 1000000 10 us f0 du _ i Hi); try exact Hu; lia.
Qed.

Lemma timing_round_verdicts_witness :
  ((5 = 1 \/ 5 = 2 \/ 5 = 4 \/ 5 = 5)%nat
   /\ 0 <= 7000 < 2 ^ 64 /\ 1 <= 1200 < 4000 /\ - 1000 < 0 < 1000
   /\ 0 <= 7000000 < 2 ^ 64 /\ 10 <= 1200300 < 4000000 /\ - 1000000 < 9 < 1000000
   /\ TimeC.milliseconds (clock_at 13 200309000) = wrapu 64 (7000 + 1200 + Z.of_nat 5 * 1000 + 0)
   /\ TimeC.microseconds (clock_at 13 200309000)
      = wrapu 64 (7000000 + 1200300 + Z.of_nat 5 * 1000000 + 9))
  /\ at_round TimeC.MILLISECONDS 5 {| tstart := 7000; texpected := 1200 |}
     = {| tstart := 17000; texpected := 2 ^ 64 - 3800 |}
  /\ TimeC.millielapsed (clock_at 13 200309000) 17000 = 2 ^ 64 - 3800
  /\ milli_passes (clock_at 13 200309000)
       (at_round TimeC.MILLISECONDS 5 {| tstart := 7000; texpected := 1200 |}) = true.
Proof.
  assert (H1 : (5 = 1 \/ 5 = 2 \/ 5 = 4 \/ 5 = 5)%nat) by (right; right; right; reflexivity).
  assert (H2 : 0 <= 7000 < 2 ^ 64) by (vm_compute; split; congruence).
  assert (H3 : 1 <= 1200 < 4000) by lia.
  assert (H4 : - 1000 < 0 < 1000) by lia.
  assert (H5 : 0 <= 7000000 < 2 ^ 64) by (vm_compute; split; congruence).
  assert (H6 : 10 <= 1200300 < 4000000) by lia.
  assert (H7 : - 1000000 < 9 < 1000000) by lia.
  assert (H8 : TimeC.milliseconds (clock_at 13 200309000)
               = wrapu 64 (7000 + 1200 + Z.of_nat 5 * 1000 + 0)) by reflexivity.
  assert (H9 : TimeC.microseconds (clock_at 13 200309000)
               = wrapu 64 (7000000 + 1200300 + Z.of_nat 5 * 1000000 + 9)) by reflexivity.
  split; [repeat split; try assumption; try lia |].
  split; [reflexivity |]. split; [reflexivity |].
  apply (proj1 (timing_round_verdicts (clock_at 13 200309000) 5 7000 1200 0
                  7000000 1200300 9 H1 H2 H3 H4 H5 H6 H7 H8 H9)).
  reflexivity.
Defined.

End TimingFacts.
